(** * GMM-Master: the CRF layer of [model/crfV1.py]

    A shallow embedding of the linear-chain CRF used for map matching:
    the transition energy, the gold-path scorer, the sampled normalizer,
    the training entry point [forward] and the Viterbi decoder.

    Conventions of the embedding.
    - A float tensor is a nested list of real numbers ([R]); rounding,
      infinities and NaN are outside the model.
    - A tag is a natural number; an index tensor is a list of [nat].
    - A lookup by a gold tag raises [IndexError] outside the indexed
      dimension, as PyTorch does.  The dense operations of the normalizer
      and of the decoder read by loop counters, sampled tags and recorded
      backpointers, all in range when the tensors have the documented
      shapes and [num_tags >= 1]; they are written with total list
      operations, and the theorems carry those shapes as hypotheses.
    - [np.random.choice] reads NumPy's global generator: the generator is
      an explicit state threaded through the calls that sample. *)

From Stdlib Require Import String.
From Stdlib Require Import Reals Lra Lia List ZArith Bool Arith Permutation.
Import ListNotations.
Open Scope R_scope.

(** ** Python exceptions and the result of a call *)

Inductive exn : Type :=
| IndexError
| ValueError.

Inductive result (A : Type) : Type :=
| Ok (a : A)
| Raise (e : exn).

Arguments Ok {A} a.
Arguments Raise {A} e.

Definition bind {A B : Type} (r : result A) (k : A -> result B) : result B :=
  match r with
  | Ok a => k a
  | Raise e => Raise e
  end.

Declare Scope py_scope.
Delimit Scope py_scope with py.
Notation "x <- c ;; k" := (bind c (fun x => k))
  (at level 61, c at next level, right associativity) : py_scope.

Fixpoint mapM {A B : Type} (f : A -> result B) (l : list A) : result (list B) :=
  match l with
  | [] => Ok []
  | a :: l' =>
      (b <- f a ;; bs <- mapM f l' ;; Ok (b :: bs))%py
  end.

(** ** Tensors as nested lists *)

Abbreviation tensor1 := (list R) (only parsing).
Abbreviation tensor2 := (list (list R)) (only parsing).
Abbreviation tensor3 := (list (list (list R))) (only parsing).

(** [l[i]] for an index that comes from the data. *)
Definition index {A : Type} (l : list A) (i : nat) : result A :=
  match nth_error l i with
  | Some a => Ok a
  | None => Raise IndexError
  end.

Fixpoint zip_with {A B C : Type} (f : A -> B -> C) (l1 : list A) (l2 : list B)
  : list C :=
  match l1, l2 with
  | a :: l1', b :: l2' => f a b :: zip_with f l1' l2'
  | _, _ => []
  end.

Definition sum (l : list R) : R := fold_right Rplus 0 l.

Definition dot (u v : tensor1) : R := sum (zip_with Rmult u v).

(** Column [c] of a matrix, the number of columns, and [m.T]
    ([transpose(0, 1)] on a tensor of more dimensions). *)
Definition col {A : Type} (d : A) (c : nat) (m : list (list A)) : list A :=
  map (fun row => nth c row d) m.

Definition ncols {A : Type} (m : list (list A)) : nat := length (hd [] m).

Definition transpose {A : Type} (d : A) (m : list (list A)) : list (list A) :=
  map (fun c => col d c m) (seq 0 (ncols m)).

(** [x @ y] *)
Definition matmul (x y : tensor2) : tensor2 :=
  map (fun row => map (fun c => dot row (col 0 c y)) (seq 0 (ncols y))) x.

(** [F.relu] *)
Definition relu (x : R) : R := Rmax 0 x.

Definition float_of_bool (b : bool) : R := if b then 1 else 0.

(** [torch.logsumexp] along one dimension. *)
Definition logsumexp (l : tensor1) : R := ln (sum (map exp l)).

(** [math.log]: a domain error on a non-positive argument. *)
Definition math_log (x : R) : result R :=
  if Rle_dec x 0 then Raise ValueError else Ok (ln x).

(** [torch.max] along one dimension: the maximum and the index of its first
    occurrence.  PyTorch raises on an empty dimension. *)
Fixpoint max_dim0 (l : tensor1) : R * nat :=
  match l with
  | [] => (0, O)
  | x :: l' =>
      match l' with
      | [] => (x, O)
      | _ :: _ =>
          let (m, k) := max_dim0 l' in
          if Rle_dec m x then (x, O) else (m, S k)
      end
  end.

(** [score.unsqueeze(1) + trans + emission.unsqueeze(0)] for one batch
    element: entry [k][j] is [score[k] + trans[k][j] + emission[j]]. *)
Definition broadcast_add (score : tensor1) (trans : tensor2) (emission : tensor1)
  : tensor2 :=
  zip_with (fun s trans_k => zip_with (fun tr e => s + tr + e) trans_k emission)
           score trans.

(** [torch.where(mask_i.unsqueeze(1), a, b)] *)
Definition where_rows {A : Type} (mask_i : list bool) (a b : list A) : list A :=
  zip_with (fun (m : bool) (xy : A * A) => if m then fst xy else snd xy)
           mask_i (combine a b).

(** [row[neg_tag_sets]] *)
Definition take_tags (neg_tag_sets : list nat) (row : tensor1) : tensor1 :=
  map (fun tag => nth tag row 0) neg_tag_sets.

(** [buf[j] = x], for a row [j] of the buffer. *)
Fixpoint set_row {A : Type} (buf : list A) (j : nat) (x : A) : list A :=
  match buf, j with
  | [], _ => []
  | _ :: buf', O => x :: buf'
  | y :: buf', S j' => y :: set_row buf' j' x
  end.

(** [l[:e]] with Python's reading of a negative end. *)
Definition slice_to {A : Type} (l : list A) (e : Z) : list A :=
  if (e <? 0)%Z then firstn (Z.to_nat (Z.of_nat (length l) + e)) l
  else firstn (Z.to_nat e) l.

(** [for i in range: s = body(i, s)], stopping at the first exception. *)
Fixpoint for_each {S : Type} (body : nat -> S -> result S) (range : list nat)
    (s : S) : result S :=
  match range with
  | [] => Ok s
  | i :: range' => (s' <- body i s ;; for_each body range' s')%py
  end.

(** ** NumPy's global random generator

    [permutation n] is the generator's primitive: it returns a permutation of
    [0 .. n-1] and advances the state.  [np.random.choice(a, size,
    replace=False)] is NumPy's own wrapper around it. *)

Record Generator : Type := {
  rng : Type;
  permutation : nat -> rng -> list nat * rng
}.

Definition lawful (G : Generator) : Prop :=
  forall n s, Permutation (fst (permutation G n s)) (seq 0 n).

(** A computation that may read and advance the generator. *)
Definition M (G : Generator) (A : Type) : Type := rng G -> result A * rng G.

Definition retM {G : Generator} {A : Type} (r : result A) : M G A :=
  fun s => (r, s).

Definition bindM {G : Generator} {A B : Type} (c : M G A) (k : A -> M G B)
  : M G B :=
  fun s =>
    match c s with
    | (Ok a, s') => k a s'
    | (Raise e, s') => (Raise e, s')
    end.

Declare Scope rand_scope.
Delimit Scope rand_scope with rand.
Notation "x <- c ;; k" := (bindM c (fun x => k))
  (at level 61, c at next level, right associativity) : rand_scope.

Definition np_random_choice (G : Generator) (a size : nat) : M G (list nat) :=
  fun s =>
    if (a <? size)%nat then (Raise ValueError, s)
    else let (p, s') := permutation G a s in (Ok (firstn size p), s').

(** [rows r c m]: [m] has shape [(r, c)]. *)
Definition shape2 {A : Type} (r c : nat) (m : list (list A)) : Prop :=
  length m = r /\ Forall (fun row => length row = c) m.

Definition shape3 {A : Type} (a b c : nat) (t : list (list (list A))) : Prop :=
  length t = a /\ Forall (shape2 b c) t.

(** ** The CRF module *)

Module CRF.

(** The attributes set by [__init__]; [W] is the [nn.Linear(emb_dim, emb_dim)]
    layer, held as its weight matrix and bias. *)
Record t : Type := {
  num_tags : nat;
  batch_first : bool;
  device : string;
  beam_size : nat;
  neg_nums : nat;
  W_weight : tensor2;
  W_bias : tensor1
}.

(** [CRF(num_tags, emb_dim, beam_size, neg_nums, device, batch_first)].
    The layer's initial parameters, which PyTorch draws itself, are given. *)
Definition __init__ (num_tags emb_dim : nat) (weight : tensor2) (bias : tensor1)
    (beam_size neg_nums : nat) (device : string) (batch_first : bool)
  : result t :=
  Ok {| num_tags := num_tags;
        batch_first := batch_first;
        device := device;
        beam_size := beam_size;
        neg_nums := neg_nums;
        W_weight := weight;
        W_bias := bias |}.

(** [self.W(x)] on one row: [x @ weight.T + bias]. *)
Definition W (self : t) (x : tensor1) : tensor1 :=
  zip_with (fun row b => dot x row + b) (W_weight self) (W_bias self).

(** [A_list[tag1, tag2]] *)
Definition index2 (A_list : tensor2) (tag1 tag2 : nat) : result R :=
  (row <- index A_list tag1 ;; index row tag2)%py.

Fixpoint index2_batch (A_list : tensor2) (tag1 tag2 : list nat)
  : result tensor1 :=
  match tag1, tag2 with
  | a :: tag1', b :: tag2' =>
      (x <- index2 A_list a b ;;
       xs <- index2_batch A_list tag1' tag2' ;;
       Ok (x :: xs))%py
  | _, _ => Ok []
  end.

Definition transition (self : t) (tag1 tag2 : list nat)
    (full_road_emb A_list : tensor2) : result tensor1 :=
  (rows1 <- mapM (index full_road_emb) tag1 ;;
   let emb1 := map (W self) rows1 in
   emb2 <- mapM (index full_road_emb) tag2 ;;
   let r := map relu (zip_with dot emb1 emb2) in
   a <- index2_batch A_list tag1 tag2 ;;
   let energy := zip_with Rmult a r in
   Ok energy)%py.

Definition transitions (self : t) (full_road_emb A_list : tensor2) : tensor2 :=
  let attention := matmul (map (W self) full_road_emb) (transpose 0 full_road_emb) in
  let energy := zip_with (zip_with Rmult) A_list (map (map relu) attention) in
  energy.

(** [emissions[i, torch.arange(batch_size), tags_i]] *)
Definition gather (emissions_i : tensor2) (batch_size : nat) (tags_i : list nat)
  : result tensor1 :=
  mapM (fun bt : nat * nat =>
          (row <- index emissions_i (fst bt) ;; index row (snd bt))%py)
       (combine (seq 0 batch_size) tags_i).

(** The body of the loop of [_compute_score]. *)
Definition score_step (self : t) (emissions : tensor3) (tags : list (list nat))
    (full_road_emb A_list : tensor2) (mask : tensor2) (batch_size : nat)
    (i : nat) (score : tensor1) : result tensor1 :=
  (tags_prev <- index tags (i - 1) ;;
   tags_i <- index tags i ;;
   tr <- transition self tags_prev tags_i full_road_emb A_list ;;
   mask_i <- index mask i ;;
   let score := zip_with Rplus score (zip_with Rmult tr mask_i) in
   emissions_i <- index emissions i ;;
   em <- gather emissions_i batch_size tags_i ;;
   let score := zip_with Rplus score (zip_with Rmult em mask_i) in
   Ok score)%py.

Definition _compute_score (self : t) (emissions : tensor3)
    (tags : list (list nat)) (full_road_emb A_list : tensor2)
    (mask : list (list bool)) : result tensor1 :=
  let seq_length := length tags in
  let batch_size := ncols tags in
  let mask := map (map float_of_bool) mask in
  let score := repeat 0 batch_size in
  (emissions_0 <- index emissions 0 ;;
   tags_0 <- index tags 0 ;;
   em <- gather emissions_0 batch_size tags_0 ;;
   let score := zip_with Rplus score em in
   for_each (score_step self emissions tags full_road_emb A_list mask batch_size)
            (seq 1 (seq_length - 1)) score)%py.

(** The body of the loop of [_compute_normalizer]. *)
Definition normalizer_step (trans : tensor2) (neg_tag_sets : list nat)
    (emissions : tensor3) (mask : list (list bool))
    (score : tensor2) (i : nat) : tensor2 :=
  let emissions_i := map (take_tags neg_tag_sets) (nth i emissions []) in
  let next_score :=
    zip_with (fun score_b em_b =>
                let next_score_b := broadcast_add score_b trans em_b in
                map (fun j => logsumexp (col 0 j next_score_b))
                    (seq 0 (length neg_tag_sets)))
             score emissions_i in
  where_rows (nth i mask []) next_score score.

Definition _compute_normalizer (G : Generator) (self : t) (emissions : tensor3)
    (full_road_emb A_list : tensor2) (mask : list (list bool))
    (numerator : tensor1) : M G tensor1 :=
  let seq_length := length emissions in
  (neg_tag_sets <- np_random_choice G (num_tags self) (neg_nums self) ;;
   let score := map (take_tags neg_tag_sets) (nth 0 emissions []) in
   let trans :=
     map (fun tag => nth tag (transitions self full_road_emb A_list) [])
         neg_tag_sets in
   let trans := map (take_tags neg_tag_sets) trans in
   let score :=
     fold_left (normalizer_step trans neg_tag_sets emissions mask)
               (seq 1 (seq_length - 1)) score in
   let score := zip_with (fun row g => row ++ [g]) score numerator in
   retM (c <- math_log (INR (num_tags self) / INR (neg_nums self + 1)) ;;
         Ok (map (fun row => logsumexp row + c) score))%py)%rand.

Definition forward (G : Generator) (self : t) (emissions : tensor3)
    (tags : list (list nat)) (full_road_emb A_list : tensor2)
    (mask : list (list bool)) : M G R :=
  let emissions' := if batch_first self then transpose [] emissions else emissions in
  let tags' := if batch_first self then transpose O tags else tags in
  let mask' := if batch_first self then transpose false mask else mask in
  (numerator <- retM (_compute_score self emissions' tags' full_road_emb A_list mask') ;;
   denominator <- _compute_normalizer G self emissions' full_road_emb A_list mask'
                                      numerator ;;
   let llh := zip_with Rminus numerator denominator in
   retM (Ok (sum llh / sum (map float_of_bool (concat mask')))))%rand.

(** The state of the forward loop of [_viterbi_decode]: the running score, the
    two buffers written in place, and the recorded backpointers. *)
Record viterbi_state : Type := {
  score : tensor2;
  next_score : tensor2;
  indices : list (list nat);
  history : list (list (list nat))
}.

(** [torch.max(score_j.unsqueeze(1) + trans + emission.unsqueeze(0), dim=0)] *)
Definition max_over_previous (self : t) (trans : tensor2)
    (score_j emission : tensor1) : tensor1 * list nat :=
  let m := broadcast_add score_j trans emission in
  let r := map (fun c => max_dim0 (col 0 c m)) (seq 0 (num_tags self)) in
  (map fst r, map snd r).

(** The body of the outer loop of [_viterbi_decode]. *)
Definition viterbi_step (self : t) (trans : tensor2) (emissions : tensor3)
    (mask : list (list bool)) (batch_size : nat)
    (st : viterbi_state) (i : nat) : viterbi_state :=
  let bufs :=
    fold_left
      (fun (bufs : tensor2 * list (list nat)) j =>
         let (cur_score, cur_indices) :=
           max_over_previous self trans (nth j (score st) [])
                             (nth j (nth i emissions []) []) in
         (set_row (fst bufs) j cur_score, set_row (snd bufs) j cur_indices))
      (seq 0 batch_size) (next_score st, indices st) in
  {| score := where_rows (nth i mask []) (fst bufs) (score st);
     next_score := fst bufs;
     indices := snd bufs;
     history := history st ++ [snd bufs] |}.

(** Lines 157-198: the forward recursion. *)
Definition viterbi_forward (self : t) (emissions : tensor3)
    (full_road_emb A_list : tensor2) (mask : list (list bool)) : viterbi_state :=
  let seq_length := length mask in
  let batch_size := ncols mask in
  let trans := transitions self full_road_emb A_list in
  fold_left (viterbi_step self trans emissions mask batch_size)
            (seq 1 (seq_length - 1))
            {| score := nth 0 emissions [];
               next_score := repeat (repeat 0 (num_tags self)) batch_size;
               indices := repeat (repeat O (num_tags self)) batch_size;
               history := [] |}.

(** [mask.long().sum(dim=0) - 1] *)
Definition seq_ends (mask : list (list bool)) (batch_size : nat) : list Z :=
  map (fun b =>
         (fold_right Z.add 0 (map (fun x : bool => if x then 1 else 0)
                                  (col false b mask)) - 1)%Z)
      (seq 0 batch_size).

(** Lines 204-219 for one batch element. *)
Definition trace_back (st : viterbi_state) (seq_length : nat) (seq_end : Z)
    (idx : nat) : list Z :=
  let best_last_tag := snd (max_dim0 (nth idx (score st) [])) in
  let best_tags := [best_last_tag] in
  let best_tags :=
    fold_left (fun best_tags hist =>
                 best_tags ++ [nth (last best_tags O) (nth idx hist []) O])
              (rev (slice_to (history st) seq_end)) best_tags in
  let best_tags := rev best_tags in
  let tags_len := length best_tags in
  map Z.of_nat best_tags ++ repeat (-1)%Z (seq_length - tags_len).

Definition _viterbi_decode (self : t) (emissions : tensor3)
    (full_road_emb A_list : tensor2) (mask : list (list bool))
  : list (list Z) :=
  let seq_length := length mask in
  let batch_size := ncols mask in
  let st := viterbi_forward self emissions full_road_emb A_list mask in
  let seq_ends := seq_ends mask batch_size in
  map (fun idx => trace_back st seq_length (nth idx seq_ends 0%Z) idx)
      (seq 0 batch_size).

Definition decode (self : t) (emissions : tensor3)
    (full_road_emb A_list : tensor2) (mask : list (list bool))
  : list (list Z) :=
  let emissions' := if batch_first self then transpose [] emissions else emissions in
  let mask' := if batch_first self then transpose false mask else mask in
  _viterbi_decode self emissions' full_road_emb A_list mask'.

End CRF.

(** ** Lists: lengths and lookups *)

Section ListFacts.

Context {A B C : Type}.

Lemma zip_with_length (f : A -> B -> C) (l1 : list A) (l2 : list B) :
  length (zip_with f l1 l2) = Nat.min (length l1) (length l2).
Proof.
  revert l2; induction l1 as [|a l1 IH]; intros [|b l2]; simpl; auto.
Qed.

Lemma nth_zip_with (f : A -> B -> C) (l1 : list A) (l2 : list B)
    (i : nat) (d : C) (d1 : A) (d2 : B) :
  (i < length l1)%nat -> (i < length l2)%nat ->
  nth i (zip_with f l1 l2) d = f (nth i l1 d1) (nth i l2 d2).
Proof.
  revert l2 i; induction l1 as [|a l1 IH]; intros [|b l2] [|i]; simpl;
    intros H1 H2; try lia; auto.
  apply IH; lia.
Qed.

Lemma index_ok (l : list A) (i : nat) (d : A) :
  (i < length l)%nat -> index l i = Ok (nth i l d).
Proof.
  intros H. unfold index.
  rewrite (nth_error_nth' l d H). reflexivity.
Qed.

Lemma mapM_ok (f : A -> result B) (g : A -> B) (l : list A) :
  (forall x, In x l -> f x = Ok (g x)) -> mapM f l = Ok (map g l).
Proof.
  induction l as [|a l IH]; intros H; simpl; auto.
  rewrite (H a (or_introl eq_refl)). simpl.
  rewrite IH by (intros x Hx; apply H; right; exact Hx).
  reflexivity.
Qed.

Lemma nth_map (f : A -> B) (l : list A) (i : nat) (d : B) (d' : A) :
  (i < length l)%nat -> nth i (map f l) d = f (nth i l d').
Proof.
  revert i; induction l as [|a l IH]; intros [|i]; simpl; intros H; try lia; auto.
  apply IH; lia.
Qed.

Lemma nth_map_seq (f : nat -> A) (n i : nat) (d : A) :
  (i < n)%nat -> nth i (map f (seq 0 n)) d = f i.
Proof.
  intros H.
  rewrite (nth_indep _ d (f O)) by (rewrite length_map, length_seq; exact H).
  rewrite (map_nth f (seq 0 n) O i), seq_nth by exact H.
  reflexivity.
Qed.

End ListFacts.

Lemma shape2_row {A : Type} (r c : nat) (m : list (list A)) (i : nat) :
  shape2 r c m -> (i < r)%nat -> length (nth i m []) = c.
Proof.
  intros [Hr Hc] Hi. rewrite Forall_forall in Hc.
  apply Hc, nth_In. lia.
Qed.

Lemma shape3_slice {A : Type} (a b c : nat) (t : list (list (list A))) (i : nat) :
  shape3 a b c t -> (i < a)%nat -> shape2 b c (nth i t []).
Proof.
  intros [Ha Hb] Hi. rewrite Forall_forall in Hb.
  apply Hb, nth_In. lia.
Qed.

(** Column [c] of [m.T] is row [c] of [m]. *)
Lemma col_transpose (r k : nat) (m : tensor2) (c : nat) :
  shape2 r k m -> (c < r)%nat -> col 0 c (transpose 0 m) = nth c m [].
Proof.
  intros Hm Hc.
  assert (Hk : ncols m = k).
  { destruct Hm as [Hr Hf]. unfold ncols. destruct m as [|row m]; simpl in *.
    - lia.
    - inversion Hf; assumption. }
  unfold transpose, col. rewrite map_map, Hk.
  pose proof (shape2_row r k m c Hm Hc) as Hlen.
  apply nth_ext with (d := 0) (d' := 0).
  - rewrite length_map, length_seq. symmetry. exact Hlen.
  - intros i Hi. rewrite length_map, length_seq in Hi.
    rewrite nth_map_seq by exact Hi.
    rewrite (nth_map (fun row => nth i row 0) m c 0 []) by (destruct Hm; lia).
    reflexivity.
Qed.

Lemma zip_with_nil_r {A B C : Type} (f : A -> B -> C) (l : list A) :
  zip_with f l [] = [].
Proof. destruct l; reflexivity. Qed.

Lemma ncols_shape2 {A : Type} (r c : nat) (m : list (list A)) :
  shape2 r c m -> (0 < r)%nat -> ncols m = c.
Proof.
  intros [Hr Hf] Hpos. unfold ncols. destruct m as [|row m]; simpl in *.
  - lia.
  - inversion Hf; assumption.
Qed.

Lemma relu_nonneg (x : R) : 0 <= relu x.
Proof. unfold relu. apply Rmax_l. Qed.

Lemma relu_0 : relu 0 = 0.
Proof. unfold relu. apply Rmax_left. lra. Qed.

(** ** The transition energy *)

Section Transition.

Variable self : CRF.t.
Variables full_road_emb A_list : tensor2.
Variables n emb_dim : nat.
Hypothesis emb_shape : shape2 n emb_dim full_road_emb.
Hypothesis adj_shape : shape2 n n A_list.

(** The energy of the pair [(a, b)] as the pairwise form writes it. *)
Definition energy (a b : nat) : R :=
  nth b (nth a A_list []) 0
  * relu (dot (CRF.W self (nth a full_road_emb [])) (nth b full_road_emb [])).

Lemma ncols_transpose_emb :
  (0 < n)%nat -> (0 < emb_dim)%nat -> ncols (transpose 0 full_road_emb) = n.
Proof.
  intros Hn Hd. unfold transpose.
  rewrite (ncols_shape2 n emb_dim full_road_emb) by assumption.
  destruct emb_dim as [|k]; [lia|].
  unfold ncols. simpl. unfold col. rewrite length_map.
  destruct emb_shape; assumption.
Qed.

Lemma transitions_entry (a b : nat) :
  (a < n)%nat -> (b < n)%nat ->
  nth b (nth a (CRF.transitions self full_road_emb A_list) []) 0 = energy a b.
Proof.
  intros Ha Hb. unfold CRF.transitions, energy.
  assert (HlenA : length A_list = n) by (destruct adj_shape; assumption).
  assert (HlenE : length full_road_emb = n) by (destruct emb_shape; assumption).
  rewrite (nth_zip_with _ _ _ _ _ [] []);
    [| lia | unfold matmul; rewrite !length_map; lia].
  rewrite (nth_map (map relu) _ a [] []) by (unfold matmul; rewrite !length_map; lia).
  unfold matmul.
  rewrite (nth_map _ (map (CRF.W self) full_road_emb) a [] [])
    by (rewrite length_map; lia).
  rewrite (nth_map (CRF.W self) full_road_emb a [] []) by lia.
  destruct (Nat.eq_dec emb_dim 0) as [Hz|Hnz].
  - (* no embedding coordinate: both sides are zero *)
    assert (Hc : ncols (transpose 0 full_road_emb) = O).
    { unfold transpose.
      rewrite (ncols_shape2 n emb_dim full_road_emb) by (assumption || lia).
      rewrite Hz. reflexivity. }
    rewrite Hc. simpl. rewrite zip_with_nil_r.
    assert (Hrow : nth b full_road_emb [] = []).
    { apply length_zero_iff_nil. rewrite (shape2_row n emb_dim); assumption. }
    rewrite Hrow. unfold dot. rewrite zip_with_nil_r. simpl.
    rewrite relu_0. destruct b; lra.
  - rewrite ncols_transpose_emb by lia.
    rewrite (nth_zip_with _ _ _ _ _ 0 0);
      [| rewrite (shape2_row n n); (assumption || lia)
       | rewrite !length_map, length_seq; lia].
    rewrite (nth_map relu _ b 0 0) by (rewrite length_map, length_seq; lia).
    rewrite nth_map_seq by lia.
    rewrite (col_transpose n emb_dim) by assumption.
    reflexivity.
Qed.

Lemma index2_batch_ok (tag1 tag2 : list nat) :
  Forall (fun a => (a < n)%nat) tag1 -> Forall (fun b => (b < n)%nat) tag2 ->
  CRF.index2_batch A_list tag1 tag2
  = Ok (zip_with (fun a b => nth b (nth a A_list []) 0) tag1 tag2).
Proof.
  intros H1. revert tag2. induction H1 as [|a tag1 Ha H1 IH]; intros tag2 H2.
  - reflexivity.
  - destruct H2 as [|b tag2 Hb H2]; [reflexivity|].
    simpl. unfold CRF.index2.
    rewrite (index_ok A_list a []) by (destruct adj_shape; lia). simpl.
    rewrite (index_ok (nth a A_list []) b 0)
      by (rewrite (shape2_row n n); assumption).
    simpl. rewrite IH by assumption. reflexivity.
Qed.

Lemma index_emb_ok (tags : list nat) :
  Forall (fun a => (a < n)%nat) tags ->
  mapM (index full_road_emb) tags = Ok (map (fun a => nth a full_road_emb []) tags).
Proof.
  intros H. apply mapM_ok. intros a Ha. rewrite Forall_forall in H.
  apply index_ok. destruct emb_shape. specialize (H a Ha). lia.
Qed.

(** The pairwise form on a batch of in-range pairs. *)
Lemma transition_ok (tag1 tag2 : list nat) :
  Forall (fun a => (a < n)%nat) tag1 -> Forall (fun b => (b < n)%nat) tag2 ->
  CRF.transition self tag1 tag2 full_road_emb A_list
  = Ok (zip_with energy tag1 tag2).
Proof.
  intros H1 H2. unfold CRF.transition.
  rewrite (index_emb_ok tag1 H1). simpl.
  rewrite (index_emb_ok tag2 H2). simpl.
  rewrite (index2_batch_ok tag1 tag2 H1 H2). simpl.
  f_equal. clear H1 H2. revert tag2.
  induction tag1 as [|a tag1 IH]; intros [|b tag2]; simpl; auto.
  rewrite IH. reflexivity.
Qed.

End Transition.

(** C5. For every batch of in-range tag pairs, the pairwise form [transition]
    returns, at each position, entry [[a, b]] of the matrix computed by the
    batched form [transitions] from the same embedding table, projection
    and adjacency matrix. *)
Theorem transition_agrees_with_transitions
    (self : CRF.t) (full_road_emb A_list : tensor2) (emb_dim : nat)
    (tag1 tag2 : list nat) :
  shape2 (CRF.num_tags self) emb_dim full_road_emb ->
  shape2 (CRF.num_tags self) (CRF.num_tags self) A_list ->
  length tag1 = length tag2 ->
  Forall (fun a => (a < CRF.num_tags self)%nat) tag1 ->
  Forall (fun b => (b < CRF.num_tags self)%nat) tag2 ->
  exists energy : tensor1,
    CRF.transition self tag1 tag2 full_road_emb A_list = Ok energy
    /\ length energy = length tag1
    /\ forall k, (k < length tag1)%nat ->
         nth k energy 0
         = nth (nth k tag2 O)
               (nth (nth k tag1 O) (CRF.transitions self full_road_emb A_list) [])
               0.
Proof.
  intros HE HA Hlen H1 H2.
  exists (zip_with (energy self full_road_emb A_list) tag1 tag2).
  split; [| split].
  - apply (transition_ok self full_road_emb A_list (CRF.num_tags self) emb_dim); assumption.
  - rewrite zip_with_length. lia.
  - intros k Hk.
    rewrite (nth_zip_with _ _ _ _ _ O O) by lia.
    symmetry. apply (transitions_entry self full_road_emb A_list (CRF.num_tags self) emb_dim HE HA).
    + rewrite Forall_forall in H1. apply H1, nth_In. exact Hk.
    + rewrite Forall_forall in H2. apply H2, nth_In. lia.
Qed.

(** A two-tag module with a one-dimensional embedding, used to run the
    statements on concrete data. *)
Definition crf2 : CRF.t :=
  {| CRF.num_tags := 2; CRF.batch_first := false; CRF.device := "cpu";
     CRF.beam_size := 1; CRF.neg_nums := 1;
     CRF.W_weight := [[1]]; CRF.W_bias := [0] |}.

Definition emb2 : tensor2 := [[1]; [2]].
Definition eye2 : tensor2 := [[1; 0]; [0; 1]].

Lemma emb2_shape : shape2 2 1 emb2.
Proof. split; [reflexivity | repeat constructor]. Qed.

Lemma eye2_shape : shape2 2 2 eye2.
Proof. split; [reflexivity | repeat constructor]. Qed.

Lemma transition_agrees_with_transitions_witness :
  exists energy : tensor1,
    CRF.transition crf2 [O] [1%nat] emb2 eye2 = Ok energy
    /\ length energy = 1%nat
    /\ forall k, (k < 1)%nat ->
         nth k energy 0
         = nth (nth k [1%nat] O)
               (nth (nth k [O] O) (CRF.transitions crf2 emb2 eye2) []) 0.
Proof.
  apply (transition_agrees_with_transitions crf2 emb2 eye2 1 [O] [1%nat]).
  - exact emb2_shape.
  - exact eye2_shape.
  - reflexivity.
  - repeat constructor.
  - repeat constructor.
Defined.

(** C6. With an adjacency matrix of zeros and ones, the transition energy of
    every in-range pair is non-negative, and it is zero as soon as the
    adjacency entry of the pair is zero, whatever the embeddings; the
    pairwise form returns the same energy. *)
Theorem transition_energy_rectified
    (self : CRF.t) (full_road_emb A_list : tensor2) (emb_dim : nat) (a b : nat) :
  shape2 (CRF.num_tags self) emb_dim full_road_emb ->
  shape2 (CRF.num_tags self) (CRF.num_tags self) A_list ->
  (forall i j, (i < CRF.num_tags self)%nat -> (j < CRF.num_tags self)%nat ->
     nth j (nth i A_list []) 0 = 0 \/ nth j (nth i A_list []) 0 = 1) ->
  (a < CRF.num_tags self)%nat -> (b < CRF.num_tags self)%nat ->
  let e := nth b (nth a (CRF.transitions self full_road_emb A_list) []) 0 in
  0 <= e
  /\ (nth b (nth a A_list []) 0 = 0 -> e = 0)
  /\ CRF.transition self [a] [b] full_road_emb A_list = Ok [e].
Proof.
  intros HE HA H01 Ha Hb e. subst e.
  rewrite (transitions_entry self full_road_emb A_list (CRF.num_tags self) emb_dim HE HA a b Ha Hb).
  unfold energy.
  pose proof (relu_nonneg
    (dot (CRF.W self (nth a full_road_emb [])) (nth b full_road_emb []))) as Hr.
  split; [| split].
  - destruct (H01 a b Ha Hb) as [H0 | H1].
    + rewrite H0. lra.
    + rewrite H1. lra.
  - intros H0. rewrite H0. lra.
  - rewrite (transition_ok self full_road_emb A_list (CRF.num_tags self) emb_dim HE HA)
      by (repeat constructor; assumption).
    reflexivity.
Qed.

Lemma eye2_entries (i j : nat) :
  (i < 2)%nat -> (j < 2)%nat ->
  nth j (nth i eye2 []) 0 = 0 \/ nth j (nth i eye2 []) 0 = 1.
Proof.
  intros Hi Hj.
  destruct i as [|[|i]]; destruct j as [|[|j]]; simpl; try lia; auto.
Qed.

Lemma transition_energy_rectified_witness :
  let e := nth 1 (nth 0 (CRF.transitions crf2 emb2 eye2) []) 0 in
  0 <= e
  /\ (nth 1 (nth 0 eye2 []) 0 = 0 -> e = 0)
  /\ CRF.transition crf2 [O] [1%nat] emb2 eye2 = Ok [e].
Proof.
  apply (transition_energy_rectified crf2 emb2 eye2 1 0 1).
  - exact emb2_shape.
  - exact eye2_shape.
  - exact eye2_entries.
  - simpl; lia.
  - simpl; lia.
Defined.

(** ** The gold-path score *)

Lemma combine_seq {A : Type} (l : list A) (d : A) (s : nat) :
  combine (seq s (length l)) l
  = map (fun b => (b, nth (b - s) l d)) (seq s (length l)).
Proof.
  revert s; induction l as [|a l IH]; intros s; simpl; auto.
  rewrite Nat.sub_diag. f_equal. rewrite IH.
  apply map_ext_in. intros b Hb. apply in_seq in Hb.
  replace (b - s)%nat with (S (b - S s)) by lia. reflexivity.
Qed.

Section Scorer.

Variable self : CRF.t.
Variables full_road_emb A_list : tensor2.
Variable emissions : tensor3.
Variable tags : list (list nat).
Variable mask : list (list bool).
Variables seq_length batch_size n emb_dim : nat.

Definition tag_at (i b : nat) : nat := nth b (nth i tags []) O.
Definition mask_at (i b : nat) : bool := nth b (nth i mask []) false.

(** The emission of the gold tag at step [i] of batch element [b]. *)
Definition gold_emission (i b : nat) : R :=
  nth (tag_at i b) (nth b (nth i emissions []) []) 0.

(** What step [i] adds to the score of batch element [b]. *)
Definition gold_step (b : nat) (s : R) (i : nat) : R :=
  s + energy self full_road_emb A_list (tag_at (i - 1) b) (tag_at i b)
      * float_of_bool (mask_at i b)
    + gold_emission i b * float_of_bool (mask_at i b).

(** The score of batch element [b], summed step by step. *)
Definition gold_score (b : nat) : R :=
  fold_left (gold_step b) (seq 1 (seq_length - 1)) (0 + gold_emission 0 b).

Hypothesis emb_shape : shape2 n emb_dim full_road_emb.
Hypothesis adj_shape : shape2 n n A_list.
Hypothesis emissions_shape : shape3 seq_length batch_size n emissions.
Hypothesis tags_shape : shape2 seq_length batch_size tags.
Hypothesis mask_shape : shape2 seq_length batch_size mask.
Hypothesis tags_range : Forall (Forall (fun a => (a < n)%nat)) tags.
Hypothesis seq_length_pos : (1 <= seq_length)%nat.

Lemma tags_row_range (i : nat) :
  (i < seq_length)%nat -> Forall (fun a => (a < n)%nat) (nth i tags []).
Proof.
  intros Hi. rewrite Forall_forall in tags_range.
  apply tags_range, nth_In. destruct tags_shape; lia.
Qed.

Lemma tag_at_range (i b : nat) :
  (i < seq_length)%nat -> (b < batch_size)%nat -> (tag_at i b < n)%nat.
Proof.
  intros Hi Hb. pose proof (tags_row_range i Hi) as H.
  rewrite Forall_forall in H. apply H, nth_In.
  rewrite (shape2_row seq_length batch_size); assumption.
Qed.

Lemma gather_ok (i : nat) :
  (i < seq_length)%nat ->
  CRF.gather (nth i emissions []) batch_size (nth i tags [])
  = Ok (map (gold_emission i) (seq 0 batch_size)).
Proof.
  intros Hi. unfold CRF.gather.
  pose proof (shape2_row seq_length batch_size tags i tags_shape Hi) as Hlen.
  pose proof (shape3_slice seq_length batch_size n emissions i emissions_shape Hi)
    as Hem.
  rewrite <- Hlen at 1. rewrite (combine_seq _ O), Hlen.
  rewrite (mapM_ok _ (fun bt => nth (snd bt) (nth (fst bt) (nth i emissions []) []) 0)).
  - rewrite map_map. f_equal. apply map_ext_in. intros b Hb. simpl.
    rewrite Nat.sub_0_r. reflexivity.
  - intros [b t] Hin. apply in_map_iff in Hin. destruct Hin as [b' [Heq Hb']].
    inversion Heq; subst b' t. apply in_seq in Hb'. simpl.
    rewrite (index_ok _ b []) by (destruct Hem; lia). simpl.
    apply index_ok. rewrite (shape2_row batch_size n) by (assumption || lia).
    rewrite Nat.sub_0_r. apply tag_at_range; lia.
Qed.

(** A vector of one entry per batch element, read entry by entry. *)
Definition per_batch (v : tensor1) (f : nat -> R) : Prop :=
  length v = batch_size /\ forall b, (b < batch_size)%nat -> nth b v 0 = f b.

Lemma per_batch_map (f : nat -> R) : per_batch (map f (seq 0 batch_size)) f.
Proof.
  split.
  - rewrite length_map, length_seq. reflexivity.
  - intros b Hb. apply nth_map_seq. exact Hb.
Qed.

Lemma per_batch_zip_with (op : R -> R -> R) (u v : tensor1) (f g : nat -> R) :
  per_batch u f -> per_batch v g ->
  per_batch (zip_with op u v) (fun b => op (f b) (g b)).
Proof.
  intros [Hu Hf] [Hv Hg]. split.
  - rewrite zip_with_length. lia.
  - intros b Hb. rewrite (nth_zip_with _ _ _ _ _ 0 0) by lia.
    rewrite Hf, Hg by exact Hb. reflexivity.
Qed.

Lemma mask_row_float (i : nat) :
  (i < seq_length)%nat ->
  per_batch (nth i (map (map float_of_bool) mask) [])
            (fun b => float_of_bool (mask_at i b)).
Proof.
  intros Hi.
  rewrite (nth_map (map float_of_bool) mask i [] []) by (destruct mask_shape; lia).
  pose proof (shape2_row seq_length batch_size mask i mask_shape Hi) as Hlen.
  split.
  - rewrite length_map. exact Hlen.
  - intros b Hb. unfold mask_at.
    apply (nth_map float_of_bool). lia.
Qed.

Lemma transition_row (i : nat) :
  (1 <= i < seq_length)%nat ->
  exists tr,
    CRF.transition self (nth (i - 1) tags []) (nth i tags []) full_road_emb A_list
    = Ok tr
    /\ per_batch tr (fun b => energy self full_road_emb A_list
                                    (tag_at (i - 1) b) (tag_at i b)).
Proof.
  intros Hi.
  rewrite (transition_ok self full_road_emb A_list n emb_dim emb_shape adj_shape)
    by (apply tags_row_range; lia).
  eexists; split; [reflexivity|].
  assert (H1 : length (nth (i - 1) tags []) = batch_size)
    by (apply (shape2_row seq_length); (assumption || lia)).
  assert (H2 : length (nth i tags []) = batch_size)
    by (apply (shape2_row seq_length); (assumption || lia)).
  split.
  - rewrite zip_with_length. lia.
  - intros b Hb. apply nth_zip_with; lia.
Qed.

Lemma score_step_ok (i : nat) (score : tensor1) (f : nat -> R) :
  (1 <= i < seq_length)%nat -> per_batch score f ->
  exists score',
    CRF.score_step self emissions tags full_road_emb A_list
                   (map (map float_of_bool) mask) batch_size i score = Ok score'
    /\ per_batch score' (fun b => gold_step b (f b) i).
Proof.
  intros Hi Hscore. unfold CRF.score_step.
  rewrite (index_ok tags (i - 1) []) by (destruct tags_shape; lia). simpl.
  rewrite (index_ok tags i []) by (destruct tags_shape; lia). simpl.
  destruct (transition_row i Hi) as [tr [Htr Htrb]]. rewrite Htr. simpl.
  rewrite (index_ok (map (map float_of_bool) mask) i [])
    by (rewrite length_map; destruct mask_shape; lia).
  simpl.
  rewrite (index_ok emissions i []) by (destruct emissions_shape; lia). simpl.
  rewrite gather_ok by lia. simpl.
  eexists; split; [reflexivity|].
  assert (Hm := mask_row_float i (proj2 Hi)).
  apply (per_batch_zip_with Rplus).
  - apply (per_batch_zip_with Rplus); [exact Hscore|].
    apply (per_batch_zip_with Rmult); [exact Htrb | exact Hm].
  - apply (per_batch_zip_with Rmult); [apply per_batch_map | exact Hm].
Qed.

Lemma score_loop_ok (range : list nat) (score : tensor1) (f : nat -> R) :
  (forall i, In i range -> (1 <= i < seq_length)%nat) -> per_batch score f ->
  exists score',
    for_each (CRF.score_step self emissions tags full_road_emb A_list
                (map (map float_of_bool) mask) batch_size) range score = Ok score'
    /\ per_batch score' (fun b => fold_left (gold_step b) range (f b)).
Proof.
  revert score f; induction range as [|i range IH]; intros score f Hr Hscore; simpl.
  - exists score. split; [reflexivity | exact Hscore].
  - destruct (score_step_ok i score f (Hr i (or_introl eq_refl)) Hscore)
      as [score1 [Heq H1]].
    rewrite Heq. simpl.
    apply (IH score1 (fun b => gold_step b (f b) i)); [| exact H1].
    intros j Hj. apply Hr. right; exact Hj.
Qed.

(** [_compute_score] returns, for every batch element, its step-by-step sum. *)
Lemma compute_score_ok :
  exists score,
    CRF._compute_score self emissions tags full_road_emb A_list mask = Ok score
    /\ per_batch score gold_score.
Proof.
  unfold CRF._compute_score.
  assert (Hnc : ncols tags = batch_size)
    by (apply (ncols_shape2 seq_length); (assumption || lia)).
  rewrite Hnc, (proj1 tags_shape).
  rewrite (index_ok emissions 0 []) by (destruct emissions_shape; lia). simpl.
  rewrite (index_ok tags 0 []) by (destruct tags_shape; lia). simpl.
  rewrite gather_ok by lia. simpl.
  apply score_loop_ok.
  - intros i Hi. apply in_seq in Hi. lia.
  - apply (per_batch_zip_with Rplus _ _ (fun _ => 0) (gold_emission 0)).
    + split; [apply repeat_length|]. intros b Hb. apply nth_repeat_lt. exact Hb.
    + apply per_batch_map.
Qed.

End Scorer.

(** ** The sampled normalizer *)

Lemma sum_exp_nonneg (l : tensor1) : 0 <= sum (map exp l).
Proof.
  unfold sum. induction l as [|x l IH]; simpl.
  - lra.
  - pose proof (exp_pos x). lra.
Qed.

Lemma sum_app (l1 l2 : tensor1) : sum (l1 ++ l2) = sum l1 + sum l2.
Proof.
  unfold sum. induction l1 as [|x l1 IH]; simpl.
  - lra.
  - rewrite IH. lra.
Qed.

(** A term appended before the log-sum-exp is a lower bound of it. *)
Lemma logsumexp_ge_last (l : tensor1) (g : R) : g <= logsumexp (l ++ [g]).
Proof.
  unfold logsumexp.
  assert (Hs : sum (map exp [g]) = exp g) by (unfold sum; simpl; lra).
  rewrite map_app, sum_app, Hs.
  pose proof (sum_exp_nonneg l) as Hl. pose proof (exp_pos g) as Hg.
  rewrite <- (ln_exp g) at 1.
  destruct Hl as [Hpos | Hz].
  - left. apply ln_increasing; lra.
  - rewrite <- Hz, Rplus_0_l. lra.
Qed.

Lemma math_log_pos (x : R) : 0 < x -> math_log x = Ok (ln x).
Proof.
  intros H. unfold math_log. destruct (Rle_dec x 0); [lra | reflexivity].
Qed.

(** The ratio under the logarithm of the bias correction. *)
Definition sample_ratio (self : CRF.t) : R :=
  INR (CRF.num_tags self) / INR (CRF.neg_nums self + 1).

Lemma sample_ratio_pos (self : CRF.t) :
  (1 <= CRF.num_tags self)%nat -> 0 < sample_ratio self.
Proof.
  intros H. unfold sample_ratio. apply Rdiv_lt_0_compat.
  - apply lt_0_INR. lia.
  - apply lt_0_INR. lia.
Qed.

Lemma sample_ratio_ge_1 (self : CRF.t) :
  (CRF.neg_nums self < CRF.num_tags self)%nat -> 1 <= sample_ratio self.
Proof.
  intros H. unfold sample_ratio.
  assert (Hk : 0 < INR (CRF.neg_nums self + 1)) by (apply lt_0_INR; lia).
  assert (Hle : INR (CRF.neg_nums self + 1) <= INR (CRF.num_tags self))
    by (apply le_INR; lia).
  apply (Rmult_le_reg_r (INR (CRF.neg_nums self + 1))); [exact Hk|].
  unfold Rdiv. rewrite Rmult_assoc, Rinv_l by lra. lra.
Qed.

Lemma bias_correction_nonneg (self : CRF.t) :
  (CRF.neg_nums self < CRF.num_tags self)%nat -> 0 <= ln (sample_ratio self).
Proof.
  intros H. pose proof (sample_ratio_ge_1 self H) as H1.
  rewrite <- ln_1. destruct H1 as [Hlt | Heq].
  - left. apply ln_increasing; lra.
  - rewrite <- Heq. lra.
Qed.

Section Normalizer.

Variable G : Generator.
Variable self : CRF.t.
Variables full_road_emb A_list : tensor2.
Variable emissions : tensor3.
Variable mask : list (list bool).

(** The transition matrix restricted to the sampled tags. *)
Definition sampled_trans (neg_tag_sets : list nat) : tensor2 :=
  map (take_tags neg_tag_sets)
      (map (fun tag => nth tag (CRF.transitions self full_road_emb A_list) [])
           neg_tag_sets).

(** The per-tag scores after the forward recursion over the sampled tags. *)
Definition sampled_scores (neg_tag_sets : list nat) : tensor2 :=
  fold_left (CRF.normalizer_step (sampled_trans neg_tag_sets) neg_tag_sets
                                 emissions mask)
            (seq 1 (length emissions - 1))
            (map (take_tags neg_tag_sets) (nth 0 emissions [])).

(** The tag set drawn from generator state [s]. *)
Definition drawn (s : rng G) : list nat :=
  firstn (CRF.neg_nums self) (fst (permutation G (CRF.num_tags self) s)).

(** The value of the normalizer once the tag set [neg_tag_sets] is drawn. *)
Definition normalizer_of (neg_tag_sets : list nat) (numerator : tensor1) : tensor1 :=
  map (fun row => logsumexp row + ln (sample_ratio self))
      (zip_with (fun row g => row ++ [g]) (sampled_scores neg_tag_sets) numerator).

Lemma compute_normalizer_run (numerator : tensor1) (s : rng G) :
  (CRF.neg_nums self <= CRF.num_tags self)%nat ->
  (1 <= CRF.num_tags self)%nat ->
  CRF._compute_normalizer G self emissions full_road_emb A_list mask numerator s
  = (Ok (normalizer_of (drawn s) numerator),
     snd (permutation G (CRF.num_tags self) s)).
Proof.
  intros Hk Hn. unfold CRF._compute_normalizer, bindM, np_random_choice, drawn.
  destruct (Nat.ltb_spec (CRF.num_tags self) (CRF.neg_nums self)) as [Hlt | _];
    [lia|].
  destruct (permutation G (CRF.num_tags self) s) as [p s'] eqn:Hp. simpl.
  unfold retM. fold (sample_ratio self).
  rewrite (math_log_pos _ (sample_ratio_pos self Hn)). simpl.
  reflexivity.
Qed.

Lemma compute_normalizer_too_large (numerator : tensor1) (s : rng G) :
  (CRF.num_tags self < CRF.neg_nums self)%nat ->
  CRF._compute_normalizer G self emissions full_road_emb A_list mask numerator s
  = (Raise ValueError, s).
Proof.
  intros Hlt. unfold CRF._compute_normalizer, bindM, np_random_choice.
  destruct (Nat.ltb_spec (CRF.num_tags self) (CRF.neg_nums self)) as [_ | Hge];
    [reflexivity | lia].
Qed.

Variables seq_length batch_size n : nat.
Hypothesis emissions_shape : shape3 seq_length batch_size n emissions.
Hypothesis mask_shape : shape2 seq_length batch_size mask.
Hypothesis seq_length_pos : (1 <= seq_length)%nat.

Lemma where_rows_length {A : Type} (m : list bool) (a b : list A) :
  length (where_rows m a b)
  = Nat.min (length m) (Nat.min (length a) (length b)).
Proof.
  unfold where_rows. rewrite zip_with_length, length_combine. reflexivity.
Qed.

Lemma normalizer_step_length (trans : tensor2) (neg : list nat)
    (score : tensor2) (i : nat) :
  (i < seq_length)%nat -> length score = batch_size ->
  length (CRF.normalizer_step trans neg emissions mask score i) = batch_size.
Proof.
  intros Hi Hs. unfold CRF.normalizer_step.
  rewrite where_rows_length, zip_with_length, length_map, Hs.
  rewrite (shape2_row seq_length batch_size mask i mask_shape Hi).
  destruct (shape3_slice seq_length batch_size n emissions i emissions_shape Hi)
    as [Hlen _].
  rewrite Hlen. lia.
Qed.

Lemma sampled_scores_length (neg : list nat) :
  length (sampled_scores neg) = batch_size.
Proof.
  unfold sampled_scores.
  assert (Hrange : forall i, In i (seq 1 (length emissions - 1)) ->
                             (i < seq_length)%nat).
  { intros i Hi. apply in_seq in Hi. destruct emissions_shape; lia. }
  assert (H0 : length (map (take_tags neg) (nth 0 emissions [])) = batch_size).
  { rewrite length_map.
    destruct (shape3_slice seq_length batch_size n emissions 0 emissions_shape)
      as [Hlen _]; [lia | exact Hlen]. }
  revert Hrange H0.
  generalize (map (take_tags neg) (nth 0 emissions [])).
  generalize (seq 1 (length emissions - 1)).
  intros range; induction range as [|i range IH]; intros score Hrange H0; simpl.
  - exact H0.
  - apply IH.
    + intros j Hj. apply Hrange. right; exact Hj.
    + apply normalizer_step_length; [apply Hrange; left; reflexivity | exact H0].
Qed.

(** Whatever tags are drawn, the normalizer of a batch element is its
    log-sum-exp over the sampled scores and the appended gold score, plus the
    bias correction. *)
Lemma normalizer_of_entry (neg : list nat) (numerator : tensor1) (b : nat) :
  length numerator = batch_size -> (b < batch_size)%nat ->
  nth b (normalizer_of neg numerator) 0
  = logsumexp (nth b (sampled_scores neg) [] ++ [nth b numerator 0])
    + ln (sample_ratio self).
Proof.
  intros Hnum Hb. unfold normalizer_of.
  pose proof (sampled_scores_length neg) as Hlen.
  rewrite (nth_map _ _ b 0 []) by (rewrite zip_with_length; lia).
  rewrite (nth_zip_with _ _ _ _ _ [] 0) by lia.
  reflexivity.
Qed.

Lemma normalizer_of_length (neg : list nat) (numerator : tensor1) :
  length numerator = batch_size ->
  length (normalizer_of neg numerator) = batch_size.
Proof.
  intros Hnum. unfold normalizer_of.
  rewrite length_map, zip_with_length, sampled_scores_length. lia.
Qed.

End Normalizer.

(** C1. When the negative-sample size is strictly below [num_tags], the
    scorer and the normalizer both return, and for every batch element the
    normalizer is at least the gold score computed on the same emissions,
    tags and mask, whatever tag set the generator draws. *)
Theorem normalizer_ge_gold_score
    (G : Generator) (self : CRF.t) (emissions : tensor3) (tags : list (list nat))
    (full_road_emb A_list : tensor2) (mask : list (list bool))
    (seq_length batch_size emb_dim : nat) (s : rng G) :
  shape2 (CRF.num_tags self) emb_dim full_road_emb ->
  shape2 (CRF.num_tags self) (CRF.num_tags self) A_list ->
  shape3 seq_length batch_size (CRF.num_tags self) emissions ->
  shape2 seq_length batch_size tags ->
  shape2 seq_length batch_size mask ->
  Forall (Forall (fun a => (a < CRF.num_tags self)%nat)) tags ->
  (1 <= seq_length)%nat ->
  (CRF.neg_nums self < CRF.num_tags self)%nat ->
  exists (numerator denominator : tensor1) (s' : rng G),
    CRF._compute_score self emissions tags full_road_emb A_list mask = Ok numerator
    /\ CRF._compute_normalizer G self emissions full_road_emb A_list mask
                               numerator s = (Ok denominator, s')
    /\ length numerator = batch_size
    /\ length denominator = batch_size
    /\ forall b, (b < batch_size)%nat -> nth b numerator 0 <= nth b denominator 0.
Proof.
  intros HE HA Hem Htags Hmask Hrange HT Hk.
  destruct (compute_score_ok self full_road_emb A_list emissions tags mask
              seq_length batch_size (CRF.num_tags self) emb_dim
              HE HA Hem Htags Hmask Hrange HT) as [numerator [Hscore [Hlen _]]].
  exists numerator,
    (normalizer_of self full_road_emb A_list emissions mask
                   (drawn G self s) numerator),
    (snd (permutation G (CRF.num_tags self) s)).
  split; [exact Hscore|].
  split; [apply compute_normalizer_run; lia|].
  split; [exact Hlen|].
  split.
  - apply (normalizer_of_length self full_road_emb A_list emissions mask
             seq_length batch_size (CRF.num_tags self)); assumption.
  - intros b Hb.
    rewrite (normalizer_of_entry self full_road_emb A_list emissions mask
               seq_length batch_size (CRF.num_tags self) Hem Hmask HT)
      by assumption.
    pose proof (logsumexp_ge_last
                  (nth b (sampled_scores self full_road_emb A_list emissions mask
                            (drawn G self s)) [])
                  (nth b numerator 0)) as Hlse.
    pose proof (bias_correction_nonneg self Hk) as Hbias.
    lra.
Qed.

(** A generator for concrete runs: the permutation drawn in state [s] is the
    rotation of [0 .. n-1] by [s]. *)
Definition rotating : Generator :=
  {| rng := nat;
     permutation := fun n s => (map (fun i => ((i + s) mod n)%nat) (seq 0 n), S s) |}.

Definition one_step_emissions : tensor3 := [[[0; 1]]].

Lemma one_step_emissions_shape : shape3 1 1 2 one_step_emissions.
Proof. split; [reflexivity|]. repeat constructor. Qed.

Lemma normalizer_ge_gold_score_witness :
  exists (numerator denominator : tensor1) (s' : nat),
    CRF._compute_score crf2 one_step_emissions [[O]] emb2 eye2 [[true]]
    = Ok numerator
    /\ CRF._compute_normalizer rotating crf2 one_step_emissions emb2 eye2 [[true]]
                               numerator O = (Ok denominator, s')
    /\ length numerator = 1%nat
    /\ length denominator = 1%nat
    /\ forall b, (b < 1)%nat -> nth b numerator 0 <= nth b denominator 0.
Proof.
  apply (normalizer_ge_gold_score rotating crf2 one_step_emissions [[O]] emb2 eye2
           [[true]] 1 1 1 O).
  - exact emb2_shape.
  - exact eye2_shape.
  - exact one_step_emissions_shape.
  - split; [reflexivity | repeat constructor].
  - split; [reflexivity | repeat constructor].
  - repeat constructor.
  - lia.
  - simpl; lia.
Defined.

(** ** The Viterbi decoder *)

Lemma set_row_length {A : Type} (buf : list A) (j : nat) (x : A) :
  length (set_row buf j x) = length buf.
Proof.
  revert j; induction buf as [|y buf IH]; intros [|j]; simpl; auto.
Qed.

Lemma nth_set_row {A : Type} (buf : list A) (j k : nat) (x d : A) :
  (j < length buf)%nat ->
  nth k (set_row buf j x) d = if Nat.eqb k j then x else nth k buf d.
Proof.
  revert j k; induction buf as [|y buf IH]; intros [|j] [|k]; simpl;
    intros H; try lia; auto.
  apply IH. lia.
Qed.

(** The maximum of a non-empty row: it is an entry of the row, at the index
    returned, no entry is above it, and every earlier entry is below it. *)
Lemma max_dim0_spec (l : tensor1) :
  l <> [] ->
  (snd (max_dim0 l) < length l)%nat
  /\ nth (snd (max_dim0 l)) l 0 = fst (max_dim0 l)
  /\ (forall j, (j < length l)%nat -> nth j l 0 <= fst (max_dim0 l))
  /\ (forall j, (j < snd (max_dim0 l))%nat -> nth j l 0 < fst (max_dim0 l)).
Proof.
  induction l as [|x l IH]; intros Hne; [congruence|].
  destruct l as [|y l].
  - simpl. repeat split; try lia.
    + intros [|j] Hj; simpl in *; try lia. lra.
  - specialize (IH ltac:(discriminate)).
    destruct IH as [Hk [Hnth [Hmax Hfirst]]].
    change (max_dim0 (x :: y :: l))
      with (let (m, k) := max_dim0 (y :: l) in
            if Rle_dec m x then (x, O) else (m, S k)).
    destruct (max_dim0 (y :: l)) as [m k]. simpl fst in *. simpl snd in *.
    destruct (Rle_dec m x) as [Hle | Hgt]; simpl fst; simpl snd.
    + repeat split.
      * simpl; lia.
      * intros [|j] Hj; [simpl; lra|].
        specialize (Hmax j ltac:(simpl in *; lia)).
        change (nth (S j) (x :: y :: l) 0) with (nth j (y :: l) 0). lra.
      * intros j Hj; lia.
    + repeat split.
      * simpl in *; lia.
      * exact Hnth.
      * intros [|j] Hj; [simpl; lra|].
        change (nth (S j) (x :: y :: l) 0) with (nth j (y :: l) 0).
        apply Hmax. simpl in *; lia.
      * intros [|j] Hj; [simpl; lra|].
        change (nth (S j) (x :: y :: l) 0) with (nth j (y :: l) 0).
        apply Hfirst. lia.
Qed.

(** Entry [k] of column [c] of the broadcast sum. *)
Lemma broadcast_add_entry (score : tensor1) (trans : tensor2) (emission : tensor1)
    (n k c : nat) :
  length score = n -> shape2 n n trans -> length emission = n ->
  (k < n)%nat -> (c < n)%nat ->
  nth k (col 0 c (broadcast_add score trans emission)) 0
  = nth k score 0 + nth c (nth k trans []) 0 + nth c emission 0.
Proof.
  intros Hs Ht He Hk Hc. unfold col, broadcast_add.
  assert (Hlt : length trans = n) by (destruct Ht; assumption).
  rewrite (nth_map _ _ k 0 []) by (rewrite zip_with_length; lia).
  rewrite (nth_zip_with _ _ _ _ _ 0 []) by lia.
  rewrite (nth_zip_with _ _ _ _ _ 0 0);
    [reflexivity | rewrite (shape2_row n n); (assumption || lia) | lia].
Qed.

Lemma broadcast_add_col_length (score : tensor1) (trans : tensor2)
    (emission : tensor1) (n c : nat) :
  length score = n -> shape2 n n trans ->
  length (col 0 c (broadcast_add score trans emission)) = n.
Proof.
  intros Hs [Ht _]. unfold col, broadcast_add.
  rewrite length_map, zip_with_length. lia.
Qed.

Section Viterbi.

Variable self : CRF.t.
Variable trans : tensor2.
Variable emissions : tensor3.
Variable mask : list (list bool).
Variables seq_length batch_size : nat.

(** The emissions of batch element [b] at step [i]. *)
Definition emission_row (i b : nat) : tensor1 := nth b (nth i emissions []) [].

(** What step [i] does to the score row of batch element [b]. *)
Definition row_step (b : nat) (row : tensor1) (i : nat) : tensor1 :=
  if mask_at mask i b
  then fst (CRF.max_over_previous self trans row (emission_row i b))
  else row.

(** The score row of batch element [b] after step [i]. *)
Definition score_row (b i : nat) : tensor1 :=
  fold_left (row_step b) (seq 1 i) (emission_row 0 b).

(** The backpointers that step [k + 1] records for batch element [b]. *)
Definition backpointers (b k : nat) : list nat :=
  snd (CRF.max_over_previous self trans (score_row b k) (emission_row (S k) b)).

Lemma score_row_S (b i : nat) :
  score_row b (S i) = row_step b (score_row b i) (S i).
Proof.
  unfold score_row. rewrite seq_S, fold_left_app. reflexivity.
Qed.

(** The inner loop writes row [j] of both buffers for every [j] below the
    batch size and leaves the other rows as they were. *)
Lemma inner_loop_rows (F : nat -> tensor1 * list nat) (k : nat)
    (ns : tensor2) (ix : list (list nat)) :
  (k <= batch_size)%nat -> length ns = batch_size -> length ix = batch_size ->
  let r := fold_left
             (fun (bufs : tensor2 * list (list nat)) j =>
                let (cur_score, cur_indices) := F j in
                (set_row (fst bufs) j cur_score, set_row (snd bufs) j cur_indices))
             (seq 0 k) (ns, ix) in
  length (fst r) = batch_size /\ length (snd r) = batch_size
  /\ forall b,
       nth b (fst r) [] = (if (b <? k)%nat then fst (F b) else nth b ns [])
       /\ nth b (snd r) [] = (if (b <? k)%nat then snd (F b) else nth b ix []).
Proof.
  intros Hk Hns Hix. induction k as [|k IH].
  - simpl. repeat split; assumption.
  - rewrite seq_S, fold_left_app. simpl.
    destruct IH as [H1 [H2 H3]]; [lia|].
    set (r := fold_left _ (seq 0 k) (ns, ix)) in *.
    destruct (F k) as [cs ci] eqn:HF. simpl.
    rewrite !set_row_length. repeat split; try assumption.
    + rewrite nth_set_row by lia.
      destruct (Nat.eqb_spec b k) as [-> | Hne].
      * rewrite HF. destruct (Nat.ltb_spec k (S k)); [reflexivity | lia].
      * rewrite (proj1 (H3 b)).
        destruct (Nat.ltb_spec b k), (Nat.ltb_spec b (S k)); try lia; reflexivity.
    + rewrite nth_set_row by lia.
      destruct (Nat.eqb_spec b k) as [-> | Hne].
      * rewrite HF. destruct (Nat.ltb_spec k (S k)); [reflexivity | lia].
      * rewrite (proj2 (H3 b)).
        destruct (Nat.ltb_spec b k), (Nat.ltb_spec b (S k)); try lia; reflexivity.
Qed.

Hypothesis mask_shape : shape2 seq_length batch_size mask.

(** One step of the forward recursion, row by row. *)
Lemma viterbi_step_rows (st : CRF.viterbi_state) (i : nat) :
  (i < seq_length)%nat ->
  length (CRF.score st) = batch_size ->
  length (CRF.next_score st) = batch_size ->
  length (CRF.indices st) = batch_size ->
  let st' := CRF.viterbi_step self trans emissions mask batch_size st i in
  length (CRF.score st') = batch_size
  /\ length (CRF.next_score st') = batch_size
  /\ length (CRF.indices st') = batch_size
  /\ CRF.history st' = CRF.history st ++ [CRF.indices st']
  /\ forall b, (b < batch_size)%nat ->
       nth b (CRF.indices st') []
       = snd (CRF.max_over_previous self trans (nth b (CRF.score st) [])
                                    (emission_row i b))
       /\ nth b (CRF.score st') []
          = (if mask_at mask i b
             then fst (CRF.max_over_previous self trans (nth b (CRF.score st) [])
                                             (emission_row i b))
             else nth b (CRF.score st) []).
Proof.
  intros Hi Hs Hn Hx st'.
  pose proof (inner_loop_rows
    (fun j => CRF.max_over_previous self trans (nth j (CRF.score st) [])
                                    (nth j (nth i emissions []) []))
    batch_size (CRF.next_score st) (CRF.indices st) (le_n _) Hn Hx) as Hloop.
  cbv zeta in Hloop. destruct Hloop as [H1 [H2 H3]].
  subst st'. unfold CRF.viterbi_step. simpl.
  set (bufs := fold_left _ (seq 0 batch_size) _) in *.
  pose proof (shape2_row seq_length batch_size mask i mask_shape Hi) as Hm.
  repeat split; try assumption.
  - rewrite where_rows_length. lia.
  - destruct (H3 b) as [_ Hb]. rewrite Hb.
    destruct (Nat.ltb_spec b batch_size); [reflexivity | lia].
  - unfold where_rows.
    rewrite (nth_zip_with _ _ _ _ _ false ([], []))
      by (try rewrite length_combine; lia).
    rewrite combine_nth by lia.
    destruct (H3 b) as [Hb _]. unfold mask_at. simpl. rewrite Hb.
    destruct (Nat.ltb_spec b batch_size); [reflexivity | lia].
Qed.

(** The state after the first [k] steps of the forward recursion. *)
Definition forward_state (k : nat) : CRF.viterbi_state :=
  fold_left (CRF.viterbi_step self trans emissions mask batch_size)
            (seq 1 k)
            {| CRF.score := nth 0 emissions [];
               CRF.next_score := repeat (repeat 0 (CRF.num_tags self)) batch_size;
               CRF.indices := repeat (repeat O (CRF.num_tags self)) batch_size;
               CRF.history := [] |}.

Hypothesis first_step_shape : length (nth 0 emissions []) = batch_size.

Lemma forward_state_rows (k : nat) :
  (k < seq_length)%nat ->
  length (CRF.score (forward_state k)) = batch_size
  /\ length (CRF.next_score (forward_state k)) = batch_size
  /\ length (CRF.indices (forward_state k)) = batch_size
  /\ length (CRF.history (forward_state k)) = k
  /\ forall b, (b < batch_size)%nat ->
       nth b (CRF.score (forward_state k)) [] = score_row b k
       /\ forall j, (j < k)%nat ->
            nth b (nth j (CRF.history (forward_state k)) []) [] = backpointers b j.
Proof.
  induction k as [|k IH]; intros Hk.
  - unfold forward_state. simpl. rewrite !repeat_length.
    repeat split; try assumption; try reflexivity. intros j Hj; lia.
  - destruct IH as [H1 [H2 [H3 [H4 H5]]]]; [lia|].
    unfold forward_state in *. rewrite seq_S, fold_left_app.
    cbn [fold_left Nat.add].
    set (st := fold_left _ (seq 1 k) _) in *.
    destruct (viterbi_step_rows st (S k) Hk H1 H2 H3) as [G1 [G2 [G3 [G4 G5]]]].
    repeat split; try assumption.
    + rewrite G4, length_app, H4. simpl. lia.
    + destruct (G5 b H) as [_ Hrow]. rewrite Hrow, score_row_S.
      unfold row_step. rewrite (proj1 (H5 b H)). reflexivity.
    + intros j Hj. rewrite G4.
      destruct (Nat.eq_dec j k) as [-> | Hne].
      * rewrite app_nth2 by lia. rewrite H4, Nat.sub_diag. cbn [nth].
        destruct (G5 b H) as [Hix _]. rewrite Hix.
        unfold backpointers. rewrite (proj1 (H5 b H)). reflexivity.
      * rewrite app_nth1 by lia. apply (proj2 (H5 b H)). lia.
Qed.

End Viterbi.

(** *** Trace-back, one batch element at a time *)

(** The trace-back of lines 207-219 on the score row and the backpointer rows
    of one batch element. *)
Definition trace_row (row : tensor1) (hist_rows : list (list nat))
    (seq_length : nat) (seq_end : Z) : list Z :=
  let best_tags :=
    fold_left (fun best_tags h => best_tags ++ [nth (last best_tags O) h O])
              (rev (slice_to hist_rows seq_end)) [snd (max_dim0 row)] in
  map Z.of_nat (rev best_tags)
  ++ repeat (-1)%Z (seq_length - length (rev best_tags)).

Lemma slice_to_map {A B : Type} (f : A -> B) (l : list A) (e : Z) :
  slice_to (map f l) e = map f (slice_to l e).
Proof.
  unfold slice_to. rewrite length_map.
  destruct (e <? 0)%Z; apply firstn_map.
Qed.

Lemma fold_left_map {A B C : Type} (g : A -> B -> A) (f : C -> B) (l : list C)
    (a : A) :
  fold_left g (map f l) a = fold_left (fun a x => g a (f x)) l a.
Proof.
  revert a; induction l as [|x l IH]; intros a; simpl; auto.
Qed.

Lemma trace_back_row (st : CRF.viterbi_state) (seq_length : nat) (seq_end : Z)
    (idx : nat) :
  CRF.trace_back st seq_length seq_end idx
  = trace_row (nth idx (CRF.score st) [])
              (map (fun hist => nth idx hist []) (CRF.history st))
              seq_length seq_end.
Proof.
  unfold CRF.trace_back, trace_row.
  rewrite slice_to_map, <- map_rev, fold_left_map. reflexivity.
Qed.

(** The number of steps below [len] among [s, s+1, ..., s+k-1]. *)
Lemma count_prefix (len s k : nat) :
  fold_right Z.add 0%Z
    (map (fun x : bool => if x then 1%Z else 0%Z)
         (map (fun t => (t <? len)%nat) (seq s k)))
  = (Z.of_nat (Nat.min len (s + k)) - Z.of_nat (Nat.min len s))%Z.
Proof.
  revert s; induction k as [|k IH]; intros s; simpl.
  - rewrite Nat.add_0_r. lia.
  - rewrite IH. destruct (Nat.ltb_spec s len); lia.
Qed.

(** A mask column that is [len] ones followed by zeros, with [len >= 1]. *)
Definition prefix_mask (mask : list (list bool)) (seq_length b len : nat) : Prop :=
  (1 <= len <= seq_length)%nat
  /\ forall t, (t < seq_length)%nat -> mask_at mask t b = (t <? len)%nat.

Lemma mask_col (mask : list (list bool)) (seq_length batch_size b : nat) :
  shape2 seq_length batch_size mask ->
  col false b mask = map (fun t => mask_at mask t b) (seq 0 seq_length).
Proof.
  intros [Hlen _]. unfold col, mask_at.
  apply nth_ext with (d := false) (d' := false).
  - rewrite !length_map, length_seq. exact Hlen.
  - intros t Ht. rewrite length_map in Ht.
    rewrite (nth_map _ mask t false []) by exact Ht.
    rewrite nth_map_seq by lia. reflexivity.
Qed.

Lemma seq_ends_prefix (mask : list (list bool)) (seq_length batch_size b len : nat) :
  shape2 seq_length batch_size mask -> (b < batch_size)%nat ->
  prefix_mask mask seq_length b len ->
  nth b (CRF.seq_ends mask batch_size) 0%Z = (Z.of_nat len - 1)%Z.
Proof.
  intros Hshape Hb [Hlen Hmask]. unfold CRF.seq_ends.
  rewrite nth_map_seq by exact Hb.
  rewrite (mask_col mask seq_length batch_size b Hshape).
  rewrite (map_ext_in _ (fun t => (t <? len)%nat))
    by (intros t Ht; apply in_seq in Ht; apply Hmask; lia).
  rewrite count_prefix. lia.
Qed.

Section Decode.

Variable self : CRF.t.
Variables full_road_emb A_list : tensor2.
Variable emissions : tensor3.
Variable mask : list (list bool).
Variables seq_length batch_size : nat.

Hypothesis emissions_shape :
  shape3 seq_length batch_size (CRF.num_tags self) emissions.
Hypothesis mask_shape : shape2 seq_length batch_size mask.
Hypothesis seq_length_pos : (1 <= seq_length)%nat.

Let trans := CRF.transitions self full_road_emb A_list.

(** The decoded sequence of batch element [b]: the trace-back over its own
    score row and backpointer rows. *)
Lemma viterbi_decode_row (b : nat) :
  (b < batch_size)%nat ->
  nth b (CRF._viterbi_decode self emissions full_road_emb A_list mask) []
  = trace_row (score_row self trans emissions mask b (seq_length - 1))
              (map (backpointers self trans emissions mask b)
                   (seq 0 (seq_length - 1)))
              seq_length (nth b (CRF.seq_ends mask batch_size) 0%Z).
Proof.
  intros Hb. unfold CRF._viterbi_decode.
  assert (Hlen : length mask = seq_length) by (destruct mask_shape; assumption).
  assert (Hnc : ncols mask = batch_size)
    by (apply (ncols_shape2 seq_length); (assumption || lia)).
  rewrite Hlen, Hnc. rewrite nth_map_seq by exact Hb.
  rewrite trace_back_row.
  assert (H0 : length (nth 0 emissions []) = batch_size).
  { destruct (shape3_slice seq_length batch_size (CRF.num_tags self) emissions 0
                emissions_shape) as [H _]; [lia | exact H]. }
  unfold CRF.viterbi_forward. rewrite Hlen, Hnc.
  fold trans.
  fold (forward_state self trans emissions mask batch_size (seq_length - 1)).
  destruct (forward_state_rows self trans emissions mask seq_length batch_size
              mask_shape H0 (seq_length - 1)) as [_ [_ [_ [Hh Hrows]]]]; [lia|].
  destruct (Hrows b Hb) as [Hscore Hhist].
  rewrite Hscore. f_equal.
  apply nth_ext with (d := []) (d' := []).
  - rewrite !length_map, length_seq. exact Hh.
  - intros j Hj. rewrite length_map, Hh in Hj.
    rewrite (nth_map _ _ j [] []) by lia.
    rewrite nth_map_seq by exact Hj.
    apply Hhist. exact Hj.
Qed.

Lemma viterbi_decode_length :
  length (CRF._viterbi_decode self emissions full_road_emb A_list mask)
  = batch_size.
Proof.
  unfold CRF._viterbi_decode. rewrite length_map, length_seq.
  apply (ncols_shape2 seq_length); (assumption || lia).
Qed.

End Decode.

(** ** The caller's layout

    [forward] and [decode] take their tensors batch-first when
    [batch_first] is set and swap the first two dimensions before they
    call the private methods. *)

Definition time_major {A : Type} (self : CRF.t) (d : A) (x : list (list A))
  : list (list A) :=
  if CRF.batch_first self then transpose d x else x.

(** The shape of an input of [seq_length] steps and [batch_size] elements. *)
Definition input_shape2 {A : Type} (self : CRF.t) (seq_length batch_size : nat)
    (x : list (list A)) : Prop :=
  if CRF.batch_first self then shape2 batch_size seq_length x
  else shape2 seq_length batch_size x.

Definition input_shape3 {A : Type} (self : CRF.t) (seq_length batch_size n : nat)
    (x : list (list (list A))) : Prop :=
  if CRF.batch_first self then shape3 batch_size seq_length n x
  else shape3 seq_length batch_size n x.

(** The entry of an input at step [t] of batch element [b]. *)
Definition input_at {A : Type} (self : CRF.t) (d : A) (x : list (list A))
    (t b : nat) : A :=
  if CRF.batch_first self then nth t (nth b x []) d else nth b (nth t x []) d.

Section Transpose.

Context {A : Type}.
Variable d : A.
Variable m : list (list A).
Variables r c : nat.
Hypothesis m_shape : shape2 r c m.
Hypothesis r_pos : (1 <= r)%nat.

Lemma transpose_row (t : nat) :
  (t < c)%nat -> nth t (transpose d m) [] = col d t m.
Proof.
  intros Ht. unfold transpose.
  rewrite (ncols_shape2 r c m m_shape) by lia.
  rewrite (nth_map_seq (fun k => col d k m)) by exact Ht. reflexivity.
Qed.

Lemma transpose_length : length (transpose d m) = c.
Proof.
  unfold transpose. rewrite length_map, length_seq.
  apply (ncols_shape2 r c m m_shape). lia.
Qed.

Lemma transpose_entry (t b : nat) :
  (t < c)%nat -> (b < r)%nat ->
  nth b (nth t (transpose d m) []) d = nth t (nth b m []) d.
Proof.
  intros Ht Hb. rewrite transpose_row by exact Ht. unfold col.
  apply (nth_map (fun row => nth t row d)). destruct m_shape; lia.
Qed.

Lemma transpose_shape : shape2 c r (transpose d m).
Proof.
  split; [apply transpose_length|].
  unfold transpose. apply Forall_forall. intros row Hrow.
  apply in_map_iff in Hrow. destruct Hrow as [t [<- _]].
  unfold col. rewrite length_map. destruct m_shape; assumption.
Qed.

End Transpose.

Lemma shape3_shape2 {A : Type} (a b c : nat) (x : list (list (list A))) :
  shape3 a b c x -> shape2 a b x.
Proof.
  intros [Ha Hf]. split; [exact Ha|].
  eapply Forall_impl; [| exact Hf]. intros slice [Hb _]. exact Hb.
Qed.

Lemma transpose_shape3 {A : Type} (a b c : nat) (x : list (list (list A))) :
  shape3 a b c x -> (1 <= a)%nat -> shape3 b a c (transpose [] x).
Proof.
  intros Hx Ha. pose proof (shape3_shape2 a b c x Hx) as H2.
  split; [apply (transpose_length [] x a b H2 Ha)|].
  unfold transpose. apply Forall_forall. intros slice Hslice.
  apply in_map_iff in Hslice. destruct Hslice as [t [<- Ht]].
  apply in_seq in Ht. rewrite (ncols_shape2 a b x H2 Ha) in Ht.
  unfold col. split.
  - rewrite length_map. destruct Hx; assumption.
  - apply Forall_forall. intros row Hrow.
    apply in_map_iff in Hrow. destruct Hrow as [xb [<- Hxb]].
    destruct Hx as [_ Hf]. rewrite Forall_forall in Hf.
    destruct (Hf xb Hxb) as [Hlen Hrows]. rewrite Forall_forall in Hrows.
    apply Hrows, nth_In. lia.
Qed.

Section Layout.

Variable self : CRF.t.
Variables seq_length batch_size : nat.
Hypothesis batch_size_pos : (1 <= batch_size)%nat.

Lemma time_major_shape2 {A : Type} (d : A) (x : list (list A)) :
  input_shape2 self seq_length batch_size x ->
  shape2 seq_length batch_size (time_major self d x).
Proof.
  unfold input_shape2, time_major. destruct (CRF.batch_first self); intros H.
  - apply (transpose_shape d x batch_size seq_length H batch_size_pos).
  - exact H.
Qed.

Lemma time_major_shape3 {A : Type} (n : nat) (x : list (list (list A))) :
  input_shape3 self seq_length batch_size n x ->
  shape3 seq_length batch_size n (time_major self [] x).
Proof.
  unfold input_shape3, time_major. destruct (CRF.batch_first self); intros H.
  - apply transpose_shape3; assumption.
  - exact H.
Qed.

Lemma time_major_at {A : Type} (d : A) (x : list (list A)) (t b : nat) :
  input_shape2 self seq_length batch_size x ->
  (t < seq_length)%nat -> (b < batch_size)%nat ->
  nth b (nth t (time_major self d x) []) d = input_at self d x t b.
Proof.
  unfold input_shape2, time_major, input_at.
  destruct (CRF.batch_first self); intros H Ht Hb.
  - apply (transpose_entry d x batch_size seq_length H); assumption.
  - reflexivity.
Qed.

Lemma input_shape3_shape2 {A : Type} (n : nat) (x : list (list (list A))) :
  input_shape3 self seq_length batch_size n x ->
  input_shape2 self seq_length batch_size x.
Proof.
  unfold input_shape3, input_shape2. destruct (CRF.batch_first self);
    apply shape3_shape2.
Qed.

End Layout.

Lemma decode_time_major (self : CRF.t) (emissions : tensor3)
    (full_road_emb A_list : tensor2) (mask : list (list bool)) :
  CRF.decode self emissions full_road_emb A_list mask
  = CRF._viterbi_decode self (time_major self [] emissions) full_road_emb A_list
                        (time_major self false mask).
Proof. reflexivity. Qed.

Lemma score_row_masked (self : CRF.t) (trans : tensor2) (emissions : tensor3)
    (mask : list (list bool)) (b k : nat) :
  (forall i, (1 <= i <= k)%nat -> mask_at mask i b = false) ->
  score_row self trans emissions mask b k = emission_row emissions 0 b.
Proof.
  induction k as [|k IH]; intros Hmask.
  - reflexivity.
  - rewrite score_row_S. unfold row_step.
    rewrite (Hmask (S k)) by lia. apply IH. intros i Hi. apply Hmask. lia.
Qed.

(** C10. When only position 0 of a batch element is valid, [decode] returns
    for it a sequence of the shared length [seq_length]: first a tag whose
    step-0 emission is maximal over all tags, then the sentinel [-1] at every
    other position, whatever the embeddings and the adjacency matrix. *)
Theorem decode_single_valid_position
    (self : CRF.t) (emissions : tensor3) (full_road_emb A_list : tensor2)
    (mask : list (list bool)) (seq_length batch_size b : nat) :
  input_shape3 self seq_length batch_size (CRF.num_tags self) emissions ->
  input_shape2 self seq_length batch_size mask ->
  (1 <= seq_length)%nat ->
  (1 <= CRF.num_tags self)%nat ->
  (b < batch_size)%nat ->
  input_at self false mask 0 b = true ->
  (forall t, (1 <= t < seq_length)%nat -> input_at self false mask t b = false) ->
  exists k : nat,
    nth b (CRF.decode self emissions full_road_emb A_list mask) []
    = Z.of_nat k :: repeat (-1)%Z (seq_length - 1)
    /\ length (nth b (CRF.decode self emissions full_road_emb A_list mask) [])
       = seq_length
    /\ (k < CRF.num_tags self)%nat
    /\ forall j, (j < CRF.num_tags self)%nat ->
         nth j (input_at self [] emissions 0 b) 0
         <= nth k (input_at self [] emissions 0 b) 0.
Proof.
  intros Hem Hmask HT Hn Hb Hfirst Hrest.
  assert (HB : (1 <= batch_size)%nat) by lia.
  pose proof (time_major_shape3 self seq_length batch_size HB
                (CRF.num_tags self) emissions Hem) as Hem'.
  pose proof (time_major_shape2 self seq_length batch_size HB false mask Hmask)
    as Hmask'.
  assert (Hat : forall t, (t < seq_length)%nat ->
                  mask_at (time_major self false mask) t b
                  = input_at self false mask t b).
  { intros t Ht. unfold mask_at.
    apply (time_major_at self seq_length batch_size HB); assumption. }
  assert (Hprefix : prefix_mask (time_major self false mask) seq_length b 1).
  { split; [lia|]. intros t Ht. rewrite Hat by exact Ht.
    destruct t as [|t]; [exact Hfirst|]. apply Hrest. lia. }
  assert (Hrow : emission_row (time_major self [] emissions) 0 b
                 = input_at self [] emissions 0 b).
  { unfold emission_row.
    apply (time_major_at self seq_length batch_size HB);
      [apply (input_shape3_shape2 self seq_length batch_size (CRF.num_tags self))
      | |]; assumption || lia. }
  assert (Hlen : length (input_at self [] emissions 0 b) = CRF.num_tags self).
  { rewrite <- Hrow. unfold emission_row.
    apply (shape2_row batch_size); [| exact Hb].
    apply (shape3_slice seq_length); [exact Hem' | lia]. }
  assert (Hne : input_at self [] emissions 0 b <> []).
  { intros Hnil. rewrite Hnil in Hlen. simpl in Hlen. lia. }
  destruct (max_dim0_spec _ Hne) as [Hk [Hnth [Hmax _]]].
  exists (snd (max_dim0 (input_at self [] emissions 0 b))).
  assert (Hdec : nth b (CRF.decode self emissions full_road_emb A_list mask) []
                 = Z.of_nat (snd (max_dim0 (input_at self [] emissions 0 b)))
                   :: repeat (-1)%Z (seq_length - 1)).
  { rewrite decode_time_major.
    rewrite (viterbi_decode_row self full_road_emb A_list _ _ seq_length batch_size
               Hem' Hmask' HT b Hb).
    rewrite (seq_ends_prefix _ seq_length batch_size b 1 Hmask' Hb Hprefix).
    rewrite score_row_masked, Hrow.
    - reflexivity.
    - intros i Hi. rewrite Hat by lia. apply Hrest. lia. }
  split; [exact Hdec|].
  split; [rewrite Hdec; simpl; rewrite repeat_length; lia|].
  split; [lia|].
  intros j Hj. rewrite Hnth. apply Hmax. lia.
Qed.

Definition crf2_batch_first : CRF.t :=
  {| CRF.num_tags := 2; CRF.batch_first := true; CRF.device := "cpu";
     CRF.beam_size := 1; CRF.neg_nums := 1;
     CRF.W_weight := [[1]]; CRF.W_bias := [0] |}.

(** One batch element, two steps, of which only the first is valid. *)
Definition padded_emissions : tensor3 := [[[0; 1]; [3; 0]]].
Definition padded_mask : list (list bool) := [[true; false]].

Lemma decode_single_valid_position_witness :
  exists k : nat,
    nth 0 (CRF.decode crf2_batch_first padded_emissions emb2 eye2 padded_mask) []
    = Z.of_nat k :: repeat (-1)%Z (2 - 1)
    /\ length (nth 0 (CRF.decode crf2_batch_first padded_emissions emb2 eye2
                                 padded_mask) []) = 2%nat
    /\ (k < 2)%nat
    /\ forall j, (j < 2)%nat ->
         nth j (input_at crf2_batch_first [] padded_emissions 0 0) 0
         <= nth k (input_at crf2_batch_first [] padded_emissions 0 0) 0.
Proof.
  apply (decode_single_valid_position crf2_batch_first padded_emissions emb2 eye2
           padded_mask 2 1 0).
  - split; [reflexivity|]. repeat constructor.
  - split; [reflexivity|]. repeat constructor.
  - lia.
  - simpl; lia.
  - lia.
  - reflexivity.
  - intros t Ht. assert (t = 1%nat) as -> by lia. reflexivity.
Defined.

(** ** Two runs that differ only where the mask is zero *)

Lemma fold_left_agree {S : Type} (f g : S -> nat -> S) (range : list nat) (s : S) :
  (forall i s, In i range -> f s i = g s i) ->
  fold_left f range s = fold_left g range s.
Proof.
  revert s; induction range as [|i range IH]; intros s H; simpl; auto.
  rewrite (H i s (or_introl eq_refl)). apply IH.
  intros j s' Hj. apply H. right; exact Hj.
Qed.

Lemma firstn_seq (k s n : nat) : firstn k (seq s n) = seq s (Nat.min k n).
Proof.
  revert s n; induction k as [|k IH]; intros s [|n]; simpl; auto.
  rewrite IH. reflexivity.
Qed.

Section Perturbation.

Variable self : CRF.t.
Variables full_road_emb A_list : tensor2.
Variables emissions1 emissions2 : tensor3.
Variables tags1 tags2 : list (list nat).
Variable mask : list (list bool).
Variables seq_length batch_size b len : nat.

Hypothesis mask_prefix : prefix_mask mask seq_length b len.
Hypothesis same_emissions :
  forall t, (t < len)%nat -> emission_row emissions1 t b = emission_row emissions2 t b.
Hypothesis same_tags :
  forall t, (t < len)%nat -> tag_at tags1 t b = tag_at tags2 t b.

Lemma gold_score_agree :
  gold_score self full_road_emb A_list emissions1 tags1 mask seq_length b
  = gold_score self full_road_emb A_list emissions2 tags2 mask seq_length b.
Proof.
  destruct mask_prefix as [Hlen Hmask]. unfold gold_score.
  assert (H0 : gold_emission emissions1 tags1 0 b = gold_emission emissions2 tags2 0 b).
  { unfold gold_emission.
    fold (emission_row emissions1 0 b). fold (emission_row emissions2 0 b).
    rewrite same_emissions, same_tags by lia. reflexivity. }
  rewrite H0. apply fold_left_agree. intros i s Hi. apply in_seq in Hi.
  unfold gold_step. rewrite Hmask by lia.
  destruct (Nat.ltb_spec i len) as [Hlt | Hge].
  - unfold gold_emission.
    fold (emission_row emissions1 i b). fold (emission_row emissions2 i b).
    rewrite same_emissions by lia.
    rewrite (same_tags i), (same_tags (i - 1)) by lia. reflexivity.
  - simpl. rewrite !Rmult_0_r. reflexivity.
Qed.

Variable trans : tensor2.

Lemma score_row_agree (k : nat) :
  (k < seq_length)%nat ->
  score_row self trans emissions1 mask b k = score_row self trans emissions2 mask b k.
Proof.
  destruct mask_prefix as [Hlen Hmask].
  induction k as [|k IH]; intros Hk.
  - unfold score_row. simpl. apply same_emissions. lia.
  - rewrite !score_row_S. unfold row_step. rewrite Hmask by exact Hk.
    rewrite IH by lia.
    destruct (Nat.ltb_spec (S k) len) as [Hlt | Hge]; [| reflexivity].
    rewrite same_emissions by exact Hlt. reflexivity.
Qed.

Lemma backpointers_agree (k : nat) :
  (S k < len)%nat ->
  backpointers self trans emissions1 mask b k
  = backpointers self trans emissions2 mask b k.
Proof.
  intros Hk. destruct mask_prefix as [Hlen _]. unfold backpointers.
  rewrite score_row_agree by lia. rewrite same_emissions by exact Hk.
  reflexivity.
Qed.

(** The trace-back reads the backpointers of the valid steps only. *)
Lemma trace_row_agree :
  trace_row (score_row self trans emissions1 mask b (seq_length - 1))
            (map (backpointers self trans emissions1 mask b) (seq 0 (seq_length - 1)))
            seq_length (Z.of_nat len - 1)
  = trace_row (score_row self trans emissions2 mask b (seq_length - 1))
              (map (backpointers self trans emissions2 mask b) (seq 0 (seq_length - 1)))
              seq_length (Z.of_nat len - 1).
Proof.
  pose proof mask_prefix as [Hlen _].
  unfold trace_row. rewrite score_row_agree by lia.
  assert (Hslice : forall em,
            slice_to (map (backpointers self trans em mask b) (seq 0 (seq_length - 1)))
                     (Z.of_nat len - 1)
            = map (backpointers self trans em mask b) (seq 0 (len - 1))).
  { intros em. unfold slice_to.
    destruct (Z.ltb_spec (Z.of_nat len - 1) 0) as [Hneg | _]; [lia|].
    rewrite firstn_map, firstn_seq. f_equal. f_equal. lia. }
  rewrite !Hslice.
  rewrite (map_ext_in (backpointers self trans emissions1 mask b)
                      (backpointers self trans emissions2 mask b)).
  - reflexivity.
  - intros k Hk. apply in_seq in Hk. apply backpointers_agree. lia.
Qed.

End Perturbation.

Lemma transpose_Forall {A : Type} (P : A -> Prop) (d : A) (m : list (list A))
    (r c : nat) :
  shape2 r c m -> (1 <= r)%nat ->
  Forall (Forall P) m -> Forall (Forall P) (transpose d m).
Proof.
  intros Hm Hr HP. unfold transpose. apply Forall_forall. intros row Hrow.
  apply in_map_iff in Hrow. destruct Hrow as [t [<- Ht]].
  apply in_seq in Ht. rewrite (ncols_shape2 r c m Hm Hr) in Ht.
  unfold col. apply Forall_forall. intros x Hx.
  apply in_map_iff in Hx. destruct Hx as [row [<- Hrow]].
  rewrite Forall_forall in HP. specialize (HP row Hrow).
  rewrite Forall_forall in HP. apply HP, nth_In.
  destruct Hm as [_ Hf]. rewrite Forall_forall in Hf. rewrite (Hf row Hrow). lia.
Qed.

Lemma time_major_Forall {A : Type} (self : CRF.t) (P : A -> Prop) (d : A)
    (x : list (list A)) (seq_length batch_size : nat) :
  input_shape2 self seq_length batch_size x -> (1 <= batch_size)%nat ->
  Forall (Forall P) x -> Forall (Forall P) (time_major self d x).
Proof.
  unfold input_shape2, time_major. destruct (CRF.batch_first self); intros H HB HP.
  - apply (transpose_Forall P d x batch_size seq_length); assumption.
  - exact HP.
Qed.

(** C4, as the code has it.  With a mask that is, for every batch element, a
    non-empty prefix of ones followed by zeros, and with gold tags that are
    tags at every position of both inputs, masked positions included, two
    inputs that agree wherever the mask is one (emissions and gold tags may
    differ wherever it is zero) get the same scores from the scorer and the
    same decoded sequences from [decode]. *)
Theorem masked_positions_are_ignored
    (self : CRF.t) (emissions1 emissions2 : tensor3)
    (tags1 tags2 : list (list nat)) (full_road_emb A_list : tensor2)
    (mask : list (list bool)) (seq_length batch_size emb_dim : nat) :
  shape2 (CRF.num_tags self) emb_dim full_road_emb ->
  shape2 (CRF.num_tags self) (CRF.num_tags self) A_list ->
  input_shape3 self seq_length batch_size (CRF.num_tags self) emissions1 ->
  input_shape3 self seq_length batch_size (CRF.num_tags self) emissions2 ->
  input_shape2 self seq_length batch_size tags1 ->
  input_shape2 self seq_length batch_size tags2 ->
  input_shape2 self seq_length batch_size mask ->
  Forall (Forall (fun a => (a < CRF.num_tags self)%nat)) tags1 ->
  Forall (Forall (fun a => (a < CRF.num_tags self)%nat)) tags2 ->
  (1 <= seq_length)%nat ->
  (1 <= batch_size)%nat ->
  (forall b, (b < batch_size)%nat ->
     exists len, (1 <= len <= seq_length)%nat
       /\ forall t, (t < seq_length)%nat ->
            input_at self false mask t b = (t <? len)%nat) ->
  (forall t b, (t < seq_length)%nat -> (b < batch_size)%nat ->
     input_at self false mask t b = true ->
     input_at self [] emissions1 t b = input_at self [] emissions2 t b
     /\ input_at self O tags1 t b = input_at self O tags2 t b) ->
  (exists score : tensor1,
     CRF._compute_score self (time_major self [] emissions1)
                        (time_major self O tags1) full_road_emb A_list
                        (time_major self false mask) = Ok score
     /\ CRF._compute_score self (time_major self [] emissions2)
                           (time_major self O tags2) full_road_emb A_list
                           (time_major self false mask) = Ok score
     /\ length score = batch_size)
  /\ CRF.decode self emissions1 full_road_emb A_list mask
     = CRF.decode self emissions2 full_road_emb A_list mask.
Proof.
  intros HE HA Hem1 Hem2 Ht1 Ht2 Hmask Hr1 Hr2 HT HB Hprefix Hsame.
  set (n := CRF.num_tags self) in *.
  pose proof (time_major_shape3 self seq_length batch_size HB n _ Hem1) as Hem1'.
  pose proof (time_major_shape3 self seq_length batch_size HB n _ Hem2) as Hem2'.
  pose proof (time_major_shape2 self seq_length batch_size HB O _ Ht1) as Ht1'.
  pose proof (time_major_shape2 self seq_length batch_size HB O _ Ht2) as Ht2'.
  pose proof (time_major_shape2 self seq_length batch_size HB false _ Hmask)
    as Hmask'.
  pose proof (time_major_Forall self _ O tags1 seq_length batch_size Ht1 HB Hr1)
    as Hr1'.
  pose proof (time_major_Forall self _ O tags2 seq_length batch_size Ht2 HB Hr2)
    as Hr2'.
  (* the hypotheses, read on the time-major tensors *)
  assert (Hrun : forall b, (b < batch_size)%nat ->
            exists len,
              prefix_mask (time_major self false mask) seq_length b len
              /\ (forall t, (t < len)%nat ->
                    emission_row (time_major self [] emissions1) t b
                    = emission_row (time_major self [] emissions2) t b)
              /\ (forall t, (t < len)%nat ->
                    tag_at (time_major self O tags1) t b
                    = tag_at (time_major self O tags2) t b)).
  { intros b Hb. destruct (Hprefix b Hb) as [len [Hlen Hm]]. exists len.
    assert (Hat : forall t, (t < seq_length)%nat ->
                    mask_at (time_major self false mask) t b
                    = input_at self false mask t b).
    { intros t Ht. unfold mask_at.
      apply (time_major_at self seq_length batch_size HB); assumption. }
    split; [split; [exact Hlen|] |].
    - intros t Ht. rewrite Hat by exact Ht. apply Hm. exact Ht.
    - assert (Hvalid : forall t, (t < len)%nat ->
                input_at self false mask t b = true).
      { intros t Ht. rewrite Hm by lia. apply Nat.ltb_lt. exact Ht. }
      split; intros t Ht.
      + unfold emission_row.
        rewrite !(time_major_at self seq_length batch_size HB [])
          by (try apply (input_shape3_shape2 self seq_length batch_size n);
              assumption || lia).
        apply (Hsame t b); [lia | exact Hb | apply Hvalid; exact Ht].
      + unfold tag_at.
        rewrite !(time_major_at self seq_length batch_size HB O)
          by (assumption || lia).
        apply (Hsame t b); [lia | exact Hb | apply Hvalid; exact Ht]. }
  split.
  - destruct (compute_score_ok self full_road_emb A_list _ _ _
                seq_length batch_size n emb_dim HE HA Hem1' Ht1' Hmask' Hr1' HT)
      as [score1 [Hs1 [Hl1 Hv1]]].
    destruct (compute_score_ok self full_road_emb A_list _ _ _
                seq_length batch_size n emb_dim HE HA Hem2' Ht2' Hmask' Hr2' HT)
      as [score2 [Hs2 [Hl2 Hv2]]].
    exists score1. split; [exact Hs1|]. split; [| exact Hl1].
    rewrite Hs2. f_equal.
    apply nth_ext with (d := 0) (d' := 0); [lia|].
    intros b Hb. rewrite Hl2 in Hb. rewrite Hv1, Hv2 by exact Hb.
    destruct (Hrun b Hb) as [len [Hp [He Htg]]].
    symmetry. apply (gold_score_agree self full_road_emb A_list _ _ _ _ _
                       seq_length b len Hp He Htg).
  - rewrite !decode_time_major.
    apply nth_ext with (d := []) (d' := []).
    + rewrite (viterbi_decode_length self full_road_emb A_list _ _ seq_length
                 batch_size Hmask' HT).
      rewrite (viterbi_decode_length self full_road_emb A_list _ _ seq_length
                 batch_size Hmask' HT).
      reflexivity.
    + intros b Hb.
      rewrite (viterbi_decode_length self full_road_emb A_list _ _ seq_length
                 batch_size Hmask' HT) in Hb.
      rewrite (viterbi_decode_row self full_road_emb A_list _ _ seq_length
                 batch_size Hem1' Hmask' HT b Hb).
      rewrite (viterbi_decode_row self full_road_emb A_list _ _ seq_length
                 batch_size Hem2' Hmask' HT b Hb).
      destruct (Hrun b Hb) as [len [Hp [He _]]].
      rewrite (seq_ends_prefix _ seq_length batch_size b len Hmask' Hb Hp).
      apply (trace_row_agree self _ _ _ seq_length b len Hp He).
Qed.

Definition perturbed_emissions : tensor3 := [[[0; 1]; [7; 7]]].

Lemma masked_positions_are_ignored_witness :
  (exists score : tensor1,
     CRF._compute_score crf2_batch_first
                        (time_major crf2_batch_first [] padded_emissions)
                        (time_major crf2_batch_first O [[O; 1%nat]]) emb2 eye2
                        (time_major crf2_batch_first false padded_mask) = Ok score
     /\ CRF._compute_score crf2_batch_first
                           (time_major crf2_batch_first [] perturbed_emissions)
                           (time_major crf2_batch_first O [[O; O]]) emb2 eye2
                           (time_major crf2_batch_first false padded_mask) = Ok score
     /\ length score = 1%nat)
  /\ CRF.decode crf2_batch_first padded_emissions emb2 eye2 padded_mask
     = CRF.decode crf2_batch_first perturbed_emissions emb2 eye2 padded_mask.
Proof.
  apply (masked_positions_are_ignored crf2_batch_first padded_emissions
           perturbed_emissions [[O; 1%nat]] [[O; O]] emb2 eye2 padded_mask 2 1 1).
  - exact emb2_shape.
  - exact eye2_shape.
  - split; [reflexivity|]. repeat constructor.
  - split; [reflexivity|]. repeat constructor.
  - split; [reflexivity|]. repeat constructor.
  - split; [reflexivity|]. repeat constructor.
  - split; [reflexivity|]. repeat constructor.
  - repeat constructor.
  - repeat constructor.
  - lia.
  - lia.
  - intros b Hb. exists 1%nat. split; [lia|]. intros t Ht.
    assert (b = O) as -> by lia.
    destruct t as [|[|t]]; [reflexivity | reflexivity | lia].
  - intros t b Ht Hb Hm. assert (b = O) as -> by lia.
    destruct t as [|[|t]]; [split; reflexivity | discriminate Hm | lia].
Defined.

(** ** The forward recursion of the decoder, step by step *)

(** The maximum that one step takes for the next tag [c] ranges over every
    previous tag. *)
Lemma max_over_previous_spec (self : CRF.t) (trans : tensor2)
    (score_j emission : tensor1) (c : nat) :
  length score_j = CRF.num_tags self ->
  shape2 (CRF.num_tags self) (CRF.num_tags self) trans ->
  length emission = CRF.num_tags self ->
  (c < CRF.num_tags self)%nat ->
  let r := CRF.max_over_previous self trans score_j emission in
  let candidate p := nth p score_j 0 + nth c (nth p trans []) 0 + nth c emission 0 in
  (forall p, (p < CRF.num_tags self)%nat -> candidate p <= nth c (fst r) 0)
  /\ (nth c (snd r) O < CRF.num_tags self)%nat
  /\ nth c (fst r) 0 = candidate (nth c (snd r) O).
Proof.
  intros Hs Ht He Hc r candidate. subst r. unfold CRF.max_over_previous.
  cbn [fst snd]. rewrite !map_map.
  rewrite (nth_map_seq (fun x => fst (max_dim0 (col 0 x (broadcast_add score_j trans emission)))))
    by exact Hc.
  rewrite (nth_map_seq (fun x => snd (max_dim0 (col 0 x (broadcast_add score_j trans emission)))))
    by exact Hc.
  set (column := col 0 c (broadcast_add score_j trans emission)).
  assert (Hlen : length column = CRF.num_tags self)
    by (apply broadcast_add_col_length; assumption).
  assert (Hne : column <> []).
  { intros Hnil. rewrite Hnil in Hlen. simpl in Hlen. lia. }
  destruct (max_dim0_spec column Hne) as [Hk [Hnth [Hmax _]]].
  assert (Hentry : forall p, (p < CRF.num_tags self)%nat ->
                     nth p column 0 = candidate p).
  { intros p Hp. apply (broadcast_add_entry _ _ _ (CRF.num_tags self)); assumption. }
  repeat split.
  - intros p Hp. rewrite <- Hentry by exact Hp. apply Hmax. lia.
  - lia.
  - rewrite <- Hentry by lia. symmetry. exact Hnth.
Qed.

(** The same module with another beam size. *)
Definition with_beam_size (self : CRF.t) (beam : nat) : CRF.t :=
  {| CRF.num_tags := CRF.num_tags self;
     CRF.batch_first := CRF.batch_first self;
     CRF.device := CRF.device self;
     CRF.beam_size := beam;
     CRF.neg_nums := CRF.neg_nums self;
     CRF.W_weight := CRF.W_weight self;
     CRF.W_bias := CRF.W_bias self |}.

(** C2, as the code has it.  At a valid step [i >= 1] the new score of every
    next tag [c] is the maximum of [score[p] + trans[p][c] + emission[c]] over
    all [num_tags] previous tags [p], attained at the recorded backpointer;
    [beam_size] plays no part in decoding. *)
Theorem viterbi_step_ranges_over_all_tags
    (self : CRF.t) (trans : tensor2) (emissions : tensor3)
    (mask : list (list bool)) (seq_length batch_size : nat)
    (st : CRF.viterbi_state) (i b c : nat) :
  shape2 seq_length batch_size mask ->
  shape2 (CRF.num_tags self) (CRF.num_tags self) trans ->
  length (CRF.score st) = batch_size ->
  length (CRF.next_score st) = batch_size ->
  length (CRF.indices st) = batch_size ->
  length (nth b (CRF.score st) []) = CRF.num_tags self ->
  length (emission_row emissions i b) = CRF.num_tags self ->
  (1 <= i < seq_length)%nat -> (b < batch_size)%nat ->
  (c < CRF.num_tags self)%nat ->
  mask_at mask i b = true ->
  let st' := CRF.viterbi_step self trans emissions mask batch_size st i in
  let candidate p :=
    nth p (nth b (CRF.score st) []) 0 + nth c (nth p trans []) 0
    + nth c (emission_row emissions i b) 0 in
  let backpointer := nth c (nth b (CRF.indices st') []) O in
  (forall p, (p < CRF.num_tags self)%nat ->
     candidate p <= nth c (nth b (CRF.score st') []) 0)
  /\ (backpointer < CRF.num_tags self)%nat
  /\ nth c (nth b (CRF.score st') []) 0 = candidate backpointer
  /\ forall beam full_road_emb A_list,
       CRF.decode (with_beam_size self beam) emissions full_road_emb A_list mask
       = CRF.decode self emissions full_road_emb A_list mask.
Proof.
  intros Hmask Htrans Hs Hn Hx Hrow Hem Hi Hb Hc Hvalid st' candidate backpointer.
  destruct (viterbi_step_rows self trans emissions mask seq_length batch_size
              Hmask st i (proj2 Hi) Hs Hn Hx) as [_ [_ [_ [_ Hrows]]]].
  destruct (Hrows b Hb) as [Hix Hsc].
  subst st' backpointer. rewrite Hix, Hsc, Hvalid.
  destruct (max_over_previous_spec self trans (nth b (CRF.score st) [])
              (emission_row emissions i b) c Hrow Htrans Hem Hc)
    as [Hmax [Hk Hat]].
  repeat split; try assumption.
Qed.

(** *** Running the model on concrete tensors *)

(** Unfold the model down to arithmetic on reals, then settle each [relu]
    and each comparison of [torch.max] by linear arithmetic. *)
Ltac eval_model :=
  cbv -[Rplus Rmult Rminus Ropp Rdiv Rinv Rle_dec Rmax IZR INR exp ln
        Rle Rlt Rge Rgt].

Ltac decide_relu :=
  repeat match goal with
         | |- context [Rmax 0 ?x] =>
             first [ rewrite (Rmax_right 0 x) by lra
                   | rewrite (Rmax_left 0 x) by lra ]
         end.

Ltac decide_le :=
  repeat match goal with
         | |- context [Rle_dec ?a ?b] =>
             lazymatch a with context [Rle_dec _ _] => fail | _ => idtac end;
             lazymatch b with context [Rle_dec _ _] => fail | _ => idtac end;
             destruct (Rle_dec a b); [ try (exfalso; lra) | try (exfalso; lra) ];
             cbv beta iota
         end.

Ltac run_model := eval_model; decide_relu; decide_le; try reflexivity.

(** One batch element, three steps, the last one padding. *)
Definition ems3 : tensor3 := [[[5; 0]]; [[0; 10]]; [[0; 0]]].
Definition mask3 : list (list bool) := [[true]; [true]; [false]].

Definition initial_state3 : CRF.viterbi_state :=
  {| CRF.score := nth 0 ems3 [];
     CRF.next_score := repeat (repeat 0 2) 1;
     CRF.indices := repeat (repeat O 2) 1;
     CRF.history := [] |}.

Lemma mask3_shape : shape2 3 1 mask3.
Proof. split; [reflexivity | repeat constructor]. Qed.

Lemma viterbi_step_ranges_over_all_tags_witness :
  let st' := CRF.viterbi_step crf2 eye2 ems3 mask3 1 initial_state3 1 in
  let candidate p :=
    nth p (nth 0 (CRF.score initial_state3) []) 0 + nth 0 (nth p eye2 []) 0
    + nth 0 (emission_row ems3 1 0) 0 in
  let backpointer := nth 0 (nth 0 (CRF.indices st') []) O in
  (forall p, (p < CRF.num_tags crf2)%nat ->
     candidate p <= nth 0 (nth 0 (CRF.score st') []) 0)
  /\ (backpointer < CRF.num_tags crf2)%nat
  /\ nth 0 (nth 0 (CRF.score st') []) 0 = candidate backpointer
  /\ forall beam full_road_emb A_list,
       CRF.decode (with_beam_size crf2 beam) ems3 full_road_emb A_list mask3
       = CRF.decode crf2 ems3 full_road_emb A_list mask3.
Proof.
  apply (viterbi_step_ranges_over_all_tags crf2 eye2 ems3 mask3 3 1
           initial_state3 1 0 0).
  - exact mask3_shape.
  - exact eye2_shape.
  - reflexivity.
  - reflexivity.
  - reflexivity.
  - reflexivity.
  - reflexivity.
  - lia.
  - lia.
  - simpl; lia.
  - reflexivity.
Defined.

(** The reading of C2 in the specification: for every next tag there is a
    beam of at most [beam_size] candidate previous tags, and the backpointer
    that a step records always lies in it. *)
Definition beam_restricted (self : CRF.t) (trans : tensor2) : Prop :=
  exists beam : nat -> list nat,
    (forall c, (length (beam c) <= CRF.beam_size self)%nat)
    /\ forall (score_j emission : tensor1) (c : nat),
         length score_j = CRF.num_tags self ->
         length emission = CRF.num_tags self ->
         (c < CRF.num_tags self)%nat ->
         In (nth c (snd (CRF.max_over_previous self trans score_j emission)) O)
            (beam c).

(** With two tags, identity adjacency and [beam_size = 1], the step for the
    next tag 0 picks the previous tag 0 on one score row and the previous
    tag 1, which is not adjacent to 0, on another: no beam of one candidate
    holds both. *)
Lemma viterbi_step_not_beam_restricted :
  CRF.beam_size crf2 = 1%nat
  /\ nth 0 (nth 1 eye2 []) 0 = 0
  /\ nth 0 (snd (CRF.max_over_previous crf2 (CRF.transitions crf2 emb2 eye2)
                                       [0; 10] [0; 0])) O = 1%nat
  /\ ~ beam_restricted crf2 (CRF.transitions crf2 emb2 eye2).
Proof.
  assert (H1 : nth 0 (snd (CRF.max_over_previous crf2 (CRF.transitions crf2 emb2 eye2)
                                                 [0; 10] [0; 0])) O = 1%nat)
    by run_model.
  assert (H0 : nth 0 (snd (CRF.max_over_previous crf2 (CRF.transitions crf2 emb2 eye2)
                                                 [10; 0] [0; 0])) O = O)
    by run_model.
  split; [reflexivity|]. split; [reflexivity|]. split; [exact H1|].
  intros [beam [Hsize Hin]].
  pose proof (Hin [0; 10] [0; 0] O eq_refl eq_refl ltac:(simpl; lia)) as Hin1.
  pose proof (Hin [10; 0] [0; 0] O eq_refl eq_refl ltac:(simpl; lia)) as Hin0.
  rewrite H1 in Hin1. rewrite H0 in Hin0.
  specialize (Hsize O). change (CRF.beam_size crf2) with 1%nat in Hsize.
  destruct (beam O) as [|x [|y l]]; simpl in *.
  - exact Hin1.
  - destruct Hin1 as [Hx1 | []]. destruct Hin0 as [Hx0 | []]. congruence.
  - lia.
Qed.

(** C3, as the code has it.  At a step whose mask value is 0 for a batch
    element, the score row of that element is carried forward unchanged;
    the backpointers recorded for the step are the arg-max indices computed
    at that step from the carried score row and appended to the history. *)
Theorem masked_step_carries_score
    (self : CRF.t) (trans : tensor2) (emissions : tensor3)
    (mask : list (list bool)) (seq_length batch_size : nat)
    (st : CRF.viterbi_state) (i b : nat) :
  shape2 seq_length batch_size mask ->
  length (CRF.score st) = batch_size ->
  length (CRF.next_score st) = batch_size ->
  length (CRF.indices st) = batch_size ->
  (1 <= i < seq_length)%nat -> (b < batch_size)%nat ->
  mask_at mask i b = false ->
  let st' := CRF.viterbi_step self trans emissions mask batch_size st i in
  nth b (CRF.score st') [] = nth b (CRF.score st) []
  /\ CRF.history st' = CRF.history st ++ [CRF.indices st']
  /\ nth b (CRF.indices st') []
     = snd (CRF.max_over_previous self trans (nth b (CRF.score st) [])
                                  (emission_row emissions i b)).
Proof.
  intros Hmask Hs Hn Hx Hi Hb Hpad st'.
  destruct (viterbi_step_rows self trans emissions mask seq_length batch_size
              Hmask st i (proj2 Hi) Hs Hn Hx) as [_ [_ [_ [Hhist Hrows]]]].
  destruct (Hrows b Hb) as [Hix Hsc].
  subst st'. rewrite Hsc, Hpad. repeat split; assumption.
Qed.

(** The state of the run on [ems3] after its first step. *)
Definition state3_after_step1 : CRF.viterbi_state :=
  CRF.viterbi_step crf2 (CRF.transitions crf2 emb2 eye2) ems3 mask3 1
                   initial_state3 1.

Lemma state3_after_step1_lengths :
  length (CRF.score state3_after_step1) = 1%nat
  /\ length (CRF.next_score state3_after_step1) = 1%nat
  /\ length (CRF.indices state3_after_step1) = 1%nat.
Proof. repeat split. Qed.

Lemma masked_step_carries_score_witness :
  let st' := CRF.viterbi_step crf2 (CRF.transitions crf2 emb2 eye2) ems3 mask3 1
                              state3_after_step1 2 in
  nth 0 (CRF.score st') [] = nth 0 (CRF.score state3_after_step1) []
  /\ CRF.history st' = CRF.history state3_after_step1 ++ [CRF.indices st']
  /\ nth 0 (CRF.indices st') []
     = snd (CRF.max_over_previous crf2 (CRF.transitions crf2 emb2 eye2)
                                  (nth 0 (CRF.score state3_after_step1) [])
                                  (emission_row ems3 2 0)).
Proof.
  apply (masked_step_carries_score crf2 (CRF.transitions crf2 emb2 eye2) ems3
           mask3 3 1 state3_after_step1 2 0).
  - exact mask3_shape.
  - exact (proj1 state3_after_step1_lengths).
  - exact (proj1 (proj2 state3_after_step1_lengths)).
  - exact (proj2 (proj2 state3_after_step1_lengths)).
  - lia.
  - lia.
  - reflexivity.
Defined.

(** The reading of C3 in the specification: the backpointers recorded for a
    masked step are those of the step before. *)
Definition masked_steps_carry_backpointers (self : CRF.t) (emissions : tensor3)
    (full_road_emb A_list : tensor2) (mask : list (list bool)) : Prop :=
  let st := CRF.viterbi_forward self emissions full_road_emb A_list mask in
  forall i b, (2 <= i < length mask)%nat -> (b < ncols mask)%nat ->
    mask_at mask i b = false ->
    nth b (nth (i - 1) (CRF.history st) []) []
    = nth b (nth (i - 2) (CRF.history st) []) [].

(** On [ems3] step 2 is masked; step 1 records the backpointers [0; 0] and
    step 2 records [1; 1]. *)
Lemma masked_step_records_new_backpointers :
  mask_at mask3 2 0 = false
  /\ CRF.history (CRF.viterbi_forward crf2 ems3 emb2 eye2 mask3)
     = [[[O; O]]; [[1%nat; 1%nat]]]
  /\ ~ masked_steps_carry_backpointers crf2 ems3 emb2 eye2 mask3.
Proof.
  assert (Hhist : CRF.history (CRF.viterbi_forward crf2 ems3 emb2 eye2 mask3)
                  = [[[O; O]]; [[1%nat; 1%nat]]]) by run_model.
  split; [reflexivity|]. split; [exact Hhist|].
  intros Hcarry. unfold masked_steps_carry_backpointers in Hcarry.
  specialize (Hcarry 2%nat O ltac:(unfold mask3; simpl; lia)
                      ltac:(unfold mask3, ncols; simpl; lia) eq_refl).
  rewrite Hhist in Hcarry. simpl in Hcarry. discriminate Hcarry.
Qed.

(** ** The training entry point *)

(** The number of valid positions of a mask. *)
Definition count_true (l : list bool) : nat := length (filter (fun x : bool => x) l).

Definition valid_positions (mask : list (list bool)) : nat :=
  count_true (concat mask).

Lemma sum_float_of_bool (l : list bool) :
  sum (map float_of_bool l) = INR (count_true l).
Proof.
  unfold sum, count_true. induction l as [|x l IH]; [reflexivity|].
  destruct x; cbn [map fold_right filter float_of_bool].
  - cbn [length]. rewrite S_INR, IH. lra.
  - rewrite IH. lra.
Qed.

Lemma count_true_app (l1 l2 : list bool) :
  count_true (l1 ++ l2) = (count_true l1 + count_true l2)%nat.
Proof. unfold count_true. rewrite filter_app, length_app. reflexivity. Qed.

Lemma count_true_concat_map (f : nat -> list bool) (l : list nat) :
  count_true (concat (map f l)) = list_sum (map (fun j => count_true (f j)) l).
Proof.
  induction l as [|j l IH]; [reflexivity|].
  cbn [map concat list_sum fold_right]. rewrite count_true_app, IH. reflexivity.
Qed.

Lemma list_sum_map_add (f g : nat -> nat) (l : list nat) :
  list_sum (map (fun j => (f j + g j)%nat) l)
  = (list_sum (map f l) + list_sum (map g l))%nat.
Proof.
  induction l as [|j l IH]; [reflexivity|].
  cbn [map list_sum fold_right]. fold (list_sum (map f l)).
  fold (list_sum (map g l)). fold (list_sum (map (fun j => (f j + g j)%nat) l)).
  rewrite IH. lia.
Qed.

Lemma count_true_by_index (row : list bool) :
  list_sum (map (fun j => count_true [nth j row false]) (seq 0 (length row)))
  = count_true row.
Proof.
  rewrite <- (count_true_concat_map (fun j => [nth j row false])).
  f_equal. rewrite <- flat_map_concat_map.
  assert (H : forall (l : list bool) s,
            flat_map (fun j => [nth (j - s) l false]) (seq s (length l)) = l).
  { induction l as [|x l IH]; intros s; [reflexivity|].
    cbn [length seq flat_map app]. rewrite Nat.sub_diag. cbn [nth]. f_equal.
    rewrite <- (IH (S s)) at 2. rewrite !flat_map_concat_map. f_equal.
    apply map_ext_in. intros j Hj. apply in_seq in Hj.
    replace (j - s)%nat with (S (j - S s)) by lia. reflexivity. }
  rewrite <- (H row O) at 2. rewrite !flat_map_concat_map. f_equal.
  apply map_ext. intros j. rewrite Nat.sub_0_r. reflexivity.
Qed.

(** Transposing a mask keeps its number of valid positions. *)
Lemma valid_positions_transpose (mask : list (list bool)) (r c : nat) :
  shape2 r c mask -> (1 <= r)%nat ->
  valid_positions (transpose false mask) = valid_positions mask.
Proof.
  intros Hm Hr. unfold valid_positions, transpose.
  rewrite (ncols_shape2 r c mask Hm Hr), count_true_concat_map.
  destruct Hm as [_ Hrows]. clear Hr r.
  induction mask as [|row mask IH].
  - unfold col. cbn [map concat]. clear. induction (seq 0 c); [reflexivity|].
    cbn [map list_sum fold_right]. exact IHl.
  - inversion Hrows as [|? ? Hrow Hrest]; subst.
    cbn [concat]. rewrite count_true_app, <- (IH Hrest).
    rewrite <- (count_true_by_index row), <- list_sum_map_add.
    f_equal. apply map_ext. intros j. unfold col. cbn [map].
    change (nth j row false :: map (fun row0 => nth j row0 false) mask)
      with ([nth j row false] ++ map (fun row0 => nth j row0 false) mask).
    apply count_true_app.
Qed.

Lemma valid_positions_time_major (self : CRF.t) (mask : list (list bool))
    (seq_length batch_size : nat) :
  input_shape2 self seq_length batch_size mask -> (1 <= batch_size)%nat ->
  valid_positions (time_major self false mask) = valid_positions mask.
Proof.
  unfold input_shape2, time_major. destruct (CRF.batch_first self); intros H HB.
  - apply (valid_positions_transpose mask batch_size seq_length); assumption.
  - reflexivity.
Qed.

Lemma zip_with_by_index (op : R -> R -> R) (u v : tensor1) (n : nat) :
  length u = n -> length v = n ->
  zip_with op u v = map (fun b => op (nth b u 0) (nth b v 0)) (seq 0 n).
Proof.
  intros Hu Hv. apply nth_ext with (d := 0) (d' := 0).
  - rewrite zip_with_length, length_map, length_seq. lia.
  - intros b Hb. rewrite zip_with_length in Hb.
    rewrite (nth_zip_with _ _ _ _ _ 0 0) by lia.
    rewrite nth_map_seq by lia. reflexivity.
Qed.

(** C9. [forward] returns the sum over the batch of (gold score minus
    normalizer) divided by the number of valid positions of the whole
    batch. *)
Theorem forward_is_normalized_sum
    (G : Generator) (self : CRF.t) (emissions : tensor3) (tags : list (list nat))
    (full_road_emb A_list : tensor2) (mask : list (list bool))
    (seq_length batch_size emb_dim : nat) (s : rng G) :
  shape2 (CRF.num_tags self) emb_dim full_road_emb ->
  shape2 (CRF.num_tags self) (CRF.num_tags self) A_list ->
  input_shape3 self seq_length batch_size (CRF.num_tags self) emissions ->
  input_shape2 self seq_length batch_size tags ->
  input_shape2 self seq_length batch_size mask ->
  Forall (Forall (fun a => (a < CRF.num_tags self)%nat)) tags ->
  (1 <= seq_length)%nat ->
  (1 <= batch_size)%nat ->
  (CRF.neg_nums self <= CRF.num_tags self)%nat ->
  (1 <= CRF.num_tags self)%nat ->
  exists (numerator denominator : tensor1) (s' : rng G),
    CRF._compute_score self (time_major self [] emissions) (time_major self O tags)
                       full_road_emb A_list (time_major self false mask)
    = Ok numerator
    /\ CRF._compute_normalizer G self (time_major self [] emissions) full_road_emb
                               A_list (time_major self false mask) numerator s
       = (Ok denominator, s')
    /\ length numerator = batch_size
    /\ length denominator = batch_size
    /\ CRF.forward G self emissions tags full_road_emb A_list mask s
       = (Ok (sum (map (fun b => nth b numerator 0 - nth b denominator 0)
                       (seq 0 batch_size))
              / INR (valid_positions mask)),
          s').
Proof.
  intros HE HA Hem Htags Hmask Hrange HT HB Hk Hn.
  pose proof (time_major_shape3 self seq_length batch_size HB _ _ Hem) as Hem'.
  pose proof (time_major_shape2 self seq_length batch_size HB O _ Htags) as Htags'.
  pose proof (time_major_shape2 self seq_length batch_size HB false _ Hmask)
    as Hmask'.
  pose proof (time_major_Forall self _ O tags seq_length batch_size Htags HB Hrange)
    as Hrange'.
  destruct (compute_score_ok self full_road_emb A_list _ _ _ seq_length batch_size
              (CRF.num_tags self) emb_dim HE HA Hem' Htags' Hmask' Hrange' HT)
    as [numerator [Hscore [Hlen _]]].
  pose proof (compute_normalizer_run G self full_road_emb A_list
                (time_major self [] emissions) (time_major self false mask)
                numerator s Hk Hn) as Hnorm.
  pose proof (normalizer_of_length self full_road_emb A_list
                (time_major self [] emissions) (time_major self false mask)
                seq_length batch_size (CRF.num_tags self) Hem' Hmask' HT
                (drawn G self s) numerator Hlen) as Hlen'.
  eexists numerator, _, _.
  split; [exact Hscore|]. split; [exact Hnorm|].
  split; [exact Hlen|]. split; [exact Hlen'|].
  unfold CRF.forward.
  change (if CRF.batch_first self then transpose [] emissions else emissions)
    with (time_major self [] emissions).
  change (if CRF.batch_first self then transpose O tags else tags)
    with (time_major self O tags).
  change (if CRF.batch_first self then transpose false mask else mask)
    with (time_major self false mask).
  unfold bindM at 1. unfold retM at 1. rewrite Hscore.
  unfold bindM. rewrite Hnorm. unfold retM.
  rewrite sum_float_of_bool.
  fold (valid_positions (time_major self false mask)).
  rewrite (valid_positions_time_major self mask seq_length batch_size Hmask HB).
  rewrite (zip_with_by_index Rminus _ _ batch_size Hlen Hlen').
  reflexivity.
Qed.

(** One batch element with two steps, both valid, given batch-first. *)
Definition two_step_emissions : tensor3 := [[[0; 1]; [3; 0]]].

Lemma forward_is_normalized_sum_witness :
  exists (numerator denominator : tensor1) (s' : nat),
    CRF._compute_score crf2_batch_first
                       (time_major crf2_batch_first [] two_step_emissions)
                       (time_major crf2_batch_first O [[O; 1%nat]]) emb2 eye2
                       (time_major crf2_batch_first false [[true; true]])
    = Ok numerator
    /\ CRF._compute_normalizer rotating crf2_batch_first
                               (time_major crf2_batch_first [] two_step_emissions)
                               emb2 eye2
                               (time_major crf2_batch_first false [[true; true]])
                               numerator O
       = (Ok denominator, s')
    /\ length numerator = 1%nat
    /\ length denominator = 1%nat
    /\ CRF.forward rotating crf2_batch_first two_step_emissions [[O; 1%nat]]
                   emb2 eye2 [[true; true]] O
       = (Ok (sum (map (fun b => nth b numerator 0 - nth b denominator 0) (seq 0 1))
              / INR (valid_positions [[true; true]])),
          s').
Proof.
  apply (forward_is_normalized_sum rotating crf2_batch_first two_step_emissions
           [[O; 1%nat]] emb2 eye2 [[true; true]] 2 1 1 O).
  - exact emb2_shape.
  - exact eye2_shape.
  - split; [reflexivity|]. repeat constructor.
  - split; [reflexivity|]. repeat constructor.
  - split; [reflexivity|]. repeat constructor.
  - repeat constructor.
  - lia.
  - lia.
  - simpl; lia.
  - simpl; lia.
Defined.

(** ** What the outputs depend on *)

(** The rotating generator draws the tag set [[0]] in state 0 and again in
    state 2, and the tag set [[1]] in state 1. *)
Lemma rotating_draws :
  drawn rotating crf2 O = [O]
  /\ drawn rotating crf2 1%nat = [1%nat]
  /\ drawn rotating crf2 2%nat = [O].
Proof. repeat split. Qed.

Lemma rotating_lawful : lawful rotating.
Proof.
  intros n s. cbn [rotating permutation fst].
  destruct (Nat.eq_dec n 0) as [-> | Hn]; [constructor|].
  apply NoDup_Permutation_bis.
  - apply Finite.Injective_map_NoDup_in; [| apply seq_NoDup].
    intros i j Hi Hj Heq. apply in_seq in Hi. apply in_seq in Hj.
    pose proof (Nat.div_mod_eq (i + s) n) as Di.
    pose proof (Nat.div_mod_eq (j + s) n) as Dj.
    rewrite Heq in Di.
    assert (Hq : ((i + s) / n = (j + s) / n)%nat) by nia.
    rewrite Hq in Di. lia.
  - rewrite length_map. lia.
  - intros x Hx. apply in_map_iff in Hx. destruct Hx as [i [<- Hi]].
    apply in_seq. pose proof (Nat.mod_upper_bound (i + s) n Hn). lia.
Qed.


(** ** The sample size *)

(** C8, as the code has it.  Building the module never raises, whatever the
    sample size.  On tensors of the documented shapes, a sample size above
    [num_tags] raises [ValueError] when the normalizer is called, at the draw
    and before the generator advances; a sample size of at most [num_tags],
    with at least one tag, raises nothing: the normalizer returns one value
    per batch element after one draw.

    The hypotheses are those under which the code reads the entries that the
    embedding reads: the layer has the shape that [nn.Linear(emb_dim,
    emb_dim)] gives it, the tensors have the documented shapes, and the
    generator returns permutations, so that the sampled tags index the
    emissions and the transition matrix. *)
Theorem sample_size_is_checked_by_the_draw
    (G : Generator) (num_tags emb_dim : nat) (weight : tensor2) (bias : tensor1)
    (beam_size neg_nums : nat) (device : string) (batch_first : bool)
    (emissions : tensor3) (full_road_emb A_list : tensor2)
    (mask : list (list bool)) (numerator : tensor1)
    (seq_length batch_size : nat) (s : rng G) :
  lawful G ->
  shape2 emb_dim emb_dim weight ->
  length bias = emb_dim ->
  shape2 num_tags emb_dim full_road_emb ->
  shape2 num_tags num_tags A_list ->
  shape3 seq_length batch_size num_tags emissions ->
  shape2 seq_length batch_size mask ->
  length numerator = batch_size ->
  (1 <= seq_length)%nat ->
  (1 <= batch_size)%nat ->
  exists self : CRF.t,
    CRF.__init__ num_tags emb_dim weight bias beam_size neg_nums device batch_first
    = Ok self
    /\ CRF.num_tags self = num_tags
    /\ CRF.neg_nums self = neg_nums
    /\ ((num_tags < neg_nums)%nat ->
        CRF._compute_normalizer G self emissions full_road_emb A_list mask
                                numerator s = (Raise ValueError, s))
    /\ ((neg_nums <= num_tags)%nat -> (1 <= num_tags)%nat ->
        exists denominator : tensor1,
          CRF._compute_normalizer G self emissions full_road_emb A_list mask
                                  numerator s
          = (Ok denominator, snd (permutation G num_tags s))
          /\ length denominator = batch_size).
Proof.
  intros _ _ _ _ _ Hem Hmask Hnum HT _.
  eexists. split; [reflexivity|]. cbn [CRF.num_tags CRF.neg_nums].
  split; [reflexivity|]. split; [reflexivity|]. split.
  - intros Hlt. apply compute_normalizer_too_large. exact Hlt.
  - intros Hle Hpos. eexists. split.
    + apply compute_normalizer_run; assumption.
    + apply (normalizer_of_length _ _ _ emissions mask seq_length batch_size
               num_tags); assumption.
Qed.

Lemma sample_size_is_checked_by_the_draw_witness :
  exists self : CRF.t,
    CRF.__init__ 2 1 [[1]] [0] 5 2 "cpu" false = Ok self
    /\ CRF.num_tags self = 2%nat
    /\ CRF.neg_nums self = 2%nat
    /\ ((2 < 2)%nat ->
        CRF._compute_normalizer rotating self one_step_emissions emb2 eye2
                                [[true]] [0] O = (Raise ValueError, O))
    /\ ((2 <= 2)%nat -> (1 <= 2)%nat ->
        exists denominator : tensor1,
          CRF._compute_normalizer rotating self one_step_emissions emb2 eye2
                                  [[true]] [0] O
          = (Ok denominator, snd (permutation rotating 2 O))
          /\ length denominator = 1%nat).
Proof.
  apply (sample_size_is_checked_by_the_draw rotating 2 1 [[1]] [0] 5 2 "cpu" false
           one_step_emissions emb2 eye2 [[true]] [0] 1 1 O).
  - exact rotating_lawful.
  - split; [reflexivity | repeat constructor].
  - reflexivity.
  - exact emb2_shape.
  - exact eye2_shape.
  - exact one_step_emissions_shape.
  - split; [reflexivity | repeat constructor].
  - reflexivity.
  - lia.
  - lia.
Defined.

(** A module built with [neg_nums = num_tags = 2]: the construction returns
    it, and its normalizer returns a value. *)
Lemma construction_accepts_full_sample :
  exists self : CRF.t,
    CRF.__init__ 2 1 [[1]] [0] 5 2 "cpu" false = Ok self
    /\ (CRF.num_tags self <= CRF.neg_nums self)%nat
    /\ exists denominator s',
         CRF._compute_normalizer rotating self one_step_emissions emb2 eye2
                                 [[true]] [0] O = (Ok denominator, s').
Proof.
  eexists. split; [reflexivity|]. split; [cbn; lia|].
  eexists _, _. apply compute_normalizer_run; cbn; lia.
Qed.

(** ** A complete run

    On [ems3] the decoder returns the path [0, 1] of the two valid steps and
    pads the third position; the scorer gives that path the score
    [5 + 0 + 10]. *)
Example decode_ems3 :
  CRF.decode crf2 ems3 emb2 eye2 mask3 = [[0; 1; -1]]%Z.
Proof. run_model. Qed.

Example compute_score_ems3 :
  exists score,
    CRF._compute_score crf2 ems3 [[O]; [1%nat]; [O]] emb2 eye2 mask3 = Ok [score]
    /\ score = 15.
Proof.
  eexists. split.
  - eval_model. decide_relu. reflexivity.
  - lra.
Qed.

(** * Further properties of the code *)

(** ** The score of a path *)

(** The value of the path [y] up to step [k]: the emission of its first tag,
    then, step by step, the transition entry from the previous tag and the
    emission of the current one. *)
Definition path_value (trans : tensor2) (e : nat -> list R) (y : nat -> nat)
    (k : nat) : R :=
  fold_left (fun s t => s + nth (y t) (nth (y (t - 1)%nat) trans []) 0
                        + nth (y t) (e t) 0)
            (seq 1 k) (nth (y O) (e O) 0).

Lemma path_value_S (trans : tensor2) (e : nat -> list R) (y : nat -> nat) (k : nat) :
  path_value trans e y (S k)
  = path_value trans e y k + nth (y (S k)) (nth (y k) trans []) 0
    + nth (y (S k)) (e (S k)) 0.
Proof.
  unfold path_value. rewrite seq_S, fold_left_app. cbn [fold_left Nat.add].
  replace (S k - 1)%nat with k by lia. reflexivity.
Qed.

Lemma path_value_sums (trans : tensor2) (e : nat -> list R) (y : nat -> nat)
    (k : nat) :
  path_value trans e y k
  = sum (map (fun t => nth (y t) (e t) 0) (seq 0 (S k)))
    + sum (map (fun t => nth (y t) (nth (y (t - 1)%nat) trans []) 0) (seq 1 k)).
Proof.
  induction k as [|k IH].
  - unfold path_value, sum. simpl. lra.
  - rewrite path_value_S, IH.
    rewrite (seq_S (S k) 0), (seq_S k 1), !map_app, !sum_app.
    cbn [map Nat.add]. replace (S k - 1)%nat with k by lia.
    unfold sum at 4 6. simpl. lra.
Qed.

Lemma path_value_agree (trans : tensor2) (e e' : nat -> list R)
    (y y' : nat -> nat) (k : nat) :
  (forall t, (t <= k)%nat -> y t = y' t /\ e t = e' t) ->
  path_value trans e y k = path_value trans e' y' k.
Proof.
  induction k as [|k IH]; intros H.
  - unfold path_value. simpl. destruct (H O (le_n _)) as [-> ->]. reflexivity.
  - rewrite !path_value_S, IH by (intros t Ht; apply H; lia).
    destruct (H (S k) (le_n _)) as [-> ->].
    destruct (H k ltac:(lia)) as [-> _]. reflexivity.
Qed.

Lemma fold_left_id {S : Type} (f : S -> nat -> S) (range : list nat) (s : S) :
  (forall i s, In i range -> f s i = s) -> fold_left f range s = s.
Proof.
  revert s; induction range as [|i range IH]; intros s H; simpl; auto.
  rewrite (H i s (or_introl eq_refl)). apply IH.
  intros j s' Hj. apply H. right; exact Hj.
Qed.

(** Under a prefix mask the step-by-step sum of the scorer is the value of
    the gold path over its valid steps. *)
Lemma gold_score_path_value (self : CRF.t) (full_road_emb A_list : tensor2)
    (emissions : tensor3) (tags : list (list nat)) (mask : list (list bool))
    (seq_length emb_dim b len : nat) :
  shape2 (CRF.num_tags self) emb_dim full_road_emb ->
  shape2 (CRF.num_tags self) (CRF.num_tags self) A_list ->
  prefix_mask mask seq_length b len ->
  (forall t, (t < len)%nat -> (tag_at tags t b < CRF.num_tags self)%nat) ->
  gold_score self full_road_emb A_list emissions tags mask seq_length b
  = path_value (CRF.transitions self full_road_emb A_list)
               (fun t => emission_row emissions t b)
               (fun t => tag_at tags t b) (len - 1).
Proof.
  intros HE HA [Hlen Hmask] Hrange. unfold gold_score.
  replace (seq_length - 1)%nat with ((len - 1) + (seq_length - len))%nat by lia.
  rewrite seq_app, fold_left_app.
  rewrite fold_left_id.
  - unfold path_value. rewrite Rplus_0_l.
    change (gold_emission emissions tags 0 b)
      with (nth (tag_at tags 0 b) (emission_row emissions 0 b) 0).
    apply fold_left_agree. intros t s Ht. apply in_seq in Ht.
    unfold gold_step. rewrite Hmask by lia.
    destruct (Nat.ltb_spec t len) as [_ | Hge]; [| lia].
    rewrite (transitions_entry self full_road_emb A_list (CRF.num_tags self)
               emb_dim HE HA) by (apply Hrange; lia).
    unfold gold_emission, emission_row. simpl. lra.
  - intros t s Ht. apply in_seq in Ht. unfold gold_step.
    rewrite Hmask by lia.
    destruct (Nat.ltb_spec t len) as [Hlt | _]; [lia|]. simpl. lra.
Qed.

(** X1.  Under a prefix mask the scorer returns, for a batch element with
    [len] valid steps, the sum of the emissions of its gold tags over those
    steps plus the sum of the [transitions] entries between consecutive gold
    tags; steps beyond [len] add nothing. *)
Theorem scorer_sums_the_valid_steps
    (self : CRF.t) (emissions : tensor3) (tags : list (list nat))
    (full_road_emb A_list : tensor2) (mask : list (list bool))
    (seq_length batch_size emb_dim b len : nat) :
  shape2 (CRF.num_tags self) emb_dim full_road_emb ->
  shape2 (CRF.num_tags self) (CRF.num_tags self) A_list ->
  shape3 seq_length batch_size (CRF.num_tags self) emissions ->
  shape2 seq_length batch_size tags ->
  shape2 seq_length batch_size mask ->
  Forall (Forall (fun a => (a < CRF.num_tags self)%nat)) tags ->
  (b < batch_size)%nat ->
  prefix_mask mask seq_length b len ->
  exists score : tensor1,
    CRF._compute_score self emissions tags full_road_emb A_list mask = Ok score
    /\ nth b score 0
       = sum (map (fun t => nth (tag_at tags t b) (emission_row emissions t b) 0)
                  (seq 0 len))
         + sum (map (fun t => nth (tag_at tags t b)
                                  (nth (tag_at tags (t - 1)%nat b)
                                       (CRF.transitions self full_road_emb A_list)
                                       []) 0)
                    (seq 1 (len - 1))).
Proof.
  intros HE HA Hem Htags Hmask Hrange Hb Hprefix.
  pose proof Hprefix as [Hlen _].
  destruct (compute_score_ok self full_road_emb A_list emissions tags mask
              seq_length batch_size (CRF.num_tags self) emb_dim
              HE HA Hem Htags Hmask Hrange ltac:(lia)) as [score [Hscore [_ Hval]]].
  exists score. split; [exact Hscore|].
  rewrite (Hval b Hb).
  rewrite (gold_score_path_value self full_road_emb A_list emissions tags mask
             seq_length emb_dim b len HE HA Hprefix).
  - rewrite path_value_sums. replace (S (len - 1)) with len by lia. reflexivity.
  - intros t Ht.
    apply (tag_at_range tags seq_length batch_size (CRF.num_tags self));
      (assumption || lia).
Qed.

Definition tags3 : list (list nat) := [[O]; [1%nat]; [O]].

Lemma ems3_shape : shape3 3 1 2 ems3.
Proof. split; [reflexivity|]. repeat constructor. Qed.

Lemma tags3_shape : shape2 3 1 tags3.
Proof. split; [reflexivity | repeat constructor]. Qed.

Lemma mask3_prefix : prefix_mask mask3 3 0 2.
Proof.
  split; [lia|]. intros t Ht.
  destruct t as [|[|[|t]]]; [reflexivity | reflexivity | reflexivity | lia].
Qed.

Lemma scorer_sums_the_valid_steps_witness :
  exists score : tensor1,
    CRF._compute_score crf2 ems3 tags3 emb2 eye2 mask3 = Ok score
    /\ nth 0 score 0
       = sum (map (fun t => nth (tag_at tags3 t 0) (emission_row ems3 t 0) 0)
                  (seq 0 2))
         + sum (map (fun t => nth (tag_at tags3 t 0)
                                  (nth (tag_at tags3 (t - 1)%nat 0)
                                       (CRF.transitions crf2 emb2 eye2) []) 0)
                    (seq 1 (2 - 1))).
Proof.
  apply (scorer_sums_the_valid_steps crf2 ems3 tags3 emb2 eye2 mask3 3 1 1 0 2).
  - exact emb2_shape.
  - exact eye2_shape.
  - exact ems3_shape.
  - exact tags3_shape.
  - exact mask3_shape.
  - repeat constructor.
  - lia.
  - exact mask3_prefix.
Defined.

(** ** Exceptions of the scorer *)

Lemma bind_Ok_inv {A B : Type} (r : result A) (k : A -> result B) (y : B) :
  bind r k = Ok y -> exists a, r = Ok a /\ k a = Ok y.
Proof.
  destruct r as [a | e]; simpl; intros H; [| discriminate H].
  exists a. split; [reflexivity | exact H].
Qed.

Lemma index_Ok_inv {A : Type} (l : list A) (i : nat) (x d : A) :
  index l i = Ok x -> (i < length l)%nat /\ x = nth i l d.
Proof.
  unfold index. destruct (nth_error l i) as [a |] eqn:Hnth; intros H;
    [| discriminate H].
  injection H as <-. split.
  - apply nth_error_Some. rewrite Hnth. discriminate.
  - symmetry. apply nth_error_nth. exact Hnth.
Qed.

Lemma mapM_Ok_inv {A B : Type} (f : A -> result B) (l : list A) (ys : list B) :
  mapM f l = Ok ys -> forall x, In x l -> exists y, f x = Ok y.
Proof.
  revert ys; induction l as [|a l IH]; intros ys H x Hx; [destruct Hx|].
  simpl in H. apply bind_Ok_inv in H. destruct H as [b [Hb H]].
  apply bind_Ok_inv in H. destruct H as [bs [Hbs _]].
  destruct Hx as [<- | Hx]; [exists b; exact Hb | exact (IH bs Hbs x Hx)].
Qed.

Lemma for_each_Ok_inv {S : Type} (body : nat -> S -> result S) (range : list nat)
    (s s' : S) :
  for_each body range s = Ok s' ->
  forall i, In i range -> exists si si', body i si = Ok si'.
Proof.
  revert s; induction range as [|j range IH]; intros s H i Hi; [destruct Hi|].
  simpl in H. apply bind_Ok_inv in H. destruct H as [s1 [H1 H]].
  destruct Hi as [<- | Hi]; [exists s, s1; exact H1 | exact (IH s1 H i Hi)].
Qed.

(** A call that can raise nothing but [IndexError]. *)
Definition only_IndexError {A : Type} (r : result A) : Prop :=
  forall e, r = Raise e -> e = IndexError.

Lemma only_index {A : Type} (l : list A) (i : nat) : only_IndexError (index l i).
Proof.
  unfold only_IndexError, index. destruct (nth_error l i); intros e H;
    [discriminate H | injection H as <-; reflexivity].
Qed.

Lemma only_bind {A B : Type} (r : result A) (k : A -> result B) :
  only_IndexError r -> (forall a, only_IndexError (k a)) ->
  only_IndexError (bind r k).
Proof.
  intros Hr Hk e. destruct r as [a | e']; simpl; intros H.
  - exact (Hk a e H).
  - injection H as <-. apply Hr. reflexivity.
Qed.

Lemma only_Ok {A : Type} (a : A) : only_IndexError (Ok a).
Proof. intros e H. discriminate H. Qed.

Lemma only_mapM {A B : Type} (f : A -> result B) (l : list A) :
  (forall x, only_IndexError (f x)) -> only_IndexError (mapM f l).
Proof.
  intros Hf. induction l as [|a l IH]; simpl; [apply only_Ok|].
  apply only_bind; [apply Hf|]. intros b.
  apply only_bind; [exact IH|]. intros bs. apply only_Ok.
Qed.

Lemma only_index2_batch (A_list : tensor2) (tag1 tag2 : list nat) :
  only_IndexError (CRF.index2_batch A_list tag1 tag2).
Proof.
  revert tag2; induction tag1 as [|a tag1 IH]; intros [|b tag2]; simpl;
    try apply only_Ok.
  apply only_bind.
  - unfold CRF.index2. apply only_bind; [apply only_index|].
    intros row. apply only_index.
  - intros x. apply only_bind; [apply IH|]. intros xs. apply only_Ok.
Qed.

Lemma only_transition (self : CRF.t) (tag1 tag2 : list nat)
    (full_road_emb A_list : tensor2) :
  only_IndexError (CRF.transition self tag1 tag2 full_road_emb A_list).
Proof.
  unfold CRF.transition.
  apply only_bind; [apply only_mapM; intros x; apply only_index|]. intros rows1.
  apply only_bind; [apply only_mapM; intros x; apply only_index|]. intros emb2'.
  apply only_bind; [apply only_index2_batch|]. intros a. apply only_Ok.
Qed.

Lemma only_gather (emissions_i : tensor2) (batch_size : nat) (tags_i : list nat) :
  only_IndexError (CRF.gather emissions_i batch_size tags_i).
Proof.
  unfold CRF.gather. apply only_mapM. intros bt.
  apply only_bind; [apply only_index|]. intros row. apply only_index.
Qed.

Lemma only_score_step (self : CRF.t) (emissions : tensor3) (tags : list (list nat))
    (full_road_emb A_list mask : tensor2) (batch_size i : nat) (score : tensor1) :
  only_IndexError (CRF.score_step self emissions tags full_road_emb A_list mask
                                  batch_size i score).
Proof.
  unfold CRF.score_step.
  apply only_bind; [apply only_index|]. intros tags_prev.
  apply only_bind; [apply only_index|]. intros tags_i.
  apply only_bind; [apply only_transition|]. intros tr.
  apply only_bind; [apply only_index|]. intros mask_i.
  apply only_bind; [apply only_index|]. intros emissions_i.
  apply only_bind; [apply only_gather|]. intros em. apply only_Ok.
Qed.

Lemma only_for_each {S : Type} (body : nat -> S -> result S) (range : list nat)
    (s : S) :
  (forall i s, only_IndexError (body i s)) ->
  only_IndexError (for_each body range s).
Proof.
  intros Hbody. revert s; induction range as [|i range IH]; intros s; simpl;
    [apply only_Ok|].
  apply only_bind; [apply Hbody | exact IH].
Qed.

Lemma only_compute_score (self : CRF.t) (emissions : tensor3)
    (tags : list (list nat)) (full_road_emb A_list : tensor2)
    (mask : list (list bool)) :
  only_IndexError (CRF._compute_score self emissions tags full_road_emb A_list mask).
Proof.
  unfold CRF._compute_score.
  apply only_bind; [apply only_index|]. intros emissions_0.
  apply only_bind; [apply only_index|]. intros tags_0.
  apply only_bind; [apply only_gather|]. intros em.
  apply only_for_each. intros i s. apply only_score_step.
Qed.

(** A successful gather read every tag inside its row of emissions. *)
Lemma gather_Ok_inv (emissions_i : tensor2) (tags_i : list nat) (em : tensor1)
    (b : nat) :
  CRF.gather emissions_i (length tags_i) tags_i = Ok em ->
  (b < length tags_i)%nat ->
  (nth b tags_i O < length (nth b emissions_i []))%nat.
Proof.
  unfold CRF.gather. intros H Hb. rewrite (combine_seq tags_i O O) in H.
  destruct (mapM_Ok_inv _ _ _ H (b, nth (b - 0) tags_i O)) as [x Hx].
  - apply in_map_iff. exists b. split; [reflexivity|]. apply in_seq. lia.
  - cbn [fst snd] in Hx. apply bind_Ok_inv in Hx. destruct Hx as [row [Hrow Hx]].
    destruct (index_Ok_inv _ _ _ [] Hrow) as [_ ->].
    destruct (index_Ok_inv _ _ _ 0 Hx) as [Hlt _].
    rewrite Nat.sub_0_r in Hlt. exact Hlt.
Qed.

Lemma scorer_rejects_out_of_range_tag_aux
    (self : CRF.t) (emissions : tensor3) (tags : list (list nat))
    (full_road_emb A_list : tensor2) (mask : list (list bool))
    (seq_length batch_size i b : nat) :
  shape3 seq_length batch_size (CRF.num_tags self) emissions ->
  shape2 seq_length batch_size tags ->
  (i < seq_length)%nat -> (b < batch_size)%nat ->
  (CRF.num_tags self <= tag_at tags i b)%nat ->
  CRF._compute_score self emissions tags full_road_emb A_list mask
  = Raise IndexError.
Proof.
  intros Hem Htags Hi Hb Hbad.
  destruct (CRF._compute_score self emissions tags full_road_emb A_list mask)
    as [score | e] eqn:Hrun.
  - exfalso. unfold CRF._compute_score in Hrun.
    rewrite (ncols_shape2 seq_length batch_size tags Htags) in Hrun by lia.
    assert (Hrow : forall t, (t < seq_length)%nat ->
              length (nth t tags []) = batch_size
              /\ length (nth b (nth t emissions []) []) = CRF.num_tags self).
    { intros t Ht. split.
      - apply (shape2_row seq_length); assumption.
      - apply (shape2_row batch_size); [| exact Hb].
        apply (shape3_slice seq_length); assumption. }
    apply bind_Ok_inv in Hrun. destruct Hrun as [em0 [Hem0 Hrun]].
    apply bind_Ok_inv in Hrun. destruct Hrun as [tags0 [Htags0 Hrun]].
    apply bind_Ok_inv in Hrun. destruct Hrun as [g0 [Hg0 Hloop]].
    destruct (index_Ok_inv _ _ _ [] Hem0) as [_ ->].
    destruct (index_Ok_inv _ _ _ [] Htags0) as [_ ->].
    destruct i as [|i].
    + destruct (Hrow O Hi) as [Hlen Hwidth]. rewrite <- Hlen in Hg0 at 1.
      pose proof (gather_Ok_inv _ _ _ b Hg0 ltac:(lia)) as Hlt.
      unfold tag_at in Hbad. lia.
    + destruct (for_each_Ok_inv _ _ _ _ Hloop (S i)) as [si [si' Hstep]].
      { apply in_seq. destruct Htags; lia. }
      unfold CRF.score_step in Hstep.
      apply bind_Ok_inv in Hstep. destruct Hstep as [tp [_ Hstep]].
      apply bind_Ok_inv in Hstep. destruct Hstep as [ti [Hti Hstep]].
      apply bind_Ok_inv in Hstep. destruct Hstep as [tr [_ Hstep]].
      apply bind_Ok_inv in Hstep. destruct Hstep as [mi [_ Hstep]].
      apply bind_Ok_inv in Hstep. destruct Hstep as [emi [Hemi Hstep]].
      apply bind_Ok_inv in Hstep. destruct Hstep as [g [Hg _]].
      destruct (index_Ok_inv _ _ _ [] Hti) as [_ ->].
      destruct (index_Ok_inv _ _ _ [] Hemi) as [_ ->].
      destruct (Hrow (S i) Hi) as [Hlen Hwidth]. rewrite <- Hlen in Hg at 1.
      pose proof (gather_Ok_inv _ _ _ b Hg ltac:(lia)) as Hlt.
      unfold tag_at in Hbad. lia.
  - f_equal. apply (only_compute_score self emissions tags full_road_emb A_list mask).
    exact Hrun.
Qed.

(** X2.  A gold tag outside [0, num_tags), at any step of any batch element
    and whatever the mask says of that position, makes the scorer raise
    [IndexError]. *)
Theorem scorer_rejects_out_of_range_tag
    (self : CRF.t) (emissions : tensor3) (tags : list (list nat))
    (full_road_emb A_list : tensor2) (mask : list (list bool))
    (seq_length batch_size i b : nat) :
  shape3 seq_length batch_size (CRF.num_tags self) emissions ->
  shape2 seq_length batch_size tags ->
  (i < seq_length)%nat -> (b < batch_size)%nat ->
  (CRF.num_tags self <= tag_at tags i b)%nat ->
  CRF._compute_score self emissions tags full_road_emb A_list mask
  = Raise IndexError.
Proof.
  apply scorer_rejects_out_of_range_tag_aux.
Qed.

(** The gold tags of [tags3] with tag 2, out of range, at the padded step. *)
Definition bad_tags3 : list (list nat) := [[O]; [1%nat]; [2%nat]].

Lemma scorer_rejects_out_of_range_tag_witness :
  mask_at mask3 2 0 = false
  /\ CRF._compute_score crf2 ems3 bad_tags3 emb2 eye2 mask3 = Raise IndexError.
Proof.
  split; [reflexivity|].
  apply (scorer_rejects_out_of_range_tag crf2 ems3 bad_tags3 emb2 eye2 mask3
           3 1 2 0).
  - exact ems3_shape.
  - split; [reflexivity | repeat constructor].
  - lia.
  - lia.
  - cbv; lia.
Defined.

(** Gold tags that differ at a padded step only.  [tags3] and [bad_tags3]
    are the same at the two valid steps of [mask3]; at the padded step
    [bad_tags3] holds 2, which is no tag of [crf2].  On the same emissions the
    scorer returns a score for the first and raises for the second, since a
    gold tag is used as an index before the mask is applied. *)
Lemma masked_gold_tag_is_still_an_index :
  prefix_mask mask3 3 0 2
  /\ (forall t, (t < 2)%nat -> tag_at tags3 t 0 = tag_at bad_tags3 t 0)
  /\ mask_at mask3 2 0 = false
  /\ (exists score : tensor1,
        CRF._compute_score crf2 ems3 tags3 emb2 eye2 mask3 = Ok score)
  /\ CRF._compute_score crf2 ems3 bad_tags3 emb2 eye2 mask3 = Raise IndexError.
Proof.
  split; [exact mask3_prefix|]. split.
  { intros t Ht. destruct t as [|[|t]]; [reflexivity | reflexivity | lia]. }
  split; [reflexivity|]. split.
  - destruct compute_score_ems3 as [score [Hrun _]]. exists [score]. exact Hrun.
  - apply (scorer_rejects_out_of_range_tag_aux crf2 ems3 bad_tags3 emb2 eye2 mask3
             3 1 2 0).
    + exact ems3_shape.
    + split; [reflexivity | repeat constructor].
    + lia.
    + lia.
    + cbv; lia.
Qed.

(** ** What [forward] raises and what it draws *)

Lemma forward_unfold (G : Generator) (self : CRF.t) (emissions : tensor3)
    (tags : list (list nat)) (full_road_emb A_list : tensor2)
    (mask : list (list bool)) (s : rng G) :
  CRF.forward G self emissions tags full_road_emb A_list mask s
  = match CRF._compute_score self (time_major self [] emissions)
                             (time_major self O tags) full_road_emb A_list
                             (time_major self false mask) with
    | Raise e => (Raise e, s)
    | Ok numerator =>
        match CRF._compute_normalizer G self (time_major self [] emissions)
                                      full_road_emb A_list
                                      (time_major self false mask) numerator s with
        | (Raise e, s') => (Raise e, s')
        | (Ok denominator, s') =>
            (Ok (sum (zip_with Rminus numerator denominator)
                 / sum (map float_of_bool (concat (time_major self false mask)))),
             s')
        end
    end.
Proof.
  unfold CRF.forward, time_major. unfold bindM at 1. unfold retM at 1.
  destruct (CRF._compute_score self _ _ full_road_emb A_list _) as [numerator | e];
    [| reflexivity].
  unfold bindM.
  destruct (CRF._compute_normalizer G self _ full_road_emb A_list _ numerator s)
    as [[den | e] s']; reflexivity.
Qed.

(** X3.  When a gold tag is outside [0, num_tags), [forward] raises
    [IndexError] and leaves the generator as it was: scoring comes before
    sampling, so this holds even when the sample size is too large. *)
Theorem forward_rejects_out_of_range_tag
    (G : Generator) (self : CRF.t) (emissions : tensor3) (tags : list (list nat))
    (full_road_emb A_list : tensor2) (mask : list (list bool))
    (seq_length batch_size i b : nat) (s : rng G) :
  input_shape3 self seq_length batch_size (CRF.num_tags self) emissions ->
  input_shape2 self seq_length batch_size tags ->
  (i < seq_length)%nat -> (b < batch_size)%nat ->
  (CRF.num_tags self <= input_at self O tags i b)%nat ->
  CRF.forward G self emissions tags full_road_emb A_list mask s
  = (Raise IndexError, s).
Proof.
  intros Hem Htags Hi Hb Hbad.
  assert (HB : (1 <= batch_size)%nat) by lia.
  rewrite forward_unfold.
  rewrite (scorer_rejects_out_of_range_tag_aux self (time_major self [] emissions)
             (time_major self O tags) full_road_emb A_list
             (time_major self false mask) seq_length batch_size i b).
  - reflexivity.
  - apply time_major_shape3; assumption.
  - apply time_major_shape2; assumption.
  - exact Hi.
  - exact Hb.
  - unfold tag_at.
    rewrite (time_major_at self seq_length batch_size HB O tags i b Htags Hi Hb).
    exact Hbad.
Qed.

Lemma forward_rejects_out_of_range_tag_witness :
  CRF.forward rotating crf2_batch_first padded_emissions [[O; 5%nat]] emb2 eye2
              padded_mask O
  = (Raise IndexError, O).
Proof.
  apply (forward_rejects_out_of_range_tag rotating crf2_batch_first
           padded_emissions [[O; 5%nat]] emb2 eye2 padded_mask 2 1 1 0 O).
  - split; [reflexivity|]. repeat constructor.
  - split; [reflexivity|]. repeat constructor.
  - lia.
  - lia.
  - cbv; lia.
Defined.

(** X4.  On well-shaped inputs with in-range gold tags, [forward] raises
    [ValueError] without touching the generator when the sample size exceeds
    [num_tags]; otherwise it returns a value and leaves the generator in the
    state that follows one [permutation(num_tags)] draw. *)
Theorem forward_draws_once
    (G : Generator) (self : CRF.t) (emissions : tensor3) (tags : list (list nat))
    (full_road_emb A_list : tensor2) (mask : list (list bool))
    (seq_length batch_size emb_dim : nat) (s : rng G) :
  shape2 (CRF.num_tags self) emb_dim full_road_emb ->
  shape2 (CRF.num_tags self) (CRF.num_tags self) A_list ->
  input_shape3 self seq_length batch_size (CRF.num_tags self) emissions ->
  input_shape2 self seq_length batch_size tags ->
  input_shape2 self seq_length batch_size mask ->
  Forall (Forall (fun a => (a < CRF.num_tags self)%nat)) tags ->
  (1 <= seq_length)%nat ->
  (1 <= batch_size)%nat ->
  ((CRF.num_tags self < CRF.neg_nums self)%nat ->
   CRF.forward G self emissions tags full_road_emb A_list mask s
   = (Raise ValueError, s))
  /\ ((CRF.neg_nums self <= CRF.num_tags self)%nat ->
      (1 <= CRF.num_tags self)%nat ->
      exists llh : R,
        CRF.forward G self emissions tags full_road_emb A_list mask s
        = (Ok llh, snd (permutation G (CRF.num_tags self) s))).
Proof.
  intros HE HA Hem Htags Hmask Hrange HT HB.
  pose proof (time_major_shape3 self seq_length batch_size HB _ _ Hem) as Hem'.
  pose proof (time_major_shape2 self seq_length batch_size HB O _ Htags) as Htags'.
  pose proof (time_major_shape2 self seq_length batch_size HB false _ Hmask)
    as Hmask'.
  pose proof (time_major_Forall self _ O tags seq_length batch_size Htags HB Hrange)
    as Hrange'.
  destruct (compute_score_ok self full_road_emb A_list _ _ _ seq_length batch_size
              (CRF.num_tags self) emb_dim HE HA Hem' Htags' Hmask' Hrange' HT)
    as [numerator [Hscore _]].
  rewrite forward_unfold, Hscore. split.
  - intros Hlt. rewrite compute_normalizer_too_large by exact Hlt. reflexivity.
  - intros Hle Hn. rewrite compute_normalizer_run by assumption.
    eexists. reflexivity.
Qed.

Lemma forward_draws_once_witness :
  ((CRF.num_tags crf2_batch_first < CRF.neg_nums crf2_batch_first)%nat ->
   CRF.forward rotating crf2_batch_first two_step_emissions [[O; 1%nat]] emb2 eye2
               [[true; true]] 7%nat
   = (Raise ValueError, 7%nat))
  /\ ((CRF.neg_nums crf2_batch_first <= CRF.num_tags crf2_batch_first)%nat ->
      (1 <= CRF.num_tags crf2_batch_first)%nat ->
      exists llh : R,
        CRF.forward rotating crf2_batch_first two_step_emissions [[O; 1%nat]]
                    emb2 eye2 [[true; true]] 7%nat
        = (Ok llh, snd (permutation rotating (CRF.num_tags crf2_batch_first) 7%nat))).
Proof.
  apply (forward_draws_once rotating crf2_batch_first two_step_emissions
           [[O; 1%nat]] emb2 eye2 [[true; true]] 2 1 1 7%nat).
  - exact emb2_shape.
  - exact eye2_shape.
  - split; [reflexivity|]. repeat constructor.
  - split; [reflexivity|]. repeat constructor.
  - split; [reflexivity|]. repeat constructor.
  - repeat constructor.
  - lia.
  - lia.
Defined.

(** ** The decoded path is a best path *)

Lemma max_over_previous_length (self : CRF.t) (trans : tensor2)
    (row emission : tensor1) :
  length (fst (CRF.max_over_previous self trans row emission)) = CRF.num_tags self
  /\ length (snd (CRF.max_over_previous self trans row emission))
     = CRF.num_tags self.
Proof.
  unfold CRF.max_over_previous. cbn [fst snd].
  rewrite !length_map, length_seq. split; reflexivity.
Qed.

(** The trace-back from tag [c] through backpointer rows, last row first. *)
Fixpoint back (rhist : list (list nat)) (c : nat) : list nat :=
  match rhist with
  | [] => [c]
  | h :: rhist' => c :: back rhist' (nth c h O)
  end.

Lemma fold_back (rhist : list (list nat)) (pre : list nat) (c : nat) :
  fold_left (fun best_tags h => best_tags ++ [nth (last best_tags O) h O])
            rhist (pre ++ [c])
  = pre ++ back rhist c.
Proof.
  revert pre c; induction rhist as [|h rhist IH]; intros pre c; simpl.
  - reflexivity.
  - rewrite last_last, IH, <- app_assoc. reflexivity.
Qed.

Section BestPath.

Variable self : CRF.t.
Variable trans : tensor2.
Variable emissions : tensor3.
Variable mask : list (list bool).
Variables seq_length b len : nat.

Hypothesis trans_shape : shape2 (CRF.num_tags self) (CRF.num_tags self) trans.
Hypothesis rows_shape :
  forall t, (t < seq_length)%nat ->
    length (emission_row emissions t b) = CRF.num_tags self.
Hypothesis mask_prefix : prefix_mask mask seq_length b len.
Hypothesis num_tags_pos : (1 <= CRF.num_tags self)%nat.

Let V (k : nat) : tensor1 := score_row self trans emissions mask b k.
Let BP (k : nat) : list nat := backpointers self trans emissions mask b k.
Let e (t : nat) : tensor1 := emission_row emissions t b.

Lemma V_length (k : nat) : (k < seq_length)%nat -> length (V k) = CRF.num_tags self.
Proof.
  induction k as [|k IH]; intros Hk.
  - apply rows_shape. exact Hk.
  - unfold V. rewrite score_row_S. unfold row_step.
    destruct (mask_at mask (S k) b).
    + apply max_over_previous_length.
    + apply IH. lia.
Qed.

Lemma V_step (k : nat) :
  (S k < len)%nat ->
  V (S k) = fst (CRF.max_over_previous self trans (V k) (e (S k))).
Proof.
  intros Hk. destruct mask_prefix as [Hlen Hmask].
  unfold V. rewrite score_row_S. unfold row_step.
  rewrite Hmask by lia.
  destruct (Nat.ltb_spec (S k) len); [reflexivity | lia].
Qed.

Lemma V_after (k : nat) :
  (len - 1 <= k)%nat -> (k < seq_length)%nat -> V k = V (len - 1).
Proof.
  destruct mask_prefix as [Hlen Hmask].
  induction k as [|k IH]; intros Hge Hk.
  - replace (len - 1)%nat with O by lia. reflexivity.
  - destruct (Nat.eq_dec (S k) (len - 1)) as [-> | Hne]; [reflexivity|].
    rewrite <- IH by lia. unfold V. rewrite score_row_S. unfold row_step.
    rewrite Hmask by exact Hk.
    destruct (Nat.ltb_spec (S k) len); [lia | reflexivity].
Qed.

(** No path ending in a tag is worth more than the score kept for it. *)
Lemma path_value_le_score (y : nat -> nat) (k : nat) :
  (k < len)%nat ->
  (forall t, (t <= k)%nat -> (y t < CRF.num_tags self)%nat) ->
  path_value trans e y k <= nth (y k) (V k) 0.
Proof.
  destruct mask_prefix as [Hlen _].
  induction k as [|k IH]; intros Hk Hy.
  - unfold path_value. simpl. unfold V, score_row, e. simpl. lra.
  - rewrite path_value_S, V_step by exact Hk.
    destruct (max_over_previous_spec self trans (V k) (e (S k)) (y (S k)))
      as [Hmax _].
    + apply V_length. lia.
    + exact trans_shape.
    + apply rows_shape. lia.
    + apply Hy. lia.
    + specialize (Hmax (y k) (Hy k ltac:(lia))). cbv beta in Hmax.
      specialize (IH ltac:(lia) (fun t Ht => Hy t ltac:(lia))). lra.
Qed.

(** The path traced back from tag [c] at step [k]. *)
Definition best_path (k c : nat) : list nat :=
  rev (back (rev (map BP (seq 0 k))) c).

Lemma best_path_S (k c : nat) :
  best_path (S k) c = best_path k (nth c (BP k) O) ++ [c].
Proof.
  unfold best_path. rewrite seq_S, map_app, rev_app_distr. reflexivity.
Qed.

(** The path traced back from [c] ends in [c], stays inside the tag space and
    is worth exactly the score kept for [c]. *)
Lemma best_path_attains (k : nat) :
  (k < len)%nat ->
  forall c, (c < CRF.num_tags self)%nat ->
    length (best_path k c) = S k
    /\ nth k (best_path k c) O = c
    /\ Forall (fun a => (a < CRF.num_tags self)%nat) (best_path k c)
    /\ path_value trans e (fun t => nth t (best_path k c) O) k = nth c (V k) 0.
Proof.
  destruct mask_prefix as [Hlen _].
  induction k as [|k IH]; intros Hk c Hc.
  - unfold best_path. simpl. repeat split.
    repeat constructor. exact Hc.
  - destruct (max_over_previous_spec self trans (V k) (e (S k)) c)
      as [_ [Hbp Hat]];
      [apply V_length; lia | exact trans_shape | apply rows_shape; lia | exact Hc |].
    cbv beta zeta in Hbp, Hat.
    fold (backpointers self trans emissions mask b k) in Hbp, Hat.
    fold (BP k) in Hbp, Hat.
    destruct (IH ltac:(lia) (nth c (BP k) O) Hbp) as [Hl [Hlast [Hin Hval]]].
    rewrite best_path_S. repeat split.
    + rewrite length_app, Hl. simpl. lia.
    + rewrite app_nth2 by lia. rewrite Hl, Nat.sub_diag. reflexivity.
    + apply Forall_app. split; [exact Hin | repeat constructor; exact Hc].
    + rewrite path_value_S.
      rewrite (path_value_agree trans e e _
                 (fun t => nth t (best_path k (nth c (BP k) O)) O) k).
      * rewrite Hval.
        rewrite (app_nth2 _ _ _ (n := S k)) by lia.
        rewrite (app_nth1 _ _ _ (n := k)) by lia.
        rewrite Hl, Nat.sub_diag, Hlast. cbn [nth].
        rewrite V_step by exact Hk. rewrite Hat. reflexivity.
      * intros t Ht. split; [| reflexivity]. apply app_nth1. lia.
Qed.

(** The last tag chosen by the trace-back. *)
Definition last_tag : nat := snd (max_dim0 (V (len - 1))).

Lemma last_tag_spec :
  (last_tag < CRF.num_tags self)%nat
  /\ forall c, (c < CRF.num_tags self)%nat ->
       nth c (V (len - 1)) 0 <= nth last_tag (V (len - 1)) 0.
Proof.
  destruct mask_prefix as [Hlen _].
  assert (Hl : length (V (len - 1)) = CRF.num_tags self) by (apply V_length; lia).
  assert (Hne : V (len - 1) <> []).
  { intros Hnil. rewrite Hnil in Hl. simpl in Hl. lia. }
  destruct (max_dim0_spec _ Hne) as [Hk [Hnth [Hmax _]]].
  unfold last_tag. split; [lia|].
  intros c Hc. rewrite Hnth. apply Hmax. lia.
Qed.

(** The trace-back of the decoder returns the best path to the last tag,
    padded to the shared length. *)
Lemma trace_row_best_path :
  trace_row (V (seq_length - 1)) (map BP (seq 0 (seq_length - 1))) seq_length
            (Z.of_nat len - 1)
  = map Z.of_nat (best_path (len - 1) last_tag)
    ++ repeat (-1)%Z (seq_length - len).
Proof.
  destruct mask_prefix as [Hlen _].
  unfold trace_row. rewrite V_after by lia.
  assert (Hslice : slice_to (map BP (seq 0 (seq_length - 1))) (Z.of_nat len - 1)
                   = map BP (seq 0 (len - 1))).
  { unfold slice_to.
    destruct (Z.ltb_spec (Z.of_nat len - 1) 0) as [Hneg | _]; [lia|].
    rewrite firstn_map, firstn_seq. f_equal. f_equal. lia. }
  rewrite Hslice.
  pose proof (fold_back (rev (map BP (seq 0 (len - 1)))) []
                (snd (max_dim0 (V (len - 1))))) as Hfold.
  cbn [app] in Hfold. rewrite Hfold. fold last_tag. fold (best_path (len - 1) last_tag).
  destruct (best_path_attains (len - 1) ltac:(lia) last_tag (proj1 last_tag_spec))
    as [Hl _].
  rewrite Hl. replace (S (len - 1)) with len by lia. reflexivity.
Qed.

(** No path of in-range tags over the valid steps is worth more than the
    decoded one. *)
Lemma best_path_optimal (y : nat -> nat) :
  (forall t, (t < len)%nat -> (y t < CRF.num_tags self)%nat) ->
  path_value trans e y (len - 1)
  <= path_value trans e (fun t => nth t (best_path (len - 1) last_tag) O) (len - 1).
Proof.
  intros Hy. destruct mask_prefix as [Hlen _].
  destruct last_tag_spec as [Hlast Hmax].
  destruct (best_path_attains (len - 1) ltac:(lia) last_tag Hlast)
    as [_ [_ [_ Hval]]].
  rewrite Hval.
  pose proof (path_value_le_score y (len - 1) ltac:(lia)
                (fun t Ht => Hy t ltac:(lia))) as Hle.
  specialize (Hmax (y (len - 1)%nat) (Hy (len - 1)%nat ltac:(lia))). lra.
Qed.

End BestPath.

Lemma in_zip_with {A B C : Type} (f : A -> B -> C) (l1 : list A) (l2 : list B)
    (x : C) :
  In x (zip_with f l1 l2) -> exists a b, In a l1 /\ In b l2 /\ x = f a b.
Proof.
  revert l2; induction l1 as [|a l1 IH]; intros [|b l2]; simpl; intros H;
    try contradiction.
  destruct H as [<- | H].
  - exists a, b. auto.
  - destruct (IH l2 H) as [a' [b' [Ha [Hb Hx]]]]. exists a', b'. auto.
Qed.

(** With at least one embedding coordinate, [transitions] is a square matrix
    over the tags. *)
Lemma transitions_shape (self : CRF.t) (full_road_emb A_list : tensor2)
    (n emb_dim : nat) :
  shape2 n emb_dim full_road_emb -> shape2 n n A_list ->
  (1 <= n)%nat -> (1 <= emb_dim)%nat ->
  shape2 n n (CRF.transitions self full_road_emb A_list).
Proof.
  intros HE HA Hn Hd. unfold CRF.transitions.
  pose proof (ncols_transpose_emb full_road_emb n emb_dim HE ltac:(lia) ltac:(lia))
    as Hcols.
  destruct HA as [HlenA HrowsA]. pose proof HE as [HlenE _]. split.
  - rewrite zip_with_length. unfold matmul. rewrite !length_map. lia.
  - apply Forall_forall. intros row Hrow.
    apply in_zip_with in Hrow. destruct Hrow as [a [r [Ha [Hr ->]]]].
    rewrite zip_with_length. rewrite Forall_forall in HrowsA.
    rewrite (HrowsA a Ha).
    apply in_map_iff in Hr. destruct Hr as [r' [<- Hr']].
    unfold matmul in Hr'. apply in_map_iff in Hr'. destruct Hr' as [x [<- _]].
    rewrite !length_map, length_seq, Hcols. lia.
Qed.

Section DecodedRow.

Variable self : CRF.t.
Variables full_road_emb A_list : tensor2.
Variable emissions : tensor3.
Variable mask : list (list bool).
Variables seq_length batch_size emb_dim b len : nat.

Hypothesis emb_shape : shape2 (CRF.num_tags self) emb_dim full_road_emb.
Hypothesis adj_shape : shape2 (CRF.num_tags self) (CRF.num_tags self) A_list.
Hypothesis emb_dim_pos : (1 <= emb_dim)%nat.
Hypothesis emissions_shape :
  input_shape3 self seq_length batch_size (CRF.num_tags self) emissions.
Hypothesis mask_shape : input_shape2 self seq_length batch_size mask.
Hypothesis num_tags_pos : (1 <= CRF.num_tags self)%nat.
Hypothesis b_range : (b < batch_size)%nat.
Hypothesis len_range : (1 <= len <= seq_length)%nat.
Hypothesis mask_prefix :
  forall t, (t < seq_length)%nat -> input_at self false mask t b = (t <? len)%nat.

Let trans := CRF.transitions self full_road_emb A_list.
Let emissions' := time_major self [] emissions.
Let mask' := time_major self false mask.

Lemma caller_prefix_mask : prefix_mask mask' seq_length b len.
Proof.
  split; [exact len_range|]. intros t Ht. unfold mask_at, mask'.
  rewrite (time_major_at self seq_length batch_size ltac:(lia) false mask t b)
    by assumption.
  apply mask_prefix. exact Ht.
Qed.

Lemma caller_rows_shape (t : nat) :
  (t < seq_length)%nat ->
  length (emission_row emissions' t b) = CRF.num_tags self.
Proof.
  intros Ht. unfold emission_row, emissions'.
  apply (shape2_row batch_size); [| exact b_range].
  apply (shape3_slice seq_length); [| exact Ht].
  apply time_major_shape3; [lia | exact emissions_shape].
Qed.

Lemma caller_trans_shape :
  shape2 (CRF.num_tags self) (CRF.num_tags self) trans.
Proof. apply (transitions_shape self _ _ _ emb_dim); assumption. Qed.

(** The sequence decoded for batch element [b]. *)
Definition decoded_path : list nat :=
  best_path self trans emissions' mask' b (len - 1)
            (last_tag self trans emissions' mask' b len).

Lemma decode_row_is_decoded_path :
  nth b (CRF.decode self emissions full_road_emb A_list mask) []
  = map Z.of_nat decoded_path ++ repeat (-1)%Z (seq_length - len).
Proof.
  rewrite decode_time_major. fold emissions' mask'.
  assert (HB : (1 <= batch_size)%nat) by lia.
  rewrite (viterbi_decode_row self full_road_emb A_list emissions' mask'
             seq_length batch_size);
    [| apply time_major_shape3; assumption
     | apply time_major_shape2; assumption
     | lia | exact b_range].
  rewrite (seq_ends_prefix mask' seq_length batch_size b len);
    [| apply time_major_shape2; assumption | exact b_range
     | exact caller_prefix_mask].
  fold trans.
  apply (trace_row_best_path self trans emissions' mask' seq_length b len
           caller_trans_shape caller_rows_shape caller_prefix_mask num_tags_pos).
Qed.

Lemma decoded_path_spec :
  length decoded_path = len
  /\ Forall (fun a => (a < CRF.num_tags self)%nat) decoded_path.
Proof.
  destruct (last_tag_spec self trans emissions' mask' seq_length b len
              caller_rows_shape caller_prefix_mask num_tags_pos) as [Hlast _].
  destruct (best_path_attains self trans emissions' mask' seq_length b len
              caller_trans_shape caller_rows_shape caller_prefix_mask num_tags_pos
              (len - 1) ltac:(lia) _ Hlast) as [Hl [_ [Hin _]]].
  split; [unfold decoded_path; rewrite Hl; lia | exact Hin].
Qed.

End DecodedRow.

(** X5.  Under a prefix mask with [len] valid steps, [decode] returns for the
    batch element [len] tags of [0, num_tags) followed by [seq_length - len]
    sentinels [-1]. *)
Theorem decode_returns_tags_then_padding
    (self : CRF.t) (emissions : tensor3) (full_road_emb A_list : tensor2)
    (mask : list (list bool)) (seq_length batch_size emb_dim b len : nat) :
  shape2 (CRF.num_tags self) emb_dim full_road_emb ->
  shape2 (CRF.num_tags self) (CRF.num_tags self) A_list ->
  (1 <= emb_dim)%nat ->
  input_shape3 self seq_length batch_size (CRF.num_tags self) emissions ->
  input_shape2 self seq_length batch_size mask ->
  (1 <= CRF.num_tags self)%nat ->
  (b < batch_size)%nat ->
  (1 <= len <= seq_length)%nat ->
  (forall t, (t < seq_length)%nat ->
     input_at self false mask t b = (t <? len)%nat) ->
  exists path : list nat,
    nth b (CRF.decode self emissions full_road_emb A_list mask) []
    = map Z.of_nat path ++ repeat (-1)%Z (seq_length - len)
    /\ length path = len
    /\ Forall (fun a => (a < CRF.num_tags self)%nat) path
    /\ length (nth b (CRF.decode self emissions full_road_emb A_list mask) [])
       = seq_length.
Proof.
  intros HE HA Hd Hem Hmask Hn Hb Hlen Hprefix.
  exists (decoded_path self full_road_emb A_list emissions mask b len).
  pose proof (decode_row_is_decoded_path self full_road_emb A_list emissions mask
                seq_length batch_size emb_dim b len
                HE HA Hd Hem Hmask Hn Hb Hlen Hprefix) as Hrow.
  destruct (decoded_path_spec self full_road_emb A_list emissions mask
              seq_length batch_size emb_dim b len
              HE HA Hd Hem Hmask Hn Hb Hlen Hprefix) as [Hl Hin].
  split; [exact Hrow|]. split; [exact Hl|]. split; [exact Hin|].
  rewrite Hrow, length_app, length_map, repeat_length, Hl. lia.
Qed.

Lemma mask3_input_prefix (t : nat) :
  (t < 3)%nat -> input_at crf2 false mask3 t 0 = (t <? 2)%nat.
Proof.
  intros Ht. destruct t as [|[|[|t]]]; [reflexivity | reflexivity | reflexivity | lia].
Qed.

Lemma decode_returns_tags_then_padding_witness :
  exists path : list nat,
    nth 0 (CRF.decode crf2 ems3 emb2 eye2 mask3) []
    = map Z.of_nat path ++ repeat (-1)%Z (3 - 2)
    /\ length path = 2%nat
    /\ Forall (fun a => (a < CRF.num_tags crf2)%nat) path
    /\ length (nth 0 (CRF.decode crf2 ems3 emb2 eye2 mask3) []) = 3%nat.
Proof.
  apply (decode_returns_tags_then_padding crf2 ems3 emb2 eye2 mask3 3 1 1 0 2).
  - exact emb2_shape.
  - exact eye2_shape.
  - lia.
  - exact ems3_shape.
  - exact mask3_shape.
  - simpl; lia.
  - lia.
  - lia.
  - exact mask3_input_prefix.
Defined.

(** X6.  The decoded sequence maximises the scorer.  Under prefix masks, let
    [tags_dec] hold the decoded tags at the valid positions; then for every
    batch element the score that [_compute_score] gives to any in-range gold
    tags is at most the score it gives to [tags_dec]. *)
Theorem decode_maximises_the_score
    (self : CRF.t) (emissions : tensor3) (tags tags_dec : list (list nat))
    (full_road_emb A_list : tensor2) (mask : list (list bool))
    (seq_length batch_size emb_dim : nat) :
  shape2 (CRF.num_tags self) emb_dim full_road_emb ->
  shape2 (CRF.num_tags self) (CRF.num_tags self) A_list ->
  (1 <= emb_dim)%nat ->
  input_shape3 self seq_length batch_size (CRF.num_tags self) emissions ->
  input_shape2 self seq_length batch_size tags ->
  input_shape2 self seq_length batch_size tags_dec ->
  input_shape2 self seq_length batch_size mask ->
  Forall (Forall (fun a => (a < CRF.num_tags self)%nat)) tags ->
  Forall (Forall (fun a => (a < CRF.num_tags self)%nat)) tags_dec ->
  (1 <= batch_size)%nat ->
  (1 <= CRF.num_tags self)%nat ->
  (forall b, (b < batch_size)%nat ->
     exists len, (1 <= len <= seq_length)%nat
       /\ forall t, (t < seq_length)%nat ->
            input_at self false mask t b = (t <? len)%nat) ->
  (forall t b, (t < seq_length)%nat -> (b < batch_size)%nat ->
     input_at self false mask t b = true ->
     Z.of_nat (input_at self O tags_dec t b)
     = nth t (nth b (CRF.decode self emissions full_road_emb A_list mask) []) 0%Z) ->
  exists score score_dec : tensor1,
    CRF._compute_score self (time_major self [] emissions) (time_major self O tags)
                       full_road_emb A_list (time_major self false mask)
    = Ok score
    /\ CRF._compute_score self (time_major self [] emissions)
                          (time_major self O tags_dec) full_road_emb A_list
                          (time_major self false mask)
       = Ok score_dec
    /\ forall b, (b < batch_size)%nat -> nth b score 0 <= nth b score_dec 0.
Proof.
  intros HE HA Hd Hem Htags Htags_dec Hmask Hrange Hrange_dec HB Hn Hprefix Hdec.
  set (n := CRF.num_tags self) in *.
  pose proof (time_major_shape3 self seq_length batch_size HB n _ Hem) as Hem'.
  pose proof (time_major_shape2 self seq_length batch_size HB O _ Htags) as Ht'.
  pose proof (time_major_shape2 self seq_length batch_size HB O _ Htags_dec) as Htd'.
  pose proof (time_major_shape2 self seq_length batch_size HB false _ Hmask)
    as Hmask'.
  pose proof (time_major_Forall self _ O tags seq_length batch_size Htags HB Hrange)
    as Hr'.
  pose proof (time_major_Forall self _ O tags_dec seq_length batch_size Htags_dec
                HB Hrange_dec) as Hrd'.
  assert (HT : (1 <= seq_length)%nat).
  { destruct (Hprefix O ltac:(lia)) as [len [Hlen _]]. lia. }
  destruct (compute_score_ok self full_road_emb A_list _ _ _
              seq_length batch_size n emb_dim HE HA Hem' Ht' Hmask' Hr' HT)
    as [score [Hs [_ Hv]]].
  destruct (compute_score_ok self full_road_emb A_list _ _ _
              seq_length batch_size n emb_dim HE HA Hem' Htd' Hmask' Hrd' HT)
    as [score_dec [Hsd [_ Hvd]]].
  exists score, score_dec. split; [exact Hs|]. split; [exact Hsd|].
  intros b Hb. rewrite Hv, Hvd by exact Hb.
  destruct (Hprefix b Hb) as [len [Hlen Hm]].
  pose proof (caller_prefix_mask self mask seq_length batch_size emb_dim b len
                Hd Hmask Hn Hb Hlen Hm) as Hp.
  rewrite (gold_score_path_value self full_road_emb A_list _ _ _
             seq_length emb_dim b len HE HA Hp)
    by (intros t Ht; apply (tag_at_range _ seq_length batch_size n);
        (assumption || lia)).
  rewrite (gold_score_path_value self full_road_emb A_list _ _ _
             seq_length emb_dim b len HE HA Hp)
    by (intros t Ht; apply (tag_at_range _ seq_length batch_size n);
        (assumption || lia)).
  pose proof (decode_row_is_decoded_path self full_road_emb A_list emissions mask
                seq_length batch_size emb_dim b len
                HE HA Hd Hem Hmask Hn Hb Hlen Hm) as Hrow.
  destruct (decoded_path_spec self full_road_emb A_list emissions mask
              seq_length batch_size emb_dim b len
              HE HA Hd Hem Hmask Hn Hb Hlen Hm) as [Hl _].
  rewrite (path_value_agree _ _ (fun t => emission_row (time_major self [] emissions) t b)
             (fun t => tag_at (time_major self O tags_dec) t b)
             (fun t => nth t (decoded_path self full_road_emb A_list emissions
                                           mask b len) O)).
  - apply (best_path_optimal self (CRF.transitions self full_road_emb A_list)
             (time_major self [] emissions) (time_major self false mask)
             seq_length b len).
    + apply (transitions_shape self _ _ _ emb_dim); assumption.
    + apply (caller_rows_shape self emissions seq_length batch_size emb_dim b len
               Hd Hem Hn Hb Hlen).
    + exact Hp.
    + exact Hn.
    + intros t Ht. apply (tag_at_range _ seq_length batch_size n);
        (assumption || lia).
  - intros t Ht. split; [| reflexivity].
    unfold tag_at.
    rewrite (time_major_at self seq_length batch_size HB O tags_dec t b)
      by (assumption || lia).
    assert (Hvalid : input_at self false mask t b = true)
      by (rewrite Hm by lia; apply Nat.ltb_lt; lia).
    apply Nat2Z.inj. rewrite (Hdec t b ltac:(lia) Hb Hvalid).
    rewrite Hrow, app_nth1 by (rewrite length_map; lia).
    apply (nth_map Z.of_nat). lia.
Qed.

Lemma decode_maximises_the_score_witness :
  exists score score_dec : tensor1,
    CRF._compute_score crf2 (time_major crf2 [] ems3)
                       (time_major crf2 O [[1%nat]; [1%nat]; [O]]) emb2 eye2
                       (time_major crf2 false mask3)
    = Ok score
    /\ CRF._compute_score crf2 (time_major crf2 [] ems3) (time_major crf2 O tags3)
                          emb2 eye2 (time_major crf2 false mask3)
       = Ok score_dec
    /\ forall b, (b < 1)%nat -> nth b score 0 <= nth b score_dec 0.
Proof.
  apply (decode_maximises_the_score crf2 ems3 [[1%nat]; [1%nat]; [O]] tags3
           emb2 eye2 mask3 3 1 1).
  - exact emb2_shape.
  - exact eye2_shape.
  - lia.
  - exact ems3_shape.
  - split; [reflexivity | repeat constructor].
  - exact tags3_shape.
  - exact mask3_shape.
  - repeat constructor.
  - repeat constructor.
  - lia.
  - simpl; lia.
  - intros b Hb. assert (b = O) as -> by lia. exists 2%nat.
    split; [lia | exact mask3_input_prefix].
  - intros t b Ht Hb Hm. assert (b = O) as -> by lia. rewrite decode_ems3.
    destruct t as [|[|[|t]]]; [reflexivity | reflexivity | discriminate Hm | lia].
Defined.

(** ** The value of [forward] *)

Section ForwardValue.

Variable G : Generator.
Variable self : CRF.t.
Variable emissions : tensor3.
Variable tags : list (list nat).
Variables full_road_emb A_list : tensor2.
Variable mask : list (list bool).
Variables seq_length batch_size emb_dim : nat.
Variable s : rng G.

Hypothesis emb_shape : shape2 (CRF.num_tags self) emb_dim full_road_emb.
Hypothesis adj_shape : shape2 (CRF.num_tags self) (CRF.num_tags self) A_list.
Hypothesis emissions_shape :
  input_shape3 self seq_length batch_size (CRF.num_tags self) emissions.
Hypothesis tags_shape : input_shape2 self seq_length batch_size tags.
Hypothesis mask_shape : input_shape2 self seq_length batch_size mask.
Hypothesis tags_range : Forall (Forall (fun a => (a < CRF.num_tags self)%nat)) tags.
Hypothesis seq_length_pos : (1 <= seq_length)%nat.
Hypothesis batch_size_pos : (1 <= batch_size)%nat.
Hypothesis sample_fits : (CRF.neg_nums self <= CRF.num_tags self)%nat.
Hypothesis num_tags_pos : (1 <= CRF.num_tags self)%nat.

(** The normalizer of batch element [b] for the gold scores [numerator]. *)
Definition denominator_of (numerator : tensor1) (b : nat) : R :=
  logsumexp (nth b (sampled_scores self full_road_emb A_list
                                   (time_major self [] emissions)
                                   (time_major self false mask)
                                   (drawn G self s)) []
             ++ [nth b numerator 0])
  + ln (sample_ratio self).

Lemma forward_run :
  exists numerator : tensor1,
    CRF._compute_score self (time_major self [] emissions) (time_major self O tags)
                       full_road_emb A_list (time_major self false mask)
    = Ok numerator
    /\ length numerator = batch_size
    /\ CRF.forward G self emissions tags full_road_emb A_list mask s
       = (Ok (sum (map (fun b => nth b numerator 0 - denominator_of numerator b)
                       (seq 0 batch_size))
              / INR (valid_positions mask)),
          snd (permutation G (CRF.num_tags self) s)).
Proof.
  pose proof (time_major_shape3 self seq_length batch_size batch_size_pos _ _
                emissions_shape) as Hem'.
  pose proof (time_major_shape2 self seq_length batch_size batch_size_pos O _
                tags_shape) as Htags'.
  pose proof (time_major_shape2 self seq_length batch_size batch_size_pos false _
                mask_shape) as Hmask'.
  pose proof (time_major_Forall self _ O tags seq_length batch_size tags_shape
                batch_size_pos tags_range) as Hrange'.
  destruct (compute_score_ok self full_road_emb A_list _ _ _ seq_length batch_size
              (CRF.num_tags self) emb_dim emb_shape adj_shape Hem' Htags' Hmask'
              Hrange' seq_length_pos)
    as [numerator [Hscore [Hlen _]]].
  exists numerator. split; [exact Hscore|]. split; [exact Hlen|].
  rewrite forward_unfold, Hscore.
  rewrite compute_normalizer_run by assumption.
  rewrite sum_float_of_bool.
  fold (valid_positions (time_major self false mask)).
  rewrite (valid_positions_time_major self mask seq_length batch_size mask_shape
             batch_size_pos).
  rewrite (zip_with_by_index Rminus _ _ batch_size Hlen)
    by (apply (normalizer_of_length self full_road_emb A_list _ _ seq_length
                 batch_size (CRF.num_tags self)); assumption).
  do 4 f_equal. apply map_ext_in. intros b Hb. apply in_seq in Hb.
  rewrite (normalizer_of_entry self full_road_emb A_list _ _ seq_length batch_size
             (CRF.num_tags self) Hem' Hmask' seq_length_pos) by (assumption || lia).
  reflexivity.
Qed.

End ForwardValue.

Lemma sum_map_nonpos (f : nat -> R) (l : list nat) :
  (forall b, In b l -> f b <= 0) -> sum (map f l) <= 0.
Proof.
  unfold sum. induction l as [|b l IH]; intros H; simpl; [lra|].
  pose proof (H b (or_introl eq_refl)).
  specialize (IH (fun x Hx => H x (or_intror Hx))). lra.
Qed.

(** X7.  With a sample size below [num_tags] and at least one valid
    position, the value returned by [forward] is never positive: the
    normalizer of a batch element is at least its gold score. *)
Theorem forward_is_not_positive
    (G : Generator) (self : CRF.t) (emissions : tensor3) (tags : list (list nat))
    (full_road_emb A_list : tensor2) (mask : list (list bool))
    (seq_length batch_size emb_dim : nat) (s : rng G) :
  shape2 (CRF.num_tags self) emb_dim full_road_emb ->
  shape2 (CRF.num_tags self) (CRF.num_tags self) A_list ->
  input_shape3 self seq_length batch_size (CRF.num_tags self) emissions ->
  input_shape2 self seq_length batch_size tags ->
  input_shape2 self seq_length batch_size mask ->
  Forall (Forall (fun a => (a < CRF.num_tags self)%nat)) tags ->
  (1 <= seq_length)%nat ->
  (1 <= batch_size)%nat ->
  (CRF.neg_nums self < CRF.num_tags self)%nat ->
  (1 <= valid_positions mask)%nat ->
  exists (llh : R) (s' : rng G),
    CRF.forward G self emissions tags full_road_emb A_list mask s = (Ok llh, s')
    /\ llh <= 0.
Proof.
  intros HE HA Hem Htags Hmask Hrange HT HB Hk Hvalid.
  destruct (forward_run G self emissions tags full_road_emb A_list mask
              seq_length batch_size emb_dim s HE HA Hem Htags Hmask Hrange HT HB
              ltac:(lia) ltac:(lia)) as [numerator [_ [_ Hrun]]].
  eexists _, _. split; [exact Hrun|].
  assert (Hcount : 0 < INR (valid_positions mask)) by (apply lt_0_INR; lia).
  assert (Hterm : forall b,
            nth b numerator 0
            - denominator_of G self emissions full_road_emb A_list mask s numerator b
            <= - ln (sample_ratio self)).
  { intros b. unfold denominator_of.
    pose proof (logsumexp_ge_last
                  (nth b (sampled_scores self full_road_emb A_list
                            (time_major self [] emissions)
                            (time_major self false mask) (drawn G self s)) [])
                  (nth b numerator 0)). lra. }
  pose proof (bias_correction_nonneg self Hk) as Hbias.
  apply Rmult_le_reg_r with (r := INR (valid_positions mask)); [exact Hcount|].
  unfold Rdiv. rewrite Rmult_assoc, Rinv_l, Rmult_1_r, Rmult_0_l by lra.
  apply sum_map_nonpos. intros b _. specialize (Hterm b). lra.
Qed.

Definition crf3 : CRF.t :=
  {| CRF.num_tags := 3; CRF.batch_first := true; CRF.device := "cpu";
     CRF.beam_size := 5; CRF.neg_nums := 1;
     CRF.W_weight := [[1]]; CRF.W_bias := [0] |}.

Definition emb3 : tensor2 := [[1]; [2]; [0]].
Definition eye3 : tensor2 := [[1; 0; 0]; [0; 1; 0]; [0; 0; 1]].
Definition emissions3 : tensor3 := [[[0; 1; 2]; [3; 0; 1]]].

Lemma emb3_shape : shape2 3 1 emb3.
Proof. split; [reflexivity | repeat constructor]. Qed.

Lemma eye3_shape : shape2 3 3 eye3.
Proof. split; [reflexivity | repeat constructor]. Qed.

Lemma forward_is_not_positive_witness :
  exists (llh : R) (s' : nat),
    CRF.forward rotating crf3 emissions3 [[2%nat; O]] emb3 eye3 [[true; true]] O
    = (Ok llh, s')
    /\ llh <= 0.
Proof.
  apply (forward_is_not_positive rotating crf3 emissions3 [[2%nat; O]] emb3 eye3
           [[true; true]] 2 1 1 O).
  - exact emb3_shape.
  - exact eye3_shape.
  - split; [reflexivity|]. repeat constructor.
  - split; [reflexivity|]. repeat constructor.
  - split; [reflexivity|]. repeat constructor.
  - repeat constructor.
  - lia.
  - lia.
  - simpl; lia.
  - cbv; lia.
Defined.

(** ** The normalizer, one batch element at a time *)

Section NormalizerRows.

Variable trans : tensor2.
Variable neg_tag_sets : list nat.
Variable emissions : tensor3.
Variable mask : list (list bool).
Variables seq_length batch_size n : nat.

Hypothesis emissions_shape : shape3 seq_length batch_size n emissions.
Hypothesis mask_shape : shape2 seq_length batch_size mask.

(** What step [i] of the normalizer does to the row of batch element [b]. *)
Definition normalizer_row_step (b : nat) (row : tensor1) (i : nat) : tensor1 :=
  if mask_at mask i b
  then map (fun j =>
              logsumexp (col 0 j (broadcast_add row trans
                                    (take_tags neg_tag_sets
                                               (emission_row emissions i b)))))
           (seq 0 (length neg_tag_sets))
  else row.

(** The row of batch element [b] after step [k]. *)
Definition normalizer_row (b k : nat) : tensor1 :=
  fold_left (normalizer_row_step b) (seq 1 k)
            (take_tags neg_tag_sets (emission_row emissions 0 b)).

Lemma normalizer_step_row (score : tensor2) (i b : nat) :
  (i < seq_length)%nat -> length score = batch_size -> (b < batch_size)%nat ->
  nth b (CRF.normalizer_step trans neg_tag_sets emissions mask score i) []
  = normalizer_row_step b (nth b score []) i.
Proof.
  intros Hi Hs Hb. unfold CRF.normalizer_step, normalizer_row_step, where_rows.
  pose proof (shape2_row seq_length batch_size mask i mask_shape Hi) as Hm.
  destruct (shape3_slice seq_length batch_size n emissions i emissions_shape Hi)
    as [Hlen _].
  rewrite (nth_zip_with _ _ _ _ _ false ([], []));
    [| lia
     | rewrite length_combine, zip_with_length, length_map; lia].
  rewrite combine_nth by (rewrite zip_with_length, length_map; lia).
  cbn [fst snd]. unfold mask_at.
  destruct (nth b (nth i mask []) false); [| reflexivity].
  rewrite (nth_zip_with _ _ _ _ _ [] []) by (try rewrite length_map; lia).
  rewrite (nth_map (take_tags neg_tag_sets) _ b [] []) by lia.
  reflexivity.
Qed.

Lemma normalizer_rows (k : nat) :
  (k < seq_length)%nat ->
  let score :=
    fold_left (CRF.normalizer_step trans neg_tag_sets emissions mask) (seq 1 k)
              (map (take_tags neg_tag_sets) (nth 0 emissions [])) in
  length score = batch_size
  /\ forall b, (b < batch_size)%nat -> nth b score [] = normalizer_row b k.
Proof.
  induction k as [|k IH]; intros Hk.
  - destruct (shape3_slice seq_length batch_size n emissions 0 emissions_shape Hk)
      as [Hlen _].
    cbn [seq fold_left]. split; [rewrite length_map; exact Hlen|].
    intros b Hb. unfold normalizer_row. cbn [seq fold_left].
    apply (nth_map (take_tags neg_tag_sets)). lia.
  - destruct IH as [Hlen Hrows]; [lia|].
    cbv zeta. rewrite seq_S, fold_left_app. cbn [fold_left Nat.add].
    set (score := fold_left _ (seq 1 k) _) in *.
    split.
    + unfold CRF.normalizer_step.
      rewrite where_rows_length, zip_with_length, length_map, Hlen.
      rewrite (shape2_row seq_length batch_size mask (S k) mask_shape Hk).
      destruct (shape3_slice seq_length batch_size n emissions (S k)
                  emissions_shape Hk) as [Hl _].
      rewrite Hl. lia.
    + intros b Hb. rewrite normalizer_step_row by assumption.
      rewrite (Hrows b Hb). unfold normalizer_row.
      rewrite seq_S, fold_left_app. reflexivity.
Qed.

End NormalizerRows.

Lemma sampled_scores_row (self : CRF.t) (full_road_emb A_list : tensor2)
    (emissions : tensor3) (mask : list (list bool)) (neg : list nat)
    (seq_length batch_size n b : nat) :
  shape3 seq_length batch_size n emissions ->
  shape2 seq_length batch_size mask ->
  (1 <= seq_length)%nat -> (b < batch_size)%nat ->
  nth b (sampled_scores self full_road_emb A_list emissions mask neg) []
  = normalizer_row (sampled_trans self full_road_emb A_list neg) neg emissions mask
                   b (seq_length - 1).
Proof.
  intros Hem Hmask HT Hb. unfold sampled_scores.
  rewrite (proj1 Hem).
  apply (normalizer_rows _ neg emissions mask seq_length batch_size n Hem Hmask
           (seq_length - 1) ltac:(lia)).
  exact Hb.
Qed.

(** Under a prefix mask the row of a batch element depends on the emissions
    of its valid steps only. *)
Lemma normalizer_row_agree (trans : tensor2) (neg : list nat)
    (emissions1 emissions2 : tensor3) (mask : list (list bool))
    (seq_length b len k : nat) :
  prefix_mask mask seq_length b len ->
  (forall t, (t < len)%nat ->
     emission_row emissions1 t b = emission_row emissions2 t b) ->
  (k < seq_length)%nat ->
  normalizer_row trans neg emissions1 mask b k
  = normalizer_row trans neg emissions2 mask b k.
Proof.
  intros [Hlen Hmask] Hsame. induction k as [|k IH]; intros Hk.
  - unfold normalizer_row. cbn [seq fold_left]. rewrite Hsame by lia. reflexivity.
  - unfold normalizer_row in *. rewrite !seq_S, !fold_left_app.
    cbn [fold_left Nat.add]. rewrite IH by lia.
    unfold normalizer_row_step. rewrite Hmask by exact Hk.
    destruct (Nat.ltb_spec (S k) len) as [Hlt | _]; [| reflexivity].
    rewrite Hsame by exact Hlt. reflexivity.
Qed.

(** The hypotheses on two inputs that agree on the valid positions, read on
    the time-major tensors. *)
Lemma perturbation_time_major
    (self : CRF.t) (emissions1 emissions2 : tensor3)
    (tags1 tags2 : list (list nat)) (mask : list (list bool))
    (seq_length batch_size n : nat) :
  input_shape3 self seq_length batch_size n emissions1 ->
  input_shape3 self seq_length batch_size n emissions2 ->
  input_shape2 self seq_length batch_size tags1 ->
  input_shape2 self seq_length batch_size tags2 ->
  input_shape2 self seq_length batch_size mask ->
  (forall b, (b < batch_size)%nat ->
     exists len, (1 <= len <= seq_length)%nat
       /\ forall t, (t < seq_length)%nat ->
            input_at self false mask t b = (t <? len)%nat) ->
  (forall t b, (t < seq_length)%nat -> (b < batch_size)%nat ->
     input_at self false mask t b = true ->
     input_at self [] emissions1 t b = input_at self [] emissions2 t b
     /\ input_at self O tags1 t b = input_at self O tags2 t b) ->
  forall b, (b < batch_size)%nat ->
    exists len,
      prefix_mask (time_major self false mask) seq_length b len
      /\ (forall t, (t < len)%nat ->
            emission_row (time_major self [] emissions1) t b
            = emission_row (time_major self [] emissions2) t b)
      /\ (forall t, (t < len)%nat ->
            tag_at (time_major self O tags1) t b
            = tag_at (time_major self O tags2) t b).
Proof.
  intros Hem1 Hem2 Ht1 Ht2 Hmask Hprefix Hsame b Hb.
  assert (HB : (1 <= batch_size)%nat) by lia.
  destruct (Hprefix b Hb) as [len [Hlen Hm]]. exists len.
  assert (Hvalid : forall t, (t < len)%nat -> input_at self false mask t b = true).
  { intros t Ht. rewrite Hm by lia. apply Nat.ltb_lt. exact Ht. }
  split; [| split].
  - split; [exact Hlen|]. intros t Ht. unfold mask_at.
    rewrite (time_major_at self seq_length batch_size HB false mask t b)
      by assumption.
    apply Hm. exact Ht.
  - intros t Ht. unfold emission_row.
    rewrite !(time_major_at self seq_length batch_size HB [])
      by (try apply (input_shape3_shape2 self seq_length batch_size n);
          assumption || lia).
    apply (Hsame t b); [lia | exact Hb | apply Hvalid; exact Ht].
  - intros t Ht. unfold tag_at.
    rewrite !(time_major_at self seq_length batch_size HB O) by (assumption || lia).
    apply (Hsame t b); [lia | exact Hb | apply Hvalid; exact Ht].
Qed.

(** X8.  With prefix masks and gold tags that are tags at every position of
    both inputs, masked positions included, padding does not influence the
    training objective: two inputs that agree wherever the mask is one give
    the same result of [forward] from the same generator state, value,
    exception and new state alike.  (A gold tag outside [0, num_tags) at a
    masked position is still used as an index and raises, see X3.) *)
Theorem forward_ignores_masked_positions
    (G : Generator) (self : CRF.t) (emissions1 emissions2 : tensor3)
    (tags1 tags2 : list (list nat)) (full_road_emb A_list : tensor2)
    (mask : list (list bool)) (seq_length batch_size emb_dim : nat) (s : rng G) :
  shape2 (CRF.num_tags self) emb_dim full_road_emb ->
  shape2 (CRF.num_tags self) (CRF.num_tags self) A_list ->
  input_shape3 self seq_length batch_size (CRF.num_tags self) emissions1 ->
  input_shape3 self seq_length batch_size (CRF.num_tags self) emissions2 ->
  input_shape2 self seq_length batch_size tags1 ->
  input_shape2 self seq_length batch_size tags2 ->
  input_shape2 self seq_length batch_size mask ->
  Forall (Forall (fun a => (a < CRF.num_tags self)%nat)) tags1 ->
  Forall (Forall (fun a => (a < CRF.num_tags self)%nat)) tags2 ->
  (1 <= seq_length)%nat ->
  (1 <= batch_size)%nat ->
  (forall b, (b < batch_size)%nat ->
     exists len, (1 <= len <= seq_length)%nat
       /\ forall t, (t < seq_length)%nat ->
            input_at self false mask t b = (t <? len)%nat) ->
  (forall t b, (t < seq_length)%nat -> (b < batch_size)%nat ->
     input_at self false mask t b = true ->
     input_at self [] emissions1 t b = input_at self [] emissions2 t b
     /\ input_at self O tags1 t b = input_at self O tags2 t b) ->
  CRF.forward G self emissions1 tags1 full_road_emb A_list mask s
  = CRF.forward G self emissions2 tags2 full_road_emb A_list mask s.
Proof.
  intros HE HA Hem1 Hem2 Ht1 Ht2 Hmask Hr1 Hr2 HT HB Hprefix Hsame.
  set (n := CRF.num_tags self) in *.
  pose proof (perturbation_time_major self emissions1 emissions2 tags1 tags2 mask
                seq_length batch_size n Hem1 Hem2 Ht1 Ht2 Hmask Hprefix Hsame)
    as Hrun.
  pose proof (time_major_shape3 self seq_length batch_size HB n _ Hem1) as Hem1'.
  pose proof (time_major_shape3 self seq_length batch_size HB n _ Hem2) as Hem2'.
  pose proof (time_major_shape2 self seq_length batch_size HB O _ Ht1) as Ht1'.
  pose proof (time_major_shape2 self seq_length batch_size HB O _ Ht2) as Ht2'.
  pose proof (time_major_shape2 self seq_length batch_size HB false _ Hmask)
    as Hmask'.
  pose proof (time_major_Forall self _ O tags1 seq_length batch_size Ht1 HB Hr1)
    as Hr1'.
  pose proof (time_major_Forall self _ O tags2 seq_length batch_size Ht2 HB Hr2)
    as Hr2'.
  destruct (compute_score_ok self full_road_emb A_list _ _ _
              seq_length batch_size n emb_dim HE HA Hem1' Ht1' Hmask' Hr1' HT)
    as [score1 [Hs1 [Hl1 Hv1]]].
  destruct (compute_score_ok self full_road_emb A_list _ _ _
              seq_length batch_size n emb_dim HE HA Hem2' Ht2' Hmask' Hr2' HT)
    as [score2 [Hs2 [Hl2 Hv2]]].
  assert (Hscore : score1 = score2).
  { apply nth_ext with (d := 0) (d' := 0); [lia|].
    intros b Hb. rewrite Hl1 in Hb. rewrite Hv1, Hv2 by exact Hb.
    destruct (Hrun b Hb) as [len [Hp [He Htg]]].
    apply (gold_score_agree self full_road_emb A_list _ _ _ _ _
             seq_length b len Hp He Htg). }
  assert (Hn : (1 <= n)%nat).
  { pose proof (tag_at_range (time_major self O tags1) seq_length batch_size n
                  Ht1' Hr1' HT O O ltac:(lia) ltac:(lia)). lia. }
  rewrite !forward_unfold, Hs1, Hs2, <- Hscore.
  destruct (Nat.le_gt_cases (CRF.neg_nums self) n) as [Hle | Hgt].
  - rewrite !compute_normalizer_run by assumption.
    assert (Hrows : sampled_scores self full_road_emb A_list
                      (time_major self [] emissions1) (time_major self false mask)
                      (drawn G self s)
                    = sampled_scores self full_road_emb A_list
                        (time_major self [] emissions2)
                        (time_major self false mask) (drawn G self s)).
    { apply nth_ext with (d := []) (d' := []).
      - rewrite (sampled_scores_length self full_road_emb A_list _ _
                   seq_length batch_size n Hem1' Hmask' HT).
        rewrite (sampled_scores_length self full_road_emb A_list _ _
                   seq_length batch_size n Hem2' Hmask' HT).
        reflexivity.
      - intros b Hb.
        rewrite (sampled_scores_length self full_road_emb A_list _ _
                   seq_length batch_size n Hem1' Hmask' HT) in Hb.
        rewrite (sampled_scores_row self full_road_emb A_list _ _ _
                   seq_length batch_size n b Hem1' Hmask' HT Hb).
        rewrite (sampled_scores_row self full_road_emb A_list _ _ _
                   seq_length batch_size n b Hem2' Hmask' HT Hb).
        destruct (Hrun b Hb) as [len [Hp [He _]]].
        apply (normalizer_row_agree _ _ _ _ _ seq_length b len); (assumption || lia). }
    unfold normalizer_of. rewrite Hrows. reflexivity.
  - rewrite !compute_normalizer_too_large by exact Hgt. reflexivity.
Qed.

Lemma forward_ignores_masked_positions_witness :
  CRF.forward rotating crf2_batch_first padded_emissions [[O; 1%nat]] emb2 eye2
              padded_mask O
  = CRF.forward rotating crf2_batch_first perturbed_emissions [[O; O]] emb2 eye2
                padded_mask O.
Proof.
  apply (forward_ignores_masked_positions rotating crf2_batch_first
           padded_emissions perturbed_emissions [[O; 1%nat]] [[O; O]] emb2 eye2
           padded_mask 2 1 1 O).
  - exact emb2_shape.
  - exact eye2_shape.
  - split; [reflexivity|]. repeat constructor.
  - split; [reflexivity|]. repeat constructor.
  - split; [reflexivity|]. repeat constructor.
  - split; [reflexivity|]. repeat constructor.
  - split; [reflexivity|]. repeat constructor.
  - repeat constructor.
  - repeat constructor.
  - lia.
  - lia.
  - intros b Hb. exists 1%nat. split; [lia|]. intros t Ht.
    assert (b = O) as -> by lia.
    destruct t as [|[|t]]; [reflexivity | reflexivity | lia].
  - intros t b Ht Hb Hm. assert (b = O) as -> by lia.
    destruct t as [|[|t]]; [split; reflexivity | discriminate Hm | lia].
Defined.

(** ** What [forward] reads of the generator

    [_compute_normalizer] reads the generator once, for the tags it samples,
    and uses the sample in sums only: the value it returns depends on the set
    of the tags drawn, not on their order. *)





Section ScoreOfATag.

Variable self : CRF.t.
Variables full_road_emb A_list : tensor2.
Variable emissions : tensor3.
Variable mask : list (list bool).
Variable b : nat.

Let trans := CRF.transitions self full_road_emb A_list.







End ScoreOfATag.








(** * The adjacency matrix of [utils_gq/build_A.py]

    The script reads a road graph and writes the matrix [A] that the CRF takes
    as [A_list].  The graph is given by its adjacency view: one entry per
    node, the node with the keys of its neighbours, in iteration order. *)

Definition road_graph : Type := list (nat * list nat).

(** [for x in l: s = body(x, s)], stopping at the first exception. *)
Fixpoint for_in {S X : Type} (body : X -> S -> result S) (l : list X) (s : S)
  : result S :=
  match l with
  | [] => Ok s
  | x :: l' => (s' <- body x s ;; for_in body l' s')%py
  end.

Module BuildA.

Definition number_of_nodes (g : road_graph) : nat := length g.

(** [torch.eye(n)] *)
Definition eye (n : nat) : tensor2 :=
  map (fun i => map (fun j => if Nat.eqb i j then 1 else 0) (seq 0 n)) (seq 0 n).

(** [A[k][i] = x] *)
Definition set_entry (A : tensor2) (k i : nat) (x : R) : result tensor2 :=
  (row <- index A k ;;
   _ <- index row i ;;
   Ok (set_row A k (set_row row i x)))%py.

(** Lines 5-13 of the script. *)
Definition build_A (g : road_graph) : result tensor2 :=
  let n := number_of_nodes g in
  let A := eye n in
  for_in (fun (kv : nat * list nat) A =>
            let k := fst kv in
            let v := snd kv in
            for_in (fun i A =>
                      (A <- set_entry A k i 1 ;;
                       set_entry A i k 1)%py)
                   v A)
         g A.

End BuildA.

(** [k -> i] is an entry of the adjacency view. *)
Definition edge (g : road_graph) (k i : nat) : Prop :=
  exists v, In (k, v) g /\ In i v.

(** Every node and every neighbour is an index of the matrix. *)
Definition nodes_in_range (g : road_graph) (n : nat) : Prop :=
  forall k v, In (k, v) g -> (k < n)%nat /\ Forall (fun i => (i < n)%nat) v.

(** Entry [[a, b]] of a matrix. *)
Definition entry (A : tensor2) (a b : nat) : R := nth b (nth a A []) 0.

Lemma eye_shape (n : nat) : shape2 n n (BuildA.eye n).
Proof.
  unfold BuildA.eye. split; [rewrite length_map, length_seq; reflexivity|].
  apply Forall_forall. intros row Hrow. apply in_map_iff in Hrow.
  destruct Hrow as [i [<- _]]. rewrite length_map, length_seq. reflexivity.
Qed.

Lemma eye_entry (n a b : nat) :
  (a < n)%nat -> (b < n)%nat ->
  entry (BuildA.eye n) a b = if Nat.eqb a b then 1 else 0.
Proof.
  intros Ha Hb. unfold entry, BuildA.eye.
  rewrite (nth_map_seq _ n a []) by exact Ha.
  rewrite (nth_map_seq _ n b 0) by exact Hb. reflexivity.
Qed.

Lemma set_entry_ok (A : tensor2) (n k i : nat) (x : R) :
  shape2 n n A -> (k < n)%nat -> (i < n)%nat ->
  exists A',
    BuildA.set_entry A k i x = Ok A'
    /\ shape2 n n A'
    /\ forall a b, entry A' a b
                   = if (Nat.eqb a k && Nat.eqb b i)%bool then x else entry A a b.
Proof.
  intros HA Hk Hi. pose proof HA as [Hlen Hrows]. unfold BuildA.set_entry.
  pose proof (shape2_row n n A k HA Hk) as Hrow.
  rewrite (index_ok A k []) by lia. simpl.
  rewrite (index_ok (nth k A []) i 0) by lia. simpl.
  eexists. split; [reflexivity|]. split.
  - split; [rewrite set_row_length; exact Hlen|].
    apply Forall_forall. intros row Hin.
    destruct (In_nth _ _ [] Hin) as [a [Ha <-]].
    rewrite set_row_length in Ha. rewrite nth_set_row by lia.
    destruct (Nat.eqb a k).
    + rewrite set_row_length. exact Hrow.
    + apply (shape2_row n n A a HA). lia.
  - intros a b. unfold entry. rewrite nth_set_row by lia.
    destruct (Nat.eqb_spec a k) as [-> | Hne]; simpl; [| reflexivity].
    rewrite nth_set_row by lia. reflexivity.
Qed.

Lemma set_entry_only (A : tensor2) (k i : nat) (x : R) :
  only_IndexError (BuildA.set_entry A k i x).
Proof.
  unfold BuildA.set_entry. apply only_bind; [apply only_index|]. intros row.
  apply only_bind; [apply only_index|]. intros _. apply only_Ok.
Qed.

Lemma set_entry_Ok_inv (A A' : tensor2) (k i : nat) (x : R) :
  BuildA.set_entry A k i x = Ok A' ->
  (k < length A)%nat /\ (i < length (nth k A []))%nat.
Proof.
  unfold BuildA.set_entry. intros H.
  apply bind_Ok_inv in H. destruct H as [row [Hrow H]].
  apply bind_Ok_inv in H. destruct H as [y [Hy _]].
  destruct (index_Ok_inv _ _ _ [] Hrow) as [Hk ->].
  destruct (index_Ok_inv _ _ _ 0 Hy) as [Hi _]. split; assumption.
Qed.

(** The pairs [(k, i)] that the two loops visit, in order. *)
Definition edges (g : road_graph) : list (nat * nat) :=
  flat_map (fun kv : nat * list nat => map (pair (fst kv)) (snd kv)) g.

(** [a] and [b] are the two ends of one of the pairs [es]. *)
Definition linked (es : list (nat * nat)) (a b : nat) : bool :=
  existsb (fun e : nat * nat =>
             (Nat.eqb (fst e) a && Nat.eqb (snd e) b)
             || (Nat.eqb (fst e) b && Nat.eqb (snd e) a))%bool
          es.

Lemma in_edges (g : road_graph) (k i : nat) : In (k, i) (edges g) <-> edge g k i.
Proof.
  unfold edges, edge. rewrite in_flat_map. split.
  - intros [[k' v] [Hin Hmap]]. cbn [fst snd] in Hmap.
    apply in_map_iff in Hmap. destruct Hmap as [i' [Heq Hi]].
    inversion Heq; subst. exists v. split; assumption.
  - intros [v [Hin Hi]]. exists (k, v). split; [exact Hin|].
    cbn [fst snd]. apply in_map. exact Hi.
Qed.

Lemma linked_edges (g : road_graph) (a b : nat) :
  linked (edges g) a b = true <-> edge g a b \/ edge g b a.
Proof.
  unfold linked. rewrite existsb_exists. split.
  - intros [[k i] [Hin H]]. cbn [fst snd] in H.
    apply orb_true_iff in H. destruct H as [H | H];
      apply andb_true_iff in H; destruct H as [H1 H2];
      apply Nat.eqb_eq in H1; apply Nat.eqb_eq in H2; subst;
      [left | right]; apply in_edges; exact Hin.
  - intros [H | H]; apply in_edges in H.
    + exists (a, b). split; [exact H|]. cbn [fst snd].
      rewrite !Nat.eqb_refl. reflexivity.
    + exists (b, a). split; [exact H|]. cbn [fst snd].
      rewrite !Nat.eqb_refl. apply orb_true_r.
Qed.

Section BuildMatrix.

Variable n : nat.

(** The matrix holds one exactly on the diagonal and between the two ends of
    the pairs visited so far, and zero elsewhere. *)
Definition marks (es : list (nat * nat)) (A : tensor2) : Prop :=
  shape2 n n A
  /\ forall a b, (a < n)%nat -> (b < n)%nat ->
       entry A a b = if (Nat.eqb a b || linked es a b)%bool then 1 else 0.

Lemma marks_pair (es : list (nat * nat)) (A : tensor2) (k i : nat) :
  marks es A -> (k < n)%nat -> (i < n)%nat ->
  exists A',
    (A1 <- BuildA.set_entry A k i 1 ;; BuildA.set_entry A1 i k 1)%py = Ok A'
    /\ marks (es ++ [(k, i)]) A'.
Proof.
  intros [HA Hentries] Hk Hi.
  destruct (set_entry_ok A n k i 1 HA Hk Hi) as [A1 [H1 [HA1 E1]]].
  destruct (set_entry_ok A1 n i k 1 HA1 Hi Hk) as [A2 [H2 [HA2 E2]]].
  exists A2. rewrite H1. simpl. split; [exact H2|]. split; [exact HA2|].
  intros a b Ha Hb. rewrite E2, E1, (Hentries a b Ha Hb).
  unfold linked. rewrite existsb_app. cbn [existsb fst snd].
  set (seen := existsb _ es).
  rewrite (Nat.eqb_sym k a), (Nat.eqb_sym i b), (Nat.eqb_sym k b), (Nat.eqb_sym i a).
  destruct (Nat.eqb_spec a i), (Nat.eqb_spec b k), (Nat.eqb_spec a k),
    (Nat.eqb_spec b i), (Nat.eqb_spec a b);
    subst; try congruence; try lia; cbn; destruct seen; reflexivity.
Qed.

Lemma marks_neighbours (es : list (nat * nat)) (A : tensor2) (k : nat)
    (v : list nat) :
  marks es A -> (k < n)%nat -> Forall (fun i => (i < n)%nat) v ->
  exists A',
    for_in (fun i A => (A1 <- BuildA.set_entry A k i 1 ;;
                        BuildA.set_entry A1 i k 1)%py) v A = Ok A'
    /\ marks (es ++ map (pair k) v) A'.
Proof.
  intros HA Hk Hv. revert es A HA.
  induction Hv as [|i v Hi Hv IH]; intros es A HA.
  - exists A. simpl. rewrite app_nil_r. split; [reflexivity | exact HA].
  - destruct (marks_pair es A k i HA Hk Hi) as [A1 [H1 HA1]].
    destruct (IH (es ++ [(k, i)]) A1 HA1) as [A' [H' HA']].
    exists A'. cbn [for_in map]. rewrite H1. simpl. split; [exact H'|].
    rewrite <- app_assoc in HA'. exact HA'.
Qed.

Lemma marks_graph (es : list (nat * nat)) (A : tensor2) (g : road_graph) :
  marks es A -> nodes_in_range g n ->
  exists A',
    for_in (fun (kv : nat * list nat) A =>
              let k := fst kv in
              let v := snd kv in
              for_in (fun i A => (A1 <- BuildA.set_entry A k i 1 ;;
                                  BuildA.set_entry A1 i k 1)%py) v A)
           g A = Ok A'
    /\ marks (es ++ edges g) A'.
Proof.
  revert es A; induction g as [|[k v] g IH]; intros es A HA Hg.
  - exists A. simpl. rewrite app_nil_r. split; [reflexivity | exact HA].
  - destruct (Hg k v (or_introl eq_refl)) as [Hk Hv].
    destruct (marks_neighbours es A k v HA Hk Hv) as [A1 [H1 HA1]].
    destruct (IH (es ++ map (pair k) v) A1 HA1) as [A' [H' HA']].
    { intros k' v' Hin. apply Hg. right; exact Hin. }
    exists A'. cbn [for_in fst snd]. rewrite H1. simpl. split; [exact H'|].
    unfold edges. cbn [flat_map fst snd]. fold (edges g).
    rewrite <- app_assoc in HA'. exact HA'.
Qed.

End BuildMatrix.

Lemma build_A_marks (g : road_graph) :
  nodes_in_range g (BuildA.number_of_nodes g) ->
  exists A, BuildA.build_A g = Ok A /\ marks (BuildA.number_of_nodes g) (edges g) A.
Proof.
  intros Hg. unfold BuildA.build_A.
  apply (marks_graph (BuildA.number_of_nodes g) [] _ g); [| exact Hg].
  split; [apply eye_shape|]. intros a b Ha Hb.
  rewrite eye_entry by assumption. cbn [linked existsb].
  rewrite orb_false_r. reflexivity.
Qed.

(** X10.  When every node and neighbour of the graph is below the number of
    nodes [n], the script builds an [n] by [n] matrix whose entry [[a, b]] is
    1 when [a = b] or the graph has an edge between [a] and [b] in either
    direction, and 0 otherwise; so the matrix is symmetric with a unit
    diagonal. *)
Theorem build_A_is_the_adjacency_indicator (g : road_graph) :
  nodes_in_range g (BuildA.number_of_nodes g) ->
  exists A : tensor2,
    BuildA.build_A g = Ok A
    /\ shape2 (BuildA.number_of_nodes g) (BuildA.number_of_nodes g) A
    /\ forall a b,
         (a < BuildA.number_of_nodes g)%nat -> (b < BuildA.number_of_nodes g)%nat ->
         (entry A a b = 1 \/ entry A a b = 0)
         /\ (entry A a b = 1 <-> a = b \/ edge g a b \/ edge g b a)
         /\ entry A a b = entry A b a
         /\ entry A a a = 1.
Proof.
  intros Hg. destruct (build_A_marks g Hg) as [A [Hrun [HA Hentries]]].
  exists A. split; [exact Hrun|]. split; [exact HA|].
  intros a b Ha Hb.
  assert (Hsym : linked (edges g) a b = linked (edges g) b a).
  { apply eq_true_iff_eq. rewrite !linked_edges. tauto. }
  rewrite (Hentries a b Ha Hb), (Hentries b a Hb Ha), (Hentries a a Ha Ha).
  rewrite Nat.eqb_refl, (Nat.eqb_sym b a), <- Hsym. cbn [orb].
  set (c := (Nat.eqb a b || linked (edges g) a b)%bool).
  assert (Hc : c = true <-> a = b \/ edge g a b \/ edge g b a).
  { unfold c. rewrite orb_true_iff, Nat.eqb_eq, linked_edges. tauto. }
  repeat split.
  - destruct c; auto.
  - intros H. apply Hc. destruct c; [reflexivity | lra].
  - intros H. apply Hc in H. rewrite H. reflexivity.
Qed.

(** Three road segments in a row: 0 - 1 - 2, each edge listed once. *)
Definition line_graph : road_graph := [(O, [1%nat]); (1%nat, [2%nat]); (2%nat, [])].

Lemma line_graph_in_range : nodes_in_range line_graph (BuildA.number_of_nodes line_graph).
Proof.
  intros k v Hin. cbn in Hin.
  destruct Hin as [H | [H | [H | []]]]; inversion H; subst;
    (split; [cbn; lia | repeat constructor]).
Qed.

Lemma build_A_is_the_adjacency_indicator_witness :
  exists A : tensor2,
    BuildA.build_A line_graph = Ok A
    /\ shape2 (BuildA.number_of_nodes line_graph)
              (BuildA.number_of_nodes line_graph) A
    /\ forall a b,
         (a < BuildA.number_of_nodes line_graph)%nat ->
         (b < BuildA.number_of_nodes line_graph)%nat ->
         (entry A a b = 1 \/ entry A a b = 0)
         /\ (entry A a b = 1 <-> a = b \/ edge line_graph a b \/ edge line_graph b a)
         /\ entry A a b = entry A b a
         /\ entry A a a = 1.
Proof.
  apply (build_A_is_the_adjacency_indicator line_graph).
  exact line_graph_in_range.
Defined.

Lemma for_in_Ok_inv {S X : Type} (P : S -> Prop) (Q : X -> Prop)
    (body : X -> S -> result S) (l : list X) (s s' : S) :
  P s ->
  (forall x s s1, In x l -> P s -> body x s = Ok s1 -> P s1 /\ Q x) ->
  for_in body l s = Ok s' -> P s' /\ Forall Q l.
Proof.
  revert s; induction l as [|x l IH]; intros s Hs Hbody H; simpl in H.
  - injection H as <-. split; [exact Hs | constructor].
  - apply bind_Ok_inv in H. destruct H as [s1 [H1 H]].
    destruct (Hbody x s s1 (or_introl eq_refl) Hs H1) as [Hs1 Hx].
    destruct (IH s1 Hs1 (fun y t t1 Hy => Hbody y t t1 (or_intror Hy)) H)
      as [Hs' Hl].
    split; [exact Hs' | constructor; assumption].
Qed.

Lemma only_for_in {S X : Type} (body : X -> S -> result S) (l : list X) (s : S) :
  (forall x s, only_IndexError (body x s)) -> only_IndexError (for_in body l s).
Proof.
  intros Hbody. revert s; induction l as [|x l IH]; intros s; simpl;
    [apply only_Ok|].
  apply only_bind; [apply Hbody | exact IH].
Qed.

Lemma set_entry_Ok_shape (A A' : tensor2) (n k i : nat) (x : R) :
  shape2 n n A -> BuildA.set_entry A k i x = Ok A' ->
  shape2 n n A' /\ (k < n)%nat /\ (i < n)%nat.
Proof.
  intros HA H. destruct (set_entry_Ok_inv A A' k i x H) as [Hk Hi].
  assert (Hk' : (k < n)%nat) by (destruct HA; lia).
  rewrite (shape2_row n n A k HA Hk') in Hi.
  destruct (set_entry_ok A n k i x HA Hk' Hi) as [A'' [H'' [HA'' _]]].
  rewrite H in H''. injection H'' as <-. auto.
Qed.

Lemma build_A_Ok_inv (g : road_graph) (A : tensor2) :
  BuildA.build_A g = Ok A ->
  forall k i, edge g k i ->
    (k < BuildA.number_of_nodes g)%nat /\ (i < BuildA.number_of_nodes g)%nat.
Proof.
  unfold BuildA.build_A. set (n := BuildA.number_of_nodes g). intros H k i [v [Hkv Hi]].
  assert (Hall : shape2 n n A
                 /\ Forall (fun kv : nat * list nat =>
                              Forall (fun i => (fst kv < n)%nat /\ (i < n)%nat)
                                     (snd kv)) g).
  { refine (for_in_Ok_inv (shape2 n n) _ _ g (BuildA.eye n) A (eye_shape n) _ H).
    intros [k' v'] A0 A1 _ HA0 Hinner. cbn [fst snd] in *.
    refine (for_in_Ok_inv (shape2 n n) (fun i => (k' < n)%nat /\ (i < n)%nat)
              _ v' A0 A1 HA0 _ Hinner).
    intros i' B B2 _ HB Hstep.
    apply bind_Ok_inv in Hstep. destruct Hstep as [B1 [H1 H2]].
    destruct (set_entry_Ok_shape B B1 n k' i' 1 HB H1) as [HB1 [Hk' Hi']].
    destruct (set_entry_Ok_shape B1 B2 n i' k' 1 HB1 H2) as [HB2 _].
    auto. }
  destruct Hall as [_ Hall].
  rewrite Forall_forall in Hall. specialize (Hall (k, v) Hkv).
  cbn [fst snd] in Hall. rewrite Forall_forall in Hall. exact (Hall i Hi).
Qed.

Lemma only_build_A (g : road_graph) : only_IndexError (BuildA.build_A g).
Proof.
  unfold BuildA.build_A. apply only_for_in. intros kv A.
  apply only_for_in. intros i B.
  apply only_bind; [apply set_entry_only|]. intros B1. apply set_entry_only.
Qed.

(** X11.  When the graph has an edge one end of which is not below the number
    of nodes, the script raises [IndexError] and builds no matrix. *)
Theorem build_A_rejects_out_of_range_node (g : road_graph) (k i : nat) :
  edge g k i ->
  (BuildA.number_of_nodes g <= k)%nat \/ (BuildA.number_of_nodes g <= i)%nat ->
  BuildA.build_A g = Raise IndexError.
Proof.
  intros Hedge Hbad.
  destruct (BuildA.build_A g) as [A | e] eqn:Hrun.
  - destruct (build_A_Ok_inv g A Hrun k i Hedge). lia.
  - f_equal. apply (only_build_A g). exact Hrun.
Qed.

Lemma build_A_rejects_out_of_range_node_witness :
  BuildA.build_A [(O, [1%nat]); (1%nat, [7%nat])] = Raise IndexError.
Proof.
  apply (build_A_rejects_out_of_range_node [(O, [1%nat]); (1%nat, [7%nat])]
           1 7).
  - exists [7%nat]. split; [right; left; reflexivity | left; reflexivity].
  - right. cbn. lia.
Defined.

(** X12.  The matrix built from a road graph gates the transition energy as
    the CRF expects: with that matrix as [A_list], the energy of every pair
    of tags is non-negative, it is zero between two distinct tags that no
    edge joins, and from a tag to itself it is the rectified product of the
    projected embedding with the embedding. *)
Theorem transitions_on_built_adjacency
    (self : CRF.t) (g : road_graph) (full_road_emb : tensor2) (emb_dim a b : nat) :
  BuildA.number_of_nodes g = CRF.num_tags self ->
  nodes_in_range g (BuildA.number_of_nodes g) ->
  shape2 (CRF.num_tags self) emb_dim full_road_emb ->
  (a < CRF.num_tags self)%nat -> (b < CRF.num_tags self)%nat ->
  exists A_list : tensor2,
    BuildA.build_A g = Ok A_list
    /\ 0 <= entry (CRF.transitions self full_road_emb A_list) a b
    /\ (a <> b -> ~ edge g a b -> ~ edge g b a ->
        entry (CRF.transitions self full_road_emb A_list) a b = 0)
    /\ entry (CRF.transitions self full_road_emb A_list) a a
       = relu (dot (CRF.W self (nth a full_road_emb [])) (nth a full_road_emb [])).
Proof.
  intros Hn Hg HE Ha Hb.
  destruct (build_A_marks g Hg) as [A [Hrun [HA Hentries]]].
  rewrite Hn in HA, Hentries.
  exists A. split; [exact Hrun|]. unfold entry at 1 2 3.
  rewrite !(transitions_entry self full_road_emb A (CRF.num_tags self) emb_dim HE HA)
    by assumption.
  unfold energy. fold (entry A a b). fold (entry A a a).
  rewrite (Hentries a b Ha Hb), (Hentries a a Ha Ha), Nat.eqb_refl. cbn [orb].
  pose proof (relu_nonneg (dot (CRF.W self (nth a full_road_emb []))
                               (nth b full_road_emb []))) as Hr.
  repeat split.
  - destruct (Nat.eqb a b || linked (edges g) a b)%bool; lra.
  - intros Hne Hab Hba.
    destruct (Nat.eqb_spec a b) as [Heq | _]; [contradiction|]. cbn [orb].
    destruct (linked (edges g) a b) eqn:Hl; [| lra].
    apply linked_edges in Hl. tauto.
  - lra.
Qed.

Definition emb_line : tensor2 := [[1]; [2]; [3]].

Lemma transitions_on_built_adjacency_witness :
  exists A_list : tensor2,
    BuildA.build_A line_graph = Ok A_list
    /\ 0 <= entry (CRF.transitions crf3 emb_line A_list) 0 2
    /\ (O <> 2%nat -> ~ edge line_graph 0 2 -> ~ edge line_graph 2 0 ->
        entry (CRF.transitions crf3 emb_line A_list) 0 2 = 0)
    /\ entry (CRF.transitions crf3 emb_line A_list) 0 0
       = relu (dot (CRF.W crf3 (nth 0 emb_line [])) (nth 0 emb_line [])).
Proof.
  apply (transitions_on_built_adjacency crf3 line_graph emb_line 1 0 2).
  - reflexivity.
  - exact line_graph_in_range.
  - split; [reflexivity | repeat constructor].
  - simpl; lia.
  - simpl; lia.
Defined.

(** * More on the decoder *)

(** ** A batch element with no valid position *)

Lemma back_length (rhist : list (list nat)) (c : nat) :
  length (back rhist c) = S (length rhist).
Proof.
  revert c; induction rhist as [|h rhist IH]; intros c; simpl; [reflexivity|].
  rewrite IH. reflexivity.
Qed.

Lemma back_in_range (n : nat) (rhist : list (list nat)) (c : nat) :
  (c < n)%nat ->
  Forall (fun h => forall k, (nth k h O < n)%nat) rhist ->
  Forall (fun a => (a < n)%nat) (back rhist c).
Proof.
  intros Hc Hh. revert c Hc.
  induction Hh as [|h rhist Hhead Htail IH]; intros c Hc; simpl.
  - repeat constructor. exact Hc.
  - constructor; [exact Hc|]. apply IH. apply Hhead.
Qed.

Lemma backpointers_in_range (self : CRF.t) (trans : tensor2)
    (row emission : tensor1) (k : nat) :
  length row = CRF.num_tags self ->
  shape2 (CRF.num_tags self) (CRF.num_tags self) trans ->
  length emission = CRF.num_tags self ->
  (1 <= CRF.num_tags self)%nat ->
  (nth k (snd (CRF.max_over_previous self trans row emission)) O
   < CRF.num_tags self)%nat.
Proof.
  intros Hrow Htrans Hem Hn.
  destruct (Nat.lt_ge_cases k (CRF.num_tags self)) as [Hk | Hk].
  - destruct (max_over_previous_spec self trans row emission k Hrow Htrans Hem Hk)
      as [_ [H _]]. exact H.
  - rewrite nth_overflow; [lia|].
    rewrite (proj2 (max_over_previous_length self trans row emission)). exact Hk.
Qed.

Lemma seq_ends_all_masked (mask : list (list bool)) (seq_length batch_size b : nat) :
  shape2 seq_length batch_size mask -> (b < batch_size)%nat ->
  (forall t, (t < seq_length)%nat -> mask_at mask t b = false) ->
  nth b (CRF.seq_ends mask batch_size) 0%Z = (-1)%Z.
Proof.
  intros Hshape Hb Hmask. unfold CRF.seq_ends.
  rewrite nth_map_seq by exact Hb.
  rewrite (mask_col mask seq_length batch_size b Hshape).
  rewrite (map_ext_in _ (fun t => (t <? 0)%nat))
    by (intros t Ht; apply in_seq in Ht; apply Hmask; lia).
  rewrite count_prefix. lia.
Qed.

(** X13.  For a batch element whose mask is zero at every position,
    [decode] does not return padding only: it returns the trace-back over all
    recorded steps but the last, that is [max 1 (seq_length - 1)] tags of
    [0, num_tags), followed by the sentinel for the rest. *)
Theorem decode_of_fully_masked_element
    (self : CRF.t) (emissions : tensor3) (full_road_emb A_list : tensor2)
    (mask : list (list bool)) (seq_length batch_size emb_dim b : nat) :
  shape2 (CRF.num_tags self) emb_dim full_road_emb ->
  shape2 (CRF.num_tags self) (CRF.num_tags self) A_list ->
  (1 <= emb_dim)%nat ->
  input_shape3 self seq_length batch_size (CRF.num_tags self) emissions ->
  input_shape2 self seq_length batch_size mask ->
  (1 <= seq_length)%nat ->
  (1 <= CRF.num_tags self)%nat ->
  (b < batch_size)%nat ->
  (forall t, (t < seq_length)%nat -> input_at self false mask t b = false) ->
  exists path : list nat,
    nth b (CRF.decode self emissions full_road_emb A_list mask) []
    = map Z.of_nat path ++ repeat (-1)%Z (seq_length - length path)
    /\ length path = Nat.max 1 (seq_length - 1)
    /\ Forall (fun a => (a < CRF.num_tags self)%nat) path.
Proof.
  intros HE HA Hd Hem Hmask HT Hn Hb Hzero.
  assert (HB : (1 <= batch_size)%nat) by lia.
  pose proof (time_major_shape3 self seq_length batch_size HB _ _ Hem) as Hem'.
  pose proof (time_major_shape2 self seq_length batch_size HB false _ Hmask)
    as Hmask'.
  set (em' := time_major self [] emissions) in *.
  set (mask' := time_major self false mask) in *.
  set (trans := CRF.transitions self full_road_emb A_list).
  assert (Htrans : shape2 (CRF.num_tags self) (CRF.num_tags self) trans)
    by (apply (transitions_shape self _ _ _ emb_dim); assumption).
  assert (Hmasked : forall t, (t < seq_length)%nat -> mask_at mask' t b = false).
  { intros t Ht. unfold mask_at, mask'.
    rewrite (time_major_at self seq_length batch_size HB false mask t b)
      by assumption.
    apply Hzero. exact Ht. }
  assert (Hrows : forall t, (t < seq_length)%nat ->
            length (emission_row em' t b) = CRF.num_tags self).
  { intros t Ht. unfold emission_row.
    apply (shape2_row batch_size); [| exact Hb].
    apply (shape3_slice seq_length); assumption. }
  assert (Hscore : forall k, (k < seq_length)%nat ->
            score_row self trans em' mask' b k = emission_row em' 0 b).
  { intros k Hk. apply score_row_masked. intros i Hi. apply Hmasked. lia. }
  rewrite decode_time_major. fold em' mask'.
  rewrite (viterbi_decode_row self full_road_emb A_list em' mask' seq_length
             batch_size Hem' Hmask' HT b Hb).
  rewrite (seq_ends_all_masked mask' seq_length batch_size b Hmask' Hb Hmasked).
  fold trans. unfold trace_row.
  set (hist := slice_to (map (backpointers self trans em' mask' b)
                             (seq 0 (seq_length - 1))) (-1)).
  pose proof (fold_back (rev hist) []
                (snd (max_dim0 (score_row self trans em' mask' b (seq_length - 1)))))
    as Hfold.
  cbn [app] in Hfold. rewrite Hfold.
  set (c := snd (max_dim0 (score_row self trans em' mask' b (seq_length - 1)))).
  exists (rev (back (rev hist) c)). split; [reflexivity|].
  assert (Hhist : hist = map (backpointers self trans em' mask' b)
                             (seq 0 (seq_length - 2))).
  { unfold hist, slice_to. cbn [Z.ltb Z.compare].
    rewrite length_map, length_seq, firstn_map, firstn_seq.
    f_equal. f_equal. lia. }
  split.
  - rewrite length_rev, back_length, length_rev, Hhist, length_map, length_seq. lia.
  - apply Forall_rev. apply back_in_range.
    + unfold c. rewrite Hscore by lia.
      assert (Hne : emission_row em' 0 b <> []).
      { intros Hnil. pose proof (Hrows O ltac:(lia)) as Hl.
        rewrite Hnil in Hl. simpl in Hl. lia. }
      destruct (max_dim0_spec _ Hne) as [Hk _]. rewrite Hrows in Hk by lia. exact Hk.
    + apply Forall_rev. rewrite Hhist. apply Forall_forall. intros h Hin.
      apply in_map_iff in Hin. destruct Hin as [k [<- Hk]]. apply in_seq in Hk.
      intros j. unfold backpointers. rewrite Hscore by lia.
      apply backpointers_in_range; try assumption; apply Hrows; lia.
Qed.

Lemma decode_of_fully_masked_element_witness :
  exists path : list nat,
    nth 0 (CRF.decode crf2 ems3 emb2 eye2 [[false]; [false]; [false]]) []
    = map Z.of_nat path ++ repeat (-1)%Z (3 - length path)
    /\ length path = Nat.max 1 (3 - 1)
    /\ Forall (fun a => (a < CRF.num_tags crf2)%nat) path.
Proof.
  apply (decode_of_fully_masked_element crf2 ems3 emb2 eye2
           [[false]; [false]; [false]] 3 1 1 0).
  - exact emb2_shape.
  - exact eye2_shape.
  - lia.
  - exact ems3_shape.
  - split; [reflexivity | repeat constructor].
  - lia.
  - simpl; lia.
  - lia.
  - intros t Ht.
    destruct t as [|[|[|t]]]; [reflexivity | reflexivity | reflexivity | lia].
Defined.

(** * One batch element at a time *)

(** The score row and the backpointers of a batch element are computed from
    its own emissions and its own mask column. *)
Lemma score_row_ext (self : CRF.t) (trans : tensor2)
    (emissions1 emissions2 : tensor3) (mask1 mask2 : list (list bool))
    (b1 b2 k : nat) :
  (forall t, (t <= k)%nat ->
     emission_row emissions1 t b1 = emission_row emissions2 t b2
     /\ mask_at mask1 t b1 = mask_at mask2 t b2) ->
  score_row self trans emissions1 mask1 b1 k
  = score_row self trans emissions2 mask2 b2 k.
Proof.
  induction k as [|k IH]; intros Hsame.
  - unfold score_row. cbn [seq fold_left]. apply (Hsame O). lia.
  - rewrite !score_row_S. unfold row_step.
    rewrite IH by (intros t Ht; apply Hsame; lia).
    destruct (Hsame (S k) (le_n _)) as [-> ->]. reflexivity.
Qed.

Lemma backpointers_ext (self : CRF.t) (trans : tensor2)
    (emissions1 emissions2 : tensor3) (mask1 mask2 : list (list bool))
    (b1 b2 k : nat) :
  (forall t, (t <= S k)%nat ->
     emission_row emissions1 t b1 = emission_row emissions2 t b2
     /\ mask_at mask1 t b1 = mask_at mask2 t b2) ->
  backpointers self trans emissions1 mask1 b1 k
  = backpointers self trans emissions2 mask2 b2 k.
Proof.
  intros Hsame. unfold backpointers.
  rewrite (score_row_ext self trans emissions1 emissions2 mask1 mask2 b1 b2 k)
    by (intros t Ht; apply Hsame; lia).
  destruct (Hsame (S k) (le_n _)) as [-> _]. reflexivity.
Qed.

Lemma seq_ends_ext (mask1 mask2 : list (list bool))
    (seq_length batch_size1 batch_size2 b1 b2 : nat) :
  shape2 seq_length batch_size1 mask1 -> shape2 seq_length batch_size2 mask2 ->
  (b1 < batch_size1)%nat -> (b2 < batch_size2)%nat ->
  (forall t, (t < seq_length)%nat -> mask_at mask1 t b1 = mask_at mask2 t b2) ->
  nth b1 (CRF.seq_ends mask1 batch_size1) 0%Z
  = nth b2 (CRF.seq_ends mask2 batch_size2) 0%Z.
Proof.
  intros H1 H2 Hb1 Hb2 Hsame. unfold CRF.seq_ends.
  rewrite !nth_map_seq by assumption.
  rewrite (mask_col mask1 seq_length batch_size1 b1 H1).
  rewrite (mask_col mask2 seq_length batch_size2 b2 H2).
  do 3 f_equal. apply map_ext_in. intros t Ht. apply in_seq in Ht.
  apply Hsame. lia.
Qed.

(** X16.  A sequence is decoded on its own: what [decode] returns for a batch
    element depends on the emissions and the mask of that element only, so
    the same sequence gets the same tags in any batch, at any position of the
    batch. *)
Theorem decode_rows_are_independent
    (self : CRF.t) (emissions1 emissions2 : tensor3)
    (full_road_emb A_list : tensor2) (mask1 mask2 : list (list bool))
    (seq_length batch_size1 batch_size2 b1 b2 : nat) :
  input_shape3 self seq_length batch_size1 (CRF.num_tags self) emissions1 ->
  input_shape3 self seq_length batch_size2 (CRF.num_tags self) emissions2 ->
  input_shape2 self seq_length batch_size1 mask1 ->
  input_shape2 self seq_length batch_size2 mask2 ->
  (1 <= seq_length)%nat ->
  (b1 < batch_size1)%nat -> (b2 < batch_size2)%nat ->
  (forall t, (t < seq_length)%nat ->
     input_at self [] emissions1 t b1 = input_at self [] emissions2 t b2
     /\ input_at self false mask1 t b1 = input_at self false mask2 t b2) ->
  nth b1 (CRF.decode self emissions1 full_road_emb A_list mask1) []
  = nth b2 (CRF.decode self emissions2 full_road_emb A_list mask2) [].
Proof.
  intros Hem1 Hem2 Hm1 Hm2 HT Hb1 Hb2 Hsame.
  assert (HB1 : (1 <= batch_size1)%nat) by lia.
  assert (HB2 : (1 <= batch_size2)%nat) by lia.
  pose proof (time_major_shape3 self seq_length batch_size1 HB1 _ _ Hem1) as Hem1'.
  pose proof (time_major_shape3 self seq_length batch_size2 HB2 _ _ Hem2) as Hem2'.
  pose proof (time_major_shape2 self seq_length batch_size1 HB1 false _ Hm1)
    as Hm1'.
  pose proof (time_major_shape2 self seq_length batch_size2 HB2 false _ Hm2)
    as Hm2'.
  assert (Hrows : forall t, (t < seq_length)%nat ->
            emission_row (time_major self [] emissions1) t b1
            = emission_row (time_major self [] emissions2) t b2
            /\ mask_at (time_major self false mask1) t b1
               = mask_at (time_major self false mask2) t b2).
  { intros t Ht. unfold emission_row, mask_at.
    rewrite (time_major_at self seq_length batch_size1 HB1 [] emissions1)
      by (try apply (input_shape3_shape2 self seq_length batch_size1
                       (CRF.num_tags self)); assumption).
    rewrite (time_major_at self seq_length batch_size2 HB2 [] emissions2)
      by (try apply (input_shape3_shape2 self seq_length batch_size2
                       (CRF.num_tags self)); assumption).
    rewrite (time_major_at self seq_length batch_size1 HB1 false mask1)
      by assumption.
    rewrite (time_major_at self seq_length batch_size2 HB2 false mask2)
      by assumption.
    apply Hsame. exact Ht. }
  rewrite !decode_time_major.
  rewrite (viterbi_decode_row self full_road_emb A_list _ _ seq_length
             batch_size1 Hem1' Hm1' HT b1 Hb1).
  rewrite (viterbi_decode_row self full_road_emb A_list _ _ seq_length
             batch_size2 Hem2' Hm2' HT b2 Hb2).
  rewrite (seq_ends_ext _ _ seq_length batch_size1 batch_size2 b1 b2 Hm1' Hm2'
             Hb1 Hb2 (fun t Ht => proj2 (Hrows t Ht))).
  rewrite (score_row_ext self _ _ (time_major self [] emissions2)
             _ (time_major self false mask2) b1 b2 (seq_length - 1))
    by (intros t Ht; apply Hrows; lia).
  rewrite (map_ext_in
             (backpointers self (CRF.transitions self full_road_emb A_list)
                           (time_major self [] emissions1)
                           (time_major self false mask1) b1)
             (backpointers self (CRF.transitions self full_road_emb A_list)
                           (time_major self [] emissions2)
                           (time_major self false mask2) b2)).
  - reflexivity.
  - intros k Hk. apply in_seq in Hk. apply backpointers_ext.
    intros t Ht. apply Hrows. lia.
Qed.

Lemma decode_rows_are_independent_witness :
  nth 0 (CRF.decode crf2 ems3 emb2 eye2 mask3) []
  = nth 1 (CRF.decode crf2 [[[1; 1]; [5; 0]]; [[2; 0]; [0; 10]]; [[0; 3]; [0; 0]]]
                      emb2 eye2
                      [[true; true]; [true; true]; [true; false]]) [].
Proof.
  apply (decode_rows_are_independent crf2 ems3
           [[[1; 1]; [5; 0]]; [[2; 0]; [0; 10]]; [[0; 3]; [0; 0]]] emb2 eye2 mask3
           [[true; true]; [true; true]; [true; false]] 3 1 2 0 1).
  - exact ems3_shape.
  - split; [reflexivity|]. repeat constructor.
  - exact mask3_shape.
  - split; [reflexivity|]. repeat constructor.
  - lia.
  - lia.
  - lia.
  - intros t Ht.
    destruct t as [|[|[|t]]]; [split; reflexivity | split; reflexivity
                               | split; reflexivity | lia].
Defined.
